(** * GridZen: the game engine of [src/App.js]

    A shallow embedding of the engine part of the React Native component
    [GridZenGame]: colour generation, grid construction, tile presses, win
    detection, the countdown effect and the high-score ledger.

    Conventions of the embedding.
    - A JavaScript value that may be [undefined] is an [option]; [None] is
      [undefined].  Arrays are lists, read with [!!]; a read out of range
      gives [undefined], a write out of range extends the array with holes.
    - Numbers that the engine only counts with ([moves], [timeLeft], tile
      numbers) are [Z].  The doubles of the colour generator and of
      [Math.random] are the rationals [Q] they denote, and each arithmetic
      operation on them returns the double nearest to its exact result
      ([roundDouble]: 53 significant bits, ties to even, subnormal below
      [2^-1022]); [%] is exact, as it is on doubles.
    - Strings typed by the player are sequences of UTF-16 code units; object
      keys built by the engine are [string]s.
    - An event handler is a closure over the state of the render in which it
      was created: it READS that snapshot ([cur]) and WRITES through the
      [set...] functions into the state of the next render.  A handler is a
      computation in the monad [M] below, over the [Game] being built. *)

From stdpp Require Import gmap strings list pretty.
From Stdlib Require Import QArith Qround Qpower Lqa Permutation Sorted.

Local Open Scope Z_scope.

(** ** Data model *)

(** [`hsl(${hue}, ${saturation}%, ${lightness}%)`], kept as its components. *)
Record Color := HSL { hue : Q; saturation : Q; lightness : Q }.

Record Tile := { number : option Z; color : option Color }.

(** A row is a JavaScript array of tiles (a hole reads as [undefined]); the
    grid is the array of its rows. *)
Abbreviation Row := (list (option Tile)).
Abbreviation Grid := (list Row).

Inductive GamePhase := Splash | Menu | Playing | Won | GameOver.

Global Instance GamePhase_eq_dec : EqDecision GamePhase.
Proof. solve_decision. Defined.

Abbreviation CodeUnit := N.
Abbreviation JsString := (list CodeUnit).

Module Score.
Record SessionResult := {
  name : JsString;
  moves : Z;
  timeRemaining : option Z;
  date : JsString
}.
End Score.
Abbreviation SessionResult := Score.SessionResult.

(** The [useState] cells of the component that the engine reads. *)
Record State := {
  gameState : GamePhase;
  gridSize : nat;
  grid : Grid;
  targetGrid : Grid;
  selectedTile : option (nat * nat);
  moves : Z;
  timeLeft : option Z;
  playerName : JsString;
  highScores : gmap string (list SessionResult);
  soundEnabled : bool
}.

Inductive Sound := GameOverSound | VictorySound.

(** What a handler asks of its collaborators. *)
Inductive Signal :=
  | AlertNameRequired
  | AlertCongratulations (shownMoves : Z) (shownTime : option Z)
  | AlertTimesUp
  | PlaySound (s : Sound)
  | SaveHighScores (scores : gmap string (list SessionResult))
  | SavePlayerName (name : JsString).

(** The component between two events: the state of the next render, the
    pending timeout of [timerRef] (with the [timeLeft] its callback closed
    over), the signals emitted so far, the future results of [Math.random],
    the string [new Date().toLocaleDateString()] returns, and whether the
    refs [gameOverSound] and [victorySound] hold a loaded sound ([null]
    until [loadSounds] has created both). *)
Record Game := {
  ui : State;
  pendingTimeout : option Z;
  out : list Signal;
  rng : nat → Q;
  today : JsString;
  gameOverSound : bool;
  victorySound : bool
}.

(** ** Handlers as computations *)

(** A handler completes normally or throws a [TypeError]; the updates queued
    before the throw are kept with it. *)
Inductive Completion (A : Type) :=
  | Normal (a : A) (g : Game)
  | TypeError (g : Game).
Arguments Normal {A} a g.
Arguments TypeError {A} g.

Definition M (A : Type) : Type := Game → Completion A.

Global Instance M_ret : MRet M := λ A a g, Normal a g.
Global Instance M_bind : MBind M := λ A B f m g,
  match m g with
  | Normal a g' => f a g'
  | TypeError g' => TypeError g'
  end.

Definition throwTypeError {A} : M A := λ g, TypeError g.

(** Updates of one component of the game. *)
Definition overUi (f : State → State) (g : Game) : Game :=
  {| ui := f (ui g); pendingTimeout := pendingTimeout g;
     out := out g; rng := rng g; today := today g;
     gameOverSound := gameOverSound g; victorySound := victorySound g |}.

Definition withPendingTimeout (t : option Z) (g : Game) : Game :=
  {| ui := ui g; pendingTimeout := t;
     out := out g; rng := rng g; today := today g;
     gameOverSound := gameOverSound g; victorySound := victorySound g |}.

Definition withSignal (s : Signal) (g : Game) : Game :=
  {| ui := ui g; pendingTimeout := pendingTimeout g;
     out := out g ++ [s]; rng := rng g; today := today g;
     gameOverSound := gameOverSound g; victorySound := victorySound g |}.

Definition afterDraw (g : Game) : Game :=
  {| ui := ui g; pendingTimeout := pendingTimeout g;
     out := out g; rng := λ k, rng g (S k); today := today g;
     gameOverSound := gameOverSound g; victorySound := victorySound g |}.

(** Both refs assigned, as at the end of [loadSounds]. *)
Definition withSounds (g : Game) : Game :=
  {| ui := ui g; pendingTimeout := pendingTimeout g;
     out := out g; rng := rng g; today := today g;
     gameOverSound := true; victorySound := true |}.

(** [gameOverSound.current] or [victorySound.current], as a truth value. *)
Definition soundRef (s : Sound) (g : Game) : bool :=
  match s with
  | GameOverSound => gameOverSound g
  | VictorySound => victorySound g
  end.

Definition modifyUi (f : State → State) : M unit := λ g, Normal tt (overUi f g).

Definition getUi : M State := λ g, Normal (ui g) g.

Definition emit (s : Signal) : M unit := λ g, Normal tt (withSignal s g).

Definition setPendingTimeout (t : option Z) : M unit := λ g,
  Normal tt (withPendingTimeout t g).

Definition getPendingTimeout : M (option Z) := λ g, Normal (pendingTimeout g) g.

Definition getSoundRef (s : Sound) : M bool := λ g, Normal (soundRef s g) g.

Definition setSoundRefs : M unit := λ g, Normal tt (withSounds g).

(** [Math.random()]: the next outcome of the generator. *)
Definition Math_random : M Q := λ g, Normal (rng g 0%nat) (afterDraw g).

Definition toLocaleDateString : M JsString := λ g, Normal (today g) g.

(** The state with one [useState] cell replaced. *)
Definition withGameState (x : GamePhase) (s : State) : State :=
  {| gameState := x; gridSize := gridSize s; grid := grid s;
     targetGrid := targetGrid s; selectedTile := selectedTile s; moves := moves s;
     timeLeft := timeLeft s; playerName := playerName s;
     highScores := highScores s; soundEnabled := soundEnabled s |}.

Definition withGridSize (x : nat) (s : State) : State :=
  {| gameState := gameState s; gridSize := x; grid := grid s;
     targetGrid := targetGrid s; selectedTile := selectedTile s; moves := moves s;
     timeLeft := timeLeft s; playerName := playerName s;
     highScores := highScores s; soundEnabled := soundEnabled s |}.

Definition withGrid (x : Grid) (s : State) : State :=
  {| gameState := gameState s; gridSize := gridSize s; grid := x;
     targetGrid := targetGrid s; selectedTile := selectedTile s; moves := moves s;
     timeLeft := timeLeft s; playerName := playerName s;
     highScores := highScores s; soundEnabled := soundEnabled s |}.

Definition withTargetGrid (x : Grid) (s : State) : State :=
  {| gameState := gameState s; gridSize := gridSize s; grid := grid s;
     targetGrid := x; selectedTile := selectedTile s; moves := moves s;
     timeLeft := timeLeft s; playerName := playerName s;
     highScores := highScores s; soundEnabled := soundEnabled s |}.

Definition withSelectedTile (x : option (nat * nat)) (s : State) : State :=
  {| gameState := gameState s; gridSize := gridSize s; grid := grid s;
     targetGrid := targetGrid s; selectedTile := x; moves := moves s;
     timeLeft := timeLeft s; playerName := playerName s;
     highScores := highScores s; soundEnabled := soundEnabled s |}.

Definition withMoves (x : Z) (s : State) : State :=
  {| gameState := gameState s; gridSize := gridSize s; grid := grid s;
     targetGrid := targetGrid s; selectedTile := selectedTile s; moves := x;
     timeLeft := timeLeft s; playerName := playerName s;
     highScores := highScores s; soundEnabled := soundEnabled s |}.

Definition withTimeLeft (x : option Z) (s : State) : State :=
  {| gameState := gameState s; gridSize := gridSize s; grid := grid s;
     targetGrid := targetGrid s; selectedTile := selectedTile s; moves := moves s;
     timeLeft := x; playerName := playerName s;
     highScores := highScores s; soundEnabled := soundEnabled s |}.

Definition withPlayerName (x : JsString) (s : State) : State :=
  {| gameState := gameState s; gridSize := gridSize s; grid := grid s;
     targetGrid := targetGrid s; selectedTile := selectedTile s; moves := moves s;
     timeLeft := timeLeft s; playerName := x;
     highScores := highScores s; soundEnabled := soundEnabled s |}.

Definition withHighScores (x : gmap string (list SessionResult)) (s : State) : State :=
  {| gameState := gameState s; gridSize := gridSize s; grid := grid s;
     targetGrid := targetGrid s; selectedTile := selectedTile s; moves := moves s;
     timeLeft := timeLeft s; playerName := playerName s;
     highScores := x; soundEnabled := soundEnabled s |}.

(** The [useState] setters: the new value is queued for the next render. *)
Definition setGameState (x : GamePhase) : M unit := modifyUi (withGameState x).
Definition setGridSize (x : nat) : M unit := modifyUi (withGridSize x).
Definition setGrid (x : Grid) : M unit := modifyUi (withGrid x).
Definition setTargetGrid (x : Grid) : M unit := modifyUi (withTargetGrid x).
Definition setSelectedTile (x : option (nat * nat)) : M unit := modifyUi (withSelectedTile x).
Definition setMoves (x : Z) : M unit := modifyUi (withMoves x).
Definition setTimeLeft (x : option Z) : M unit := modifyUi (withTimeLeft x).
Definition setPlayerName (x : JsString) : M unit := modifyUi (withPlayerName x).
Definition setHighScores (x : gmap string (list SessionResult)) : M unit := modifyUi (withHighScores x).

(** ** JavaScript arrays *)

(** [a[i] = v]: in range the element is replaced; out of range the array
    grows, the indices in between being holes. *)
Definition js_set {A} (a : list (option A)) (i : nat) (v : option A) : list (option A) :=
  if decide (i < length a)%nat then <[i:=v]> a
  else a ++ replicate (i - length a)%nat None ++ [v].

(** [a[i]]: [undefined] out of range and at a hole. *)
Definition js_get {A} (a : list (option A)) (i : nat) : option A :=
  mjoin (a !! i).

(** [a[z]] for a number [z] computed by the program. *)
Definition js_index {A} (a : list A) (z : Z) : option A :=
  if decide (z < 0) then None else a !! Z.to_nat z.

(** [Array.prototype.sort(compare)].  The engine's algorithm is not part of
    the repository; the order in which it calls [compare] is its own choice.
    It is taken here as a stable insertion sort, which places an element
    before the next one when [compare] returns a number [<= 0]. *)
Fixpoint array_insert {A} (compare : A → A → M Q) (x : A) (l : list A) : M (list A) :=
  match l with
  | [] => mret [x]
  | y :: l' =>
      c ← compare x y;
      if Qle_bool c 0 then mret (x :: y :: l')
      else l'' ← array_insert compare x l'; mret (y :: l'')
  end.

Fixpoint array_sort {A} (compare : A → A → M Q) (l : list A) : M (list A) :=
  match l with
  | [] => mret []
  | x :: l' => s ← array_sort compare l'; array_insert compare x s
  end.

(** [x % m] on numbers: the remainder has the sign of the dividend. *)
Definition js_rem (x m : Q) : Q :=
  (x - m * inject_Z (Z.quot (Qnum (x / m)) (Zpos (Qden (x / m)))))%Q.

(** ** Double arithmetic *)

(** For [x > 0], the exponent [e] with [2^e <= x < 2^(e+1)]: the difference
    of the bit lengths of numerator and denominator, or one less. *)
Definition floorLog2 (x : Q) : Z :=
  let k := Z.log2 (Qnum x) - Z.log2 (Zpos (Qden x)) in
  if Qle_bool (2 ^ k) x then k else k - 1.

(** The nearest integer, a tie going to the even one. *)
Definition roundHalfEven (y : Q) : Z :=
  let f := Qfloor y in
  match ((y - inject_Z f) ?= (1 # 2))%Q with
  | Lt => f
  | Gt => f + 1
  | Eq => if Z.even f then f else f + 1
  end.

(** The exponent of the last bit of the doubles next to [x > 0]: 53
    significant bits from [2^-1022] on, steps of [2^-1074] below. *)
Definition ulpExponent (x : Q) : Z := Z.max (floorLog2 x) (-1022) - 52.

Definition roundPositive (x : Q) : Q :=
  (inject_Z (roundHalfEven (x / 2 ^ ulpExponent x)) * 2 ^ ulpExponent x)%Q.

(** The double an operation returns whose exact result is [x]: the nearest
    double, ties to even.  (Beyond the largest double the operation returns
    [Infinity]; the numbers of the engine stay below [2^10].) *)
Definition roundDouble (x : Q) : Q :=
  match (x ?= 0)%Q with
  | Eq => 0%Q
  | Gt => roundPositive x
  | Lt => (- roundPositive (- x))%Q
  end.

(** ** Color generator ([generateDistinctColors]) *)

(** The [for] loop: one pass per index, three draws per pass.  The product,
    the sums and the quotient are rounded one by one, in the order the
    expressions are evaluated. *)
Fixpoint colorLoop (hueStep : Q) (indices : list nat) (colors : list Color)
  : M (list Color) :=
  match indices with
  | [] => mret colors
  | i :: rest =>
      r1 ← Math_random;
      let h := js_rem (roundDouble (roundDouble (inject_Z (Z.of_nat i) * hueStep)
                                    + roundDouble (r1 * 30)))%Q 360%Q in
      r2 ← Math_random;
      let s := roundDouble (70 + roundDouble (r2 * 30))%Q in
      r3 ← Math_random;
      let l := roundDouble (45 + roundDouble (r3 * 20))%Q in
      colorLoop hueStep rest (colors ++ [HSL h s l])
  end.

(** The colours as pushed by the loop, before [colors.sort].  ([hueStep] is
    not used when [count] is 0: the loop body does not run.) *)
Definition pushedColors (count : nat) : M (list Color) :=
  let hueStep := roundDouble (360 / inject_Z (Z.of_nat count))%Q in
  colorLoop hueStep (seq 0 count) [].

(** [() => Math.random() - 0.5] *)
Definition randomCompare {A} (_ _ : A) : M Q :=
  r ← Math_random; mret (roundDouble (r - (1 # 2)))%Q.

Definition generateDistinctColors (count : nat) : M (list Color) :=
  colors ← pushedColors count;
  array_sort randomCompare colors.

(** ** Grid factory ([initializeGrid]) *)

(** The two nested [for] loops that fill [g[i][j]] for [i, j < n]. *)
Definition fillGrid (n : nat) (cell : nat → nat → Tile) : Grid :=
  map (λ i, map (λ j, Some (cell i j)) (seq 0 n)) (seq 0 n).

Definition targetCell (n : nat) (colors : list Color) (i j : nat) : Tile :=
  {| number := Some (Z.of_nat (i * n + j + 1));
     color := colors !! (i * n + j)%nat |}.

Definition shuffledCell (n : nat) (colors : list Color) (shuffled : list Z)
  (i j : nat) : Tile :=
  let index := (i * n + j)%nat in
  {| number := shuffled !! index;
     color := k ← shuffled !! index; js_index colors (k - 1) |}.

(** [Array.from({ length: size }, (_, i) => i + 1)] *)
Definition oneTo (size : nat) : list Z := map (λ i, Z.of_nat i + 1) (seq 0 size).

Definition initializeGrid (cur : State) : M unit :=
  let size := (gridSize cur * gridSize cur)%nat in
  colors ← generateDistinctColors size;
  let numbers := oneTo size in
  let target := fillGrid (gridSize cur) (targetCell (gridSize cur) colors) in
  setTargetGrid target;;
  shuffled ← array_sort randomCompare numbers;
  let newGrid := fillGrid (gridSize cur) (shuffledCell (gridSize cur) colors shuffled) in
  setGrid newGrid.

(** ** Session start ([getTimeLimit], [startGame]) *)

Definition timeLimits : gmap nat Z :=
  {[ 3%nat := 30; 4%nat := 60; 5%nat := 90; 6%nat := 120 ]}.

Definition getTimeLimit (size : nat) : option Z := timeLimits !! size.

(** White space and line terminators of ECMAScript, as [trim] strips them. *)
Definition isWhiteSpace (c : CodeUnit) : bool :=
  bool_decide (c ∈ [0x9; 0xA; 0xB; 0xC; 0xD; 0x20; 0xA0; 0x1680; 0x2028; 0x2029;
                    0x202F; 0x205F; 0x3000; 0xFEFF]%N)
  || bool_decide (0x2000 ≤ c ≤ 0x200A)%N.

Fixpoint trimStart (s : JsString) : JsString :=
  match s with
  | [] => []
  | c :: s' => if isWhiteSpace c then trimStart s' else s
  end.

Definition trimEnd (s : JsString) : JsString := rev (trimStart (rev s)).

Definition trim (s : JsString) : JsString := trimEnd (trimStart s).

Definition savePlayerName (name : JsString) : M unit := emit (SavePlayerName name).

Definition startGame (cur : State) : M unit :=
  if decide (trim (playerName cur) = []) then
    emit AlertNameRequired
  else
    savePlayerName (playerName cur);;
    setGameState Playing;;
    setMoves 0;;
    setTimeLeft (getTimeLimit (gridSize cur));;
    setSelectedTile None;;
    initializeGrid cur.

(** ** Win detection and the ledger ([checkWin], [handleWin]) *)

(** The cells in the order the nested loops of [checkWin] visit them. *)
Definition cells (n : nat) : list (nat * nat) :=
  i ← seq 0 n; j ← seq 0 n; [(i, j)].

(** [currentGrid[i][j]] as the operand of [.number]. *)
Definition tileAt (g : Grid) (i j : nat) : M Tile :=
  match g !! i with
  | None => throwTypeError
  | Some row =>
      match js_get row j with
      | None => throwTypeError
      | Some t => mret t
      end
  end.

Fixpoint checkCells (currentGrid : Grid) (todo : list (nat * nat))
  (expectedNumber : Z) : M bool :=
  match todo with
  | [] => mret true
  | (i, j) :: rest =>
      t ← tileAt currentGrid i j;
      if decide (number t = Some expectedNumber)
      then checkCells currentGrid rest (expectedNumber + 1)
      else mret false
  end.

Definition checkWin (cur : State) (currentGrid : Grid) : M bool :=
  checkCells currentGrid (cells (gridSize cur)) 1.

(** [playSound]: nothing when sound is off; otherwise the sound is replayed
    if its ref holds one.  ([soundEnabled] is the value of the render, the
    ref is read when the function runs.) *)
Definition playSound (cur : State) (s : Sound) : M unit :=
  if soundEnabled cur then
    loaded ← getSoundRef s;
    if (loaded : bool) then emit (PlaySound s) else mret tt
  else mret tt.

Definition clearTimeout : M unit := setPendingTimeout None.

Definition compareMoves (a b : SessionResult) : M Q :=
  mret (inject_Z (Score.moves a - Score.moves b)).

Definition scoreKeyOf (n : nat) : string := pretty n +:+ "x" +:+ pretty n.

Definition handleWin (cur : State) : M unit :=
  setGameState Won;;
  clearTimeout;;
  let scoreKey := scoreKeyOf (gridSize cur) in
  d ← toLocaleDateString;
  let newScore := {| Score.name := playerName cur; Score.moves := moves cur;
                     Score.timeRemaining := timeLeft cur; Score.date := d |} in
  let existing := default [] (highScores cur !! scoreKey) in
  sorted ← array_sort compareMoves (existing ++ [newScore]);
  let updatedScores := <[scoreKey := take 5 sorted]> (highScores cur) in
  setHighScores updatedScores;;
  emit (SaveHighScores updatedScores);;
  playSound cur VictorySound;;
  emit (AlertCongratulations (moves cur) (timeLeft cur)).

Definition handleGameOver (cur : State) : M unit :=
  setGameState GameOver;;
  clearTimeout;;
  playSound cur GameOverSound;;
  emit AlertTimesUp.

(** ** Move engine ([handleTilePress]) *)

(** [g[i][j]] as a value: a missing row throws, a missing cell is
    [undefined]. *)
Definition readCell (g : Grid) (i j : nat) : M (option Tile) :=
  match g !! i with
  | None => throwTypeError
  | Some row => mret (js_get row j)
  end.

(** [g[i][j] = v] *)
Definition writeCell (g : Grid) (i j : nat) (v : option Tile) : M Grid :=
  match g !! i with
  | None => throwTypeError
  | Some row => mret (<[i := js_set row j v]> g)
  end.

Definition isAdjacent (row col selRow selCol : nat) : bool :=
  (bool_decide (Z.abs (Z.of_nat row - Z.of_nat selRow) = 1) && bool_decide (col = selCol))
  || (bool_decide (Z.abs (Z.of_nat col - Z.of_nat selCol) = 1) && bool_decide (row = selRow)).

Definition handleTilePress (cur : State) (row col : nat) : M unit :=
  if decide (gameState cur ≠ Playing) then mret tt
  else
    match selectedTile cur with
    | None => setSelectedTile (Some (row, col))
    | Some (selRow, selCol) =>
        if decide (row = selRow ∧ col = selCol) then setSelectedTile None
        else if isAdjacent row col selRow selCol then
          (* [[...grid]]: the copy shares its rows with [grid]; nothing reads
             the old grid after the swap, so the grid is kept by value. *)
          let newGrid := grid cur in
          temp ← readCell newGrid row col;
          other ← readCell newGrid selRow selCol;
          newGrid ← writeCell newGrid row col other;
          newGrid ← writeCell newGrid selRow selCol temp;
          setGrid newGrid;;
          setMoves (moves cur + 1);;
          setSelectedTile None;;
          won ← checkWin cur newGrid;
          if (won : bool) then handleWin cur else mret tt
        else setSelectedTile (Some (row, col))
    end.

(** ** Session clock (the timer [useEffect]) *)

(** [timerRef.current = setTimeout(() => setTimeLeft(timeLeft - 1), 1000)]:
    the pending callback keeps the [timeLeft] of the render that set it. *)
Definition setTimeout (closedTimeLeft : Z) : M unit :=
  setPendingTimeout (Some closedTimeLeft).

(** The body of the effect, for the render showing [cur].  With [timeLeft]
    undefined both tests are false. *)
Definition timerEffect (cur : State) : M unit :=
  match timeLeft cur with
  | Some t =>
      if decide (gameState cur = Playing ∧ t > 0) then setTimeout t
      else if decide (t = 0 ∧ gameState cur = Playing) then handleGameOver cur
      else mret tt
  | None => mret tt
  end.

(** The dependency array [[timeLeft, gameState]]. *)
Definition depsChanged (prev cur : State) : Prop :=
  timeLeft prev ≠ timeLeft cur ∨ gameState prev ≠ gameState cur.

Global Instance depsChanged_dec prev cur : Decision (depsChanged prev cur).
Proof. unfold depsChanged. apply _. Defined.

(** After an update the component renders again; when a dependency changed,
    the cleanup of the previous effect runs, then the effect.  An effect that
    sets state causes one more render. *)
Fixpoint rerender (rounds : nat) (prev : State) : M unit :=
  match rounds with
  | O => mret tt
  | S rounds' =>
      cur ← getUi;
      if decide (depsChanged prev cur) then
        clearTimeout;; timerEffect cur;; rerender rounds' cur
      else mret tt
  end.

(** The callback of the pending timeout fires. *)
Definition timeoutFires : M unit :=
  pending ← getPendingTimeout;
  match pending with
  | Some t => setPendingTimeout None;; setTimeLeft (Some (t - 1))
  | None => mret tt
  end.

(** ** The component as a machine *)

Inductive Event :=
  | SplashDone
  | TypeName (name : JsString)
  | ChooseGridSize (n : nat)
  | StartGame
  | PressTile (row col : nat)
  | Tick
  | GiveUp
  | Acknowledge
  | SoundsLoaded.

(** The [onPress] of the "Give Up" button. *)
Definition giveUp (cur : State) : M unit :=
  clearTimeout;;
  playSound cur GameOverSound;;
  setGameState Menu.

Definition handler (ev : Event) (cur : State) : M unit :=
  match ev with
  | SplashDone => setGameState Menu
  | TypeName name => setPlayerName name
  | ChooseGridSize n => setGridSize n
  | StartGame => startGame cur
  | PressTile row col => handleTilePress cur row col
  | Tick => timeoutFires
  | GiveUp => giveUp cur
  | Acknowledge => setGameState Menu
  | SoundsLoaded => setSoundRefs
  end.

(** One event: its handler runs against the current render, then the
    component renders again.  Two rounds of effects are enough
    ([rerender_settled] below). *)
Definition dispatch (ev : Event) : M unit := λ g,
  (handler ev (ui g);; rerender 2 (ui g)) g.

Fixpoint run (evs : list Event) : M unit :=
  match evs with
  | [] => mret tt
  | ev :: evs' => dispatch ev;; run evs'
  end.

(** The state of the first render ([useState] initial values). *)
Definition initialState : State :=
  {| gameState := Splash; gridSize := 3; grid := []; targetGrid := [];
     selectedTile := None; moves := 0; timeLeft := Some 30; playerName := [];
     highScores := ∅; soundEnabled := false |}.

Definition initialGame (random : nat → Q) (date : JsString) : Game :=
  {| ui := initialState; pendingTimeout := None; out := [];
     rng := random; today := date;
     gameOverSound := false; victorySound := false |}.

(** ASCII text as code units. *)
Definition codeUnits (s : string) : JsString :=
  map Ascii.N_of_ascii (String.list_ascii_of_string s).

(** ** Definitions used to state the properties *)

(** Two games that differ at most in the random numbers still to come. *)
Definition sameButRng (g g' : Game) : Prop :=
  ui g' = ui g ∧ pendingTimeout g' = pendingTimeout g ∧
  out g' = out g ∧ today g' = today g ∧
  gameOverSound g' = gameOverSound g ∧ victorySound g' = victorySound g.

(** A comparator that always returns and touches nothing but the generator. *)
Definition quiet {A} (compare : A → A → M Q) : Prop :=
  ∀ a b g, ∃ c g', compare a b g = Normal c g' ∧ sameButRng g g'.

(** [array_sort] with a comparator [(a, b) => key(a) - key(b)], as a
    function of the list alone. *)
Fixpoint insertByKey {A} (key : A → Z) (x : A) (l : list A) : list A :=
  match l with
  | [] => [x]
  | y :: l' => if decide (key x - key y ≤ 0) then x :: y :: l'
               else y :: insertByKey key x l'
  end.

Fixpoint sortByKey {A} (key : A → Z) (l : list A) : list A :=
  match l with
  | [] => []
  | x :: l' => insertByKey key x (sortByKey key l')
  end.

Definition compareKeys {A} (key : A → Z) (a b : A) : M Q :=
  mret (inject_Z (key a - key b)).

Definition keyLe {A} (key : A → Z) (a b : A) : Prop := key a ≤ key b.

(** [g[i][j]] and [g[i][j] = v] as functions of the grid (a missing row
    reads as nothing and is not written). *)
Definition getCell (g : Grid) (i j : nat) : option Tile :=
  row ← g !! i; js_get row j.

Definition numberAt (g : Grid) (i j : nat) : option Z :=
  t ← getCell g i j; number t.

Definition putCell (g : Grid) (i j : nat) (v : option Tile) : Grid :=
  match g !! i with
  | Some row => <[i := js_set row j v]> g
  | None => g
  end.

(** The three assignments of the swap in [handleTilePress]. *)
Definition swapCells (g : Grid) (a b : nat * nat) : Grid :=
  putCell (putCell g a.1 a.2 (getCell g b.1 b.2)) b.1 b.2 (getCell g a.1 a.2).

(** A grid of [n] rows of [n] tiles. *)
Definition gridOfSize (n : nat) (g : Grid) : Prop :=
  length g = n ∧ Forall (λ row : Row, length row = n ∧ Forall is_Some row) g.

(** The cell the row-major scan of an [n × n] grid visits in [N]th place
    ([N] counted from 1). *)
Definition nthVisited (n : nat) (N : Z) : nat * nat :=
  let k := Z.to_nat (N - 1) in ((k / n)%nat, (k mod n)%nat).

(** Row-major ascending: the [N]th tile visited has number [N]. *)
Definition ascending (n : nat) (g : Grid) : Prop :=
  ∀ N : Z, 1 ≤ N ≤ Z.of_nat (n * n) →
    numberAt g (nthVisited n N).1 (nthVisited n N).2 = Some N.

(** The scan of [checkCells] on a grid whose visited cells all hold tiles. *)
Fixpoint scanCells (g : Grid) (todo : list (nat * nat)) (expectedNumber : Z) : bool :=
  match todo with
  | [] => true
  | (i, j) :: rest =>
      bool_decide (numberAt g i j = Some expectedNumber)
      && scanCells g rest (expectedNumber + 1)
  end.

Definition solved (n : nat) (g : Grid) : bool := scanCells g (cells n) 1.

(** Orthogonal neighbours: one coordinate equal, the other one apart. *)
Definition orthogonal (a b : nat * nat) : Prop :=
  (Z.abs (Z.of_nat a.1 - Z.of_nat b.1) = 1 ∧ a.2 = b.2)
  ∨ (Z.abs (Z.of_nat a.2 - Z.of_nat b.2) = 1 ∧ a.1 = b.1).

Definition inGrid (n : nat) (p : nat * nat) : Prop := (p.1 < n)%nat ∧ (p.2 < n)%nat.

(** The numbers of the tiles of a grid, row after row. *)
Definition gridNumbers (g : Grid) : list (option Z) :=
  map (λ c : option Tile, c ≫= number) (concat g).

(** The entry [handleWin] builds, and the ledger it stores. *)
Definition newScoreOf (cur : State) (d : JsString) : SessionResult :=
  {| Score.name := playerName cur; Score.moves := moves cur;
     Score.timeRemaining := timeLeft cur; Score.date := d |}.

Definition recordWin (cur : State) (d : JsString) : gmap string (list SessionResult) :=
  let scoreKey := scoreKeyOf (gridSize cur) in
  <[scoreKey := take 5 (sortByKey Score.moves
                  (default [] (highScores cur !! scoreKey) ++ [newScoreOf cur d]))]>
    (highScores cur).

Definition withSound (cur : State) (s : Sound) (g : Game) : Game :=
  if soundEnabled cur && soundRef s g then withSignal (PlaySound s) g else g.

(** The game [handleWin] leaves. *)
Definition wonGame (cur : State) (g : Game) : Game :=
  withSignal (AlertCongratulations (moves cur) (timeLeft cur))
    (withSound cur VictorySound
      (withSignal (SaveHighScores (recordWin cur (today g)))
        (overUi (withHighScores (recordWin cur (today g)))
          (withPendingTimeout None (overUi (withGameState Won) g))))).

(** The game after the swap of [handleTilePress], before the win check. *)
Definition swappedGame (cur : State) (a b : nat * nat) (g : Game) : Game :=
  overUi (withSelectedTile None)
    (overUi (withMoves (moves cur + 1))
      (overUi (withGrid (swapCells (grid cur) a b)) g)).

(** The grid holds exactly one tile per number of [1..n²]. *)
Definition eachNumberOnce (n : nat) (g : Grid) : Prop :=
  gridNumbers g ≡ₚ map Some (oneTo (n * n)).

(** The game [handleGameOver] leaves. *)
Definition gameOverGame (cur : State) (g : Game) : Game :=
  withSignal AlertTimesUp
    (withSound cur GameOverSound
      (withPendingTimeout None (overUi (withGameState GameOver) g))).

(** The condition under which a press swaps: the phase is [Playing] and the
    pressed cell is an orthogonal neighbour of the selection. *)
Definition swapsWith (cur : State) (row col : nat) (sel : nat * nat) : Prop :=
  gameState cur = Playing ∧ selectedTile cur = Some sel ∧ orthogonal (row, col) sel.

Global Instance orthogonal_dec (a b : nat * nat) : Decision (orthogonal a b).
Proof. unfold orthogonal. apply _. Defined.

(** The board as the handlers expect it: [n × n] tiles, one per number, and
    a selection (if any) inside the grid. *)
Definition validBoard (s : State) : Prop :=
  gridOfSize (gridSize s) (grid s)
  ∧ eachNumberOnce (gridSize s) (grid s)
  ∧ ∀ sel, selectedTile s = Some sel → inGrid (gridSize s) sel.

Definition isTimesUp (s : Signal) : bool :=
  match s with AlertTimesUp => true | _ => false end.

(** How many times [handleGameOver] has announced the end. *)
Definition gameOvers (signals : list Signal) : nat :=
  length (List.filter isTimesUp signals).

Arguments wonGame : simpl never.
Arguments gameOverGame : simpl never.
Arguments withSound : simpl never.

(** Every outcome of [Math.random] lies in [[0, 1)]. *)
Definition randomInUnit (g : Game) : Prop :=
  ∀ k : nat, (0 <= rng g k)%Q ∧ (rng g k < 1)%Q.

(** [h] is, modulo 360, between [nominal + lo] and [nominal + hi]. *)
Definition hueWithin (lo hi nominal h : Q) : Prop :=
  ∃ k : Z, (nominal + lo <= h + 360 * inject_Z k)%Q
           ∧ (h + 360 * inject_Z k <= nominal + hi)%Q.

(** The [i]-th colour pushed by the loop: hue at an offset in [[lo, hi]] from
    [i * hueStep], saturation in [[70, 100]], lightness in [[45, 65]]. *)
Definition colorOk (lo hi hueStep : Q) (i : nat) (c : Color) : Prop :=
  hueWithin lo hi (inject_Z (Z.of_nat i) * hueStep)%Q (hue c)
  ∧ ((70 <= saturation c)%Q ∧ (saturation c <= 100)%Q)
  ∧ ((45 <= lightness c)%Q ∧ (lightness c <= 65)%Q).

(** What the roundings of the hue computation can add up to, with room to
    spare: a millionth of a millionth of a degree. *)
Definition hueTolerance : Q := 1 # 1000000000000.


(** The state [startGame] queues once the name is accepted, for the colours
    and the shuffled numbers the grid factory drew. *)
Definition startedState (s : State) (colors : list Color) (shuffled : list Z) : State :=
  withGrid (fillGrid (gridSize s) (shuffledCell (gridSize s) colors shuffled))
    (withTargetGrid (fillGrid (gridSize s) (targetCell (gridSize s) colors))
      (withSelectedTile None
        (withTimeLeft (getTimeLimit (gridSize s))
          (withMoves 0 (withGameState Playing s))))).

(** A session won with the move counter of the render at [m]. *)
Definition winWith (m : Z) : M unit :=
  cur ← getUi; handleWin (withMoves m cur).

Fixpoint winsWith (ms : list Z) : M unit :=
  match ms with
  | [] => mret tt
  | m :: ms' => winWith m;; winsWith ms'
  end.

(** The move counts stored in the ledger under a key. *)
Definition storedMoves (g : Game) (key : string) : option (list Z) :=
  map Score.moves <$> highScores (ui g) !! key.

(** ** Concrete games *)

(** The outcomes of [Math.random] under which the 3 × 3 shuffle leaves only
    the last two numbers exchanged: the 36th draw (the first comparison of
    the shuffle) is above one half, every other draw below. *)
Definition e2eRandom (k : nat) : Q :=
  if decide (k = 35%nat) then (3 # 4)%Q else (1 # 4)%Q.

Definition e2eGame : Game := initialGame e2eRandom (codeUnits "11/2/2026").

Definition exampleColors : list Color :=
  map (λ i, HSL (inject_Z (Z.of_nat i) * 40) 80 50) (seq 0 9).

(** A 3 × 3 grid in which only the last two tiles are out of order. *)
Definition nearSolved3 : Grid :=
  fillGrid 3 (shuffledCell 3 exampleColors [1; 2; 3; 4; 5; 6; 7; 9; 8]).

(** A session on that grid, one second after its start. *)
Definition nearSolvedState : State :=
  {| gameState := Playing; gridSize := 3; grid := nearSolved3;
     targetGrid := fillGrid 3 (targetCell 3 exampleColors);
     selectedTile := None; moves := 0; timeLeft := Some 29;
     playerName := codeUnits "Ava"; highScores := ∅; soundEnabled := false |}.

Definition nearSolvedGame : Game :=
  {| ui := nearSolvedState; pendingTimeout := Some 29; out := [];
     rng := λ _, (3 # 4)%Q; today := codeUnits "11/2/2026";
     gameOverSound := true; victorySound := true |}.

(** The same session with the tile at row 2, column 1 selected. *)
Definition nearSolvedSelected : Game :=
  overUi (withSelectedTile (Some (2%nat, 1%nat))) nearSolvedGame.

(** ** The component over a whole session *)

(** [renderGame] is what is shown in every phase but [Splash] and [Menu]. *)
Definition onGameScreen (s : State) : Prop :=
  gameState s ≠ Splash ∧ gameState s ≠ Menu.

(** The events the rendered screen can produce: the splash timer on the
    splash screen; the name field, the four size buttons and "Start Game" on
    the menu; the rendered tiles and "Give Up" on the game screen; the OK
    button of the alerts of [handleWin] and [handleGameOver]; a second
    passing, at any time; [loadSounds] assigning its two sounds, once, at
    any time.  (While an alert is up the game screen behind it is taken to
    stay pressable: the model offers more than a device does.) *)
Definition offered (g : Game) (ev : Event) : Prop :=
  match ev with
  | SplashDone => gameState (ui g) = Splash
  | TypeName _ => gameState (ui g) = Menu
  | ChooseGridSize n => gameState (ui g) = Menu ∧ n ∈ [3; 4; 5; 6]%nat
  | StartGame => gameState (ui g) = Menu
  | PressTile row col =>
      onGameScreen (ui g) ∧ is_Some (getCell (grid (ui g)) row col)
  | Tick => True
  | GiveUp => onGameScreen (ui g)
  | Acknowledge => gameState (ui g) = Won ∨ gameState (ui g) = GameOver
  | SoundsLoaded => gameOverSound g = false ∧ victorySound g = false
  end.

(** The component when the splash screen is up: the [useState] initial
    values, with the scores, the name and the sound setting that
    [loadInitialData] read from storage. *)
Definition bootState (scores : gmap string (list SessionResult))
  (name : JsString) (sound : bool) : State :=
  {| gameState := Splash; gridSize := 3; grid := []; targetGrid := [];
     selectedTile := None; moves := 0; timeLeft := Some 30; playerName := name;
     highScores := scores; soundEnabled := sound |}.

Definition bootGame (scores : gmap string (list SessionResult))
  (name : JsString) (sound : bool) (random : nat → Q) (date : JsString) : Game :=
  {| ui := bootState scores name sound; pendingTimeout := None; out := [];
     rng := random; today := date;
     gameOverSound := false; victorySound := false |}.

(** [steps g0 g]: [g] is reached from [g0] by offered events. *)
Inductive steps (g0 : Game) : Game → Prop :=
  | steps_here : steps g0 g0
  | steps_next (g : Game) (ev : Event) (g' : Game) :
      steps g0 g → offered g ev → dispatch ev g = Normal tt g' → steps g0 g'.

(** The game a list of events leads to. *)
Definition gameAfter (evs : list Event) (g : Game) : Game :=
  match run evs g with
  | Normal _ g' => g'
  | TypeError g' => g'
  end.

(** The clock and its timeout agree with the phase: while [Playing] the
    clock is between 1 and the limit of the size and its timeout is pending;
    otherwise no timeout is pending and the clock shows a number of 0..120. *)
Definition clockOk (g : Game) : Prop :=
  (gameState (ui g) = Playing →
     ∃ t limit, timeLeft (ui g) = Some t
                ∧ getTimeLimit (gridSize (ui g)) = Some limit
                ∧ 0 < t ≤ limit ∧ pendingTimeout g = Some t)
  ∧ (gameState (ui g) ≠ Playing →
       pendingTimeout g = None ∧ ∃ t, timeLeft (ui g) = Some t ∧ 0 ≤ t ≤ 120).

(** What holds of the component between two events. *)
Definition engineOk (g : Game) : Prop :=
  gridSize (ui g) ∈ [3; 4; 5; 6]%nat
  ∧ (onGameScreen (ui g) → validBoard (ui g))
  ∧ clockOk g
  ∧ 0 ≤ moves (ui g).

(** What an offered event does to a game that is [engineOk]. *)
Inductive Outcome (g : Game) : Event → Game → Prop :=
  | splash_ends :
      Outcome g SplashDone (overUi (withGameState Menu) g)
  | name_typed (name : JsString) :
      Outcome g (TypeName name) (overUi (withPlayerName name) g)
  | size_chosen (n : nat) :
      Outcome g (ChooseGridSize n) (overUi (withGridSize n) g)
  | start_rejected :
      trim (playerName (ui g)) = [] →
      Outcome g StartGame (withSignal AlertNameRequired g)
  | start_accepted (colors : list Color) (shuffled : list Z) (t : Z) (g' : Game) :
      trim (playerName (ui g)) ≠ [] →
      length colors = (gridSize (ui g) * gridSize (ui g))%nat →
      shuffled ≡ₚ oneTo (gridSize (ui g) * gridSize (ui g)) →
      getTimeLimit (gridSize (ui g)) = Some t →
      ui g' = startedState (ui g) colors shuffled →
      pendingTimeout g' = Some t →
      out g' = out g ++ [SavePlayerName (playerName (ui g))] →
      Outcome g StartGame g'
  | press_ignored (row col : nat) :
      gameState (ui g) ≠ Playing →
      Outcome g (PressTile row col) g
  | press_selects (row col : nat) (x : option (nat * nat)) :
      gameState (ui g) = Playing →
      x = None ∨ x = Some (row, col) →
      Outcome g (PressTile row col) (overUi (withSelectedTile x) g)
  | press_swaps (row col : nat) (sel : nat * nat) :
      swapsWith (ui g) row col sel →
      inGrid (gridSize (ui g)) (row, col) → inGrid (gridSize (ui g)) sel →
      solved (gridSize (ui g)) (swapCells (grid (ui g)) (row, col) sel) = false →
      Outcome g (PressTile row col) (swappedGame (ui g) (row, col) sel g)
  | press_wins (row col : nat) (sel : nat * nat) :
      swapsWith (ui g) row col sel →
      inGrid (gridSize (ui g)) (row, col) → inGrid (gridSize (ui g)) sel →
      solved (gridSize (ui g)) (swapCells (grid (ui g)) (row, col) sel) = true →
      Outcome g (PressTile row col)
        (wonGame (ui g) (swappedGame (ui g) (row, col) sel g))
  | tick_without_timeout :
      pendingTimeout g = None →
      Outcome g Tick g
  | tick_counts (t : Z) (g' : Game) :
      gameState (ui g) = Playing → timeLeft (ui g) = Some t → 1 < t →
      ui g' = withTimeLeft (Some (t - 1)) (ui g) →
      pendingTimeout g' = Some (t - 1) → out g' = out g →
      Outcome g Tick g'
  | tick_times_out (g' : Game) :
      gameState (ui g) = Playing → timeLeft (ui g) = Some 1 →
      ui g' = withGameState GameOver (withTimeLeft (Some 0) (ui g)) →
      pendingTimeout g' = None →
      gameOvers (out g') = S (gameOvers (out g)) →
      Outcome g Tick g'
  | gave_up :
      Outcome g GiveUp
        (overUi (withGameState Menu)
           (withSound (ui g) GameOverSound (withPendingTimeout None g)))
  | acknowledged :
      Outcome g Acknowledge (overUi (withGameState Menu) g)
  | sounds_loaded :
      Outcome g SoundsLoaded (withSounds g).

(** Every list of the ledger is sorted by ascending moves and has at most 5
    entries. *)
Definition ledgerOk (scores : gmap string (list SessionResult)) : Prop :=
  ∀ key l, scores !! key = Some l →
    StronglySorted (keyLe Score.moves) l ∧ (length l ≤ 5)%nat.

(** The phase changes the component makes. *)
Definition phaseChange (p p' : GamePhase) : Prop :=
  p' = p
  ∨ match p, p' with
    | Splash, Menu | Menu, Playing
    | Playing, Won | Playing, GameOver | Playing, Menu
    | Won, Menu | GameOver, Menu => True
    | _, _ => False
    end.

(** Each event of the list is offered by the game it arrives at. *)
Fixpoint offeredAlong (evs : list Event) (g : Game) : Prop :=
  match evs with
  | [] => True
  | ev :: evs' => offered g ev ∧ offeredAlong evs' (gameAfter [ev] g)
  end.

(** The end-to-end session once started, and one second later with the tile
    at row 2, column 1 selected. *)
Definition e2eStarted : Game :=
  gameAfter [SplashDone; TypeName (codeUnits "Ava"); StartGame] e2eGame.

Definition e2eSelected : Game := gameAfter [Tick; PressTile 2 1] e2eStarted.

(** The end-to-end session after the winning press. *)
Definition e2eWon : Game := gameAfter [PressTile 2 2] e2eSelected.

(** Start-up of the end-to-end session: nothing in storage. *)
Definition e2eBoot : Game :=
  bootGame ∅ [] false e2eRandom (codeUnits "11/2/2026").

(** The same session with sound switched on in storage, the sounds loaded
    while the splash screen is up. *)
Definition loudBoot : Game :=
  bootGame ∅ [] true e2eRandom (codeUnits "11/2/2026").

Definition loudSelected : Game :=
  gameAfter [SoundsLoaded; SplashDone; TypeName (codeUnits "Ava"); StartGame;
             Tick; PressTile 2 1] loudBoot.

Definition loudWon : Game := gameAfter [PressTile 2 2] loudSelected.

(** A colour CSS accepts as written: hue in [[0, 360)], saturation and
    lightness percentages in the generator's ranges. *)
Definition validHsl (c : Color) : Prop :=
  ((0 <= hue c)%Q ∧ (hue c < 360)%Q)
  ∧ ((70 <= saturation c)%Q ∧ (saturation c <= 100)%Q)
  ∧ ((45 <= lightness c)%Q ∧ (lightness c <= 65)%Q).

(** The tile of number [N] for the colours drawn: both grids are made of
    these. *)
Definition tileFor (colors : list Color) (N : Z) : Tile :=
  {| number := Some N; color := js_index colors (N - 1) |}.

(** A ledger whose 3x3 list is full, for a player about to finish a 3x3
    game in 12 moves. *)
Definition fullList : list SessionResult :=
  map (λ m, {| Score.name := codeUnits "Ava"; Score.moves := m;
               Score.timeRemaining := Some 20;
               Score.date := codeUnits "11/2/2026" |}) [1; 3; 5; 7; 9].

Definition fullLedgerState : State :=
  withMoves 12 (withHighScores {[ "3x3" := fullList ]} (ui nearSolvedSelected)).

(** The sounds among the signals, in the order they were asked for. *)
Definition soundsIn (signals : list Signal) : list Sound :=
  omap (λ s, match s with PlaySound x => Some x | _ => None end) signals.

(** The sound an event asks for when sound is on: the game-over sound for
    giving up and for running out of time, the cheer for a win. *)
Definition soundDue (ev : Event) (before after : GamePhase) : list Sound :=
  match ev, before, after with
  | GiveUp, _, _ => [GameOverSound]
  | _, Playing, Won => [VictorySound]
  | _, Playing, GameOver => [GameOverSound]
  | _, _, _ => []
  end.

Arguments soundsIn : simpl never.

(** The grids as the grid factory pairs them: the target grid is the
    ascending one for some colours, and every tile of the grid is the tile
    of its number for the same colours. *)
Definition tilesOk (s : State) : Prop :=
  ∃ colors,
    targetGrid s = fillGrid (gridSize s) (targetCell (gridSize s) colors)
    ∧ ∀ i j t, getCell (grid s) i j = Some t → ∃ N, t = tileFor colors N.

(** What the game screen shows: paired grids, and a solved grid once the
    phase is [Won]. *)
Definition screenOk (s : State) : Prop :=
  onGameScreen s →
  tilesOk s ∧ (gameState s = Won → solved (gridSize s) (grid s) = true).

(** * Properties *)

(** ** Running computations *)

Lemma bind_run {A B} (m : M A) (f : A → M B) (g : Game) :
  (m ≫= f) g =
  match m g with
  | Normal a g' => f a g'
  | TypeError g' => TypeError g'
  end.
Proof. reflexivity. Qed.

(** One step of a computation applied to a game. *)
Ltac mstep := rewrite bind_run; simpl.

Lemma bind_Normal {A B} (m : M A) (f : A → M B) (g g' : Game) (a : A) :
  m g = Normal a g' → (m ≫= f) g = f a g'.
Proof. intros E. rewrite bind_run, E. reflexivity. Qed.

Lemma sameButRng_refl g : sameButRng g g.
Proof. repeat split. Qed.

Lemma sameButRng_trans g1 g2 g3 :
  sameButRng g1 g2 → sameButRng g2 g3 → sameButRng g1 g3.
Proof.
  intros (? & ? & ? & ? & ? & ?) (? & ? & ? & ? & ? & ?). repeat split; congruence.
Qed.

Lemma randomCompare_quiet {A} : quiet (@randomCompare A).
Proof.
  intros a b g. eexists _, _. split; [reflexivity|]. repeat split.
Qed.

Lemma compareMoves_quiet : quiet compareMoves.
Proof.
  intros a b g. eexists _, _. split; [reflexivity|]. apply sameButRng_refl.
Qed.

(** ** [Array.prototype.sort] *)

Section sort_any_comparator.
Context {A : Type} (compare : A → A → M Q).
Hypothesis compare_quiet : quiet compare.

Lemma array_insert_perm x l g :
  ∃ l' g', array_insert compare x l g = Normal l' g'
           ∧ x :: l ≡ₚ l' ∧ sameButRng g g'.
Proof.
  revert g. induction l as [|y l IH]; intros g; simpl.
  - eexists _, _. split; [reflexivity|]. split; [done|apply sameButRng_refl].
  - destruct (compare_quiet x y g) as (c & g1 & Ec & S1).
    rewrite (bind_Normal _ _ _ _ _ Ec).
    destruct (Qle_bool c 0).
    + eexists _, _. split; [reflexivity|]. split; [done|exact S1].
    + destruct (IH g1) as (l' & g2 & El & P & S2).
      rewrite (bind_Normal _ _ _ _ _ El).
      eexists _, _. split; [reflexivity|]. split.
      * rewrite <- P. apply perm_swap.
      * eapply sameButRng_trans; eassumption.
Qed.

Lemma array_sort_perm l g :
  ∃ l' g', array_sort compare l g = Normal l' g'
           ∧ l ≡ₚ l' ∧ sameButRng g g'.
Proof.
  revert g. induction l as [|x l IH]; intros g; simpl.
  - eexists _, _. split; [reflexivity|]. split; [done|apply sameButRng_refl].
  - destruct (IH g) as (s & g1 & Es & P & S1).
    rewrite (bind_Normal _ _ _ _ _ Es).
    destruct (array_insert_perm x s g1) as (l' & g2 & El & P' & S2).
    eexists _, _. split; [exact El|]. split.
    + rewrite <- P'. by constructor.
    + eapply sameButRng_trans; eassumption.
Qed.
End sort_any_comparator.

(** With a comparator that is a function of its arguments the sort is the
    insertion sort on a key. *)
Section sort_by_key.
Context {A : Type} (key : A → Z).

Lemma Qle_bool_inject_Z z : Qle_bool (inject_Z z) 0 = bool_decide (z ≤ 0).
Proof.
  unfold Qle_bool, inject_Z; simpl. rewrite Z.mul_1_r.
  case_bool_decide; lia.
Qed.

Lemma array_insert_by_key x l g :
  array_insert (compareKeys key) x l g = Normal (insertByKey key x l) g.
Proof.
  induction l as [|y l IH]; simpl; [reflexivity|].
  rewrite bind_run. unfold compareKeys at 1. simpl.
  rewrite Qle_bool_inject_Z.
  destruct (decide (key x - key y ≤ 0)) as [H|H].
  - rewrite bool_decide_true by done. reflexivity.
  - rewrite bool_decide_false by done. rewrite bind_run, IH. reflexivity.
Qed.

Lemma array_sort_by_key l g :
  array_sort (compareKeys key) l g = Normal (sortByKey key l) g.
Proof.
  induction l as [|x l IH]; simpl; [reflexivity|].
  rewrite bind_run, IH. apply array_insert_by_key.
Qed.

Lemma insertByKey_perm x l : insertByKey key x l ≡ₚ x :: l.
Proof.
  induction l as [|y l IH]; simpl; [done|].
  destruct (decide _); [done|]. rewrite IH. apply perm_swap.
Qed.

Lemma sortByKey_perm l : sortByKey key l ≡ₚ l.
Proof.
  induction l as [|x l IH]; simpl; [done|].
  rewrite insertByKey_perm. by constructor.
Qed.

Lemma insertByKey_sorted x l :
  StronglySorted (keyLe key) l → StronglySorted (keyLe key) (insertByKey key x l).
Proof.
  induction 1 as [|y l Hs IH Hy]; simpl.
  - repeat constructor.
  - destruct (decide (key x - key y ≤ 0)) as [H|H].
    + constructor; [by constructor|].
      constructor; [unfold keyLe; lia|].
      eapply Forall_impl; [exact Hy|]. unfold keyLe. intros; simpl in *; lia.
    + constructor; [exact IH|].
      rewrite insertByKey_perm. constructor; [unfold keyLe; lia|exact Hy].
Qed.

Lemma sortByKey_sorted l : StronglySorted (keyLe key) (sortByKey key l).
Proof.
  induction l as [|x l IH]; simpl; [constructor|].
  by apply insertByKey_sorted.
Qed.

(** Stability: entries with equal keys keep their relative order. *)
Lemma insertByKey_stable m x l :
  filter (λ a, key a = m) (insertByKey key x l) = filter (λ a, key a = m) (x :: l).
Proof.
  induction l as [|y l IH]; simpl; [reflexivity|].
  destruct (decide (key x - key y ≤ 0)) as [H|H]; [reflexivity|].
  rewrite filter_cons, IH, !filter_cons.
  destruct (decide (key y = m)), (decide (key x = m)); try reflexivity; lia.
Qed.

Lemma sortByKey_stable m l :
  filter (λ a, key a = m) (sortByKey key l) = filter (λ a, key a = m) l.
Proof.
  induction l as [|x l IH]; simpl; [reflexivity|].
  rewrite insertByKey_stable, !filter_cons, IH. reflexivity.
Qed.
End sort_by_key.

(** ** The row-major scan *)

Lemma row_cells (i b n : nat) :
  (seq b n ≫= λ j, [(i, j)]) = map (pair i) (seq b n).
Proof.
  revert b. induction n as [|n IH]; intros b; simpl; [reflexivity|].
  f_equal; apply IH.
Qed.

Lemma cells_lookup_from (n m a k : nat) :
  (k < m * n)%nat →
  (seq a m ≫= λ i, seq 0 n ≫= λ j, [(i, j)]) !! k
  = Some ((a + k / n)%nat, (k mod n)%nat).
Proof.
  revert a k. induction m as [|m IH]; intros a k Hk; [lia|].
  assert (n ≠ 0)%nat as Hn by lia.
  change (seq a (S m)) with (a :: seq (S a) m).
  rewrite bind_cons, row_cells.
  destruct (decide (k < n)%nat) as [Hlt|Hge].
  - rewrite lookup_app_l by (rewrite length_map, length_seq; lia).
    rewrite list_lookup_fmap, lookup_seq_lt by lia. simpl.
    rewrite Nat.div_small, Nat.mod_small by lia. do 2 f_equal. lia.
  - rewrite lookup_app_r by (rewrite length_map, length_seq; lia).
    rewrite length_map, length_seq, IH by lia.
    replace k with (1 * n + (k - n))%nat at 3 4 by lia.
    rewrite Nat.div_add_l by done.
    rewrite (Nat.add_comm (1 * n)), Nat.Div0.mod_add. do 2 f_equal. lia.
Qed.

Lemma cells_lookup (n k : nat) :
  (k < n * n)%nat → cells n !! k = Some ((k / n)%nat, (k mod n)%nat).
Proof. intros Hk. unfold cells. by rewrite cells_lookup_from. Qed.

Lemma cells_length_from (n m a : nat) :
  length (seq a m ≫= λ i, seq 0 n ≫= λ j, [(i, j)]) = (m * n)%nat.
Proof.
  revert a. induction m as [|m IH]; intros a; [reflexivity|].
  change (seq a (S m)) with (a :: seq (S a) m).
  rewrite bind_cons, length_app, IH, row_cells, length_map, length_seq.
  reflexivity.
Qed.

Lemma cells_length (n : nat) : length (cells n) = (n * n)%nat.
Proof. apply cells_length_from. Qed.

Lemma cells_inGrid (n : nat) (p : nat * nat) : p ∈ cells n → inGrid n p.
Proof.
  intros [k Hk]%list_elem_of_lookup.
  pose proof (lookup_lt_Some _ _ _ Hk) as Hlt. rewrite cells_length in Hlt.
  rewrite cells_lookup in Hk by done. injection Hk as <-.
  assert (n ≠ 0)%nat by lia. split; simpl.
  - apply Nat.Div0.div_lt_upper_bound. lia.
  - by apply Nat.mod_upper_bound.
Qed.

Lemma flat_div (n i j : nat) :
  (j < n)%nat → ((i * n + j) / n = i)%nat ∧ ((i * n + j) mod n = j)%nat.
Proof.
  intros Hj. split.
  - rewrite Nat.div_add_l by lia. rewrite Nat.div_small by done. lia.
  - rewrite Nat.add_comm, Nat.Div0.mod_add. by apply Nat.mod_small.
Qed.

(** ** Win detection *)

Lemma tileAt_getCell (g : Grid) (i j : nat) (w : Game) :
  tileAt g i j w =
  match getCell g i j with
  | Some t => Normal t w
  | None => TypeError w
  end.
Proof.
  unfold tileAt, getCell. destruct (g !! i) as [row|]; simpl; [|reflexivity].
  destruct (js_get row j); reflexivity.
Qed.

Lemma checkCells_true (g : Grid) (todo : list (nat * nat)) (e : Z) (w : Game) :
  checkCells g todo e w = Normal true w ↔ scanCells g todo e = true.
Proof.
  revert e. induction todo as [|[i j] rest IH]; intros e; simpl; [done|].
  rewrite bind_run, tileAt_getCell. unfold numberAt.
  destruct (getCell g i j) as [t|]; simpl.
  - destruct (decide (number t = Some e)) as [H|H].
    + rewrite bool_decide_true by done. apply IH.
    + rewrite bool_decide_false by done. done.
  - done.
Qed.

Lemma checkCells_total (g : Grid) (todo : list (nat * nat)) (e : Z) (w : Game) :
  (∀ p, p ∈ todo → is_Some (getCell g p.1 p.2)) →
  checkCells g todo e w = Normal (scanCells g todo e) w.
Proof.
  revert e. induction todo as [|[i j] rest IH]; intros e Hall; simpl; [done|].
  rewrite bind_run, tileAt_getCell. unfold numberAt.
  destruct (Hall (i, j)) as [t Ht]; [left|]. simpl in Ht. rewrite Ht. simpl.
  destruct (decide (number t = Some e)) as [H|H].
  - rewrite bool_decide_true by done. apply IH.
    intros p Hp. apply Hall. by right.
  - rewrite bool_decide_false by done. done.
Qed.

Lemma scanCells_spec (g : Grid) (todo : list (nat * nat)) (e : Z) :
  scanCells g todo e = true ↔
  ∀ k p, todo !! k = Some p → numberAt g p.1 p.2 = Some (e + Z.of_nat k).
Proof.
  revert e. induction todo as [|[i j] rest IH]; intros e; simpl.
  - split; [intros _ k p Hk; by rewrite lookup_nil in Hk|done].
  - rewrite andb_true_iff, bool_decide_eq_true, IH. split.
    + intros [H0 Hrest] [|k] p Hk; simpl in Hk.
      * injection Hk as <-. simpl. rewrite H0. f_equal. lia.
      * rewrite (Hrest k p Hk). f_equal. lia.
    + intros H. split.
      * specialize (H 0%nat (i, j) eq_refl). simpl in H. rewrite H. f_equal. lia.
      * intros k p Hk. rewrite (H (S k) p Hk). f_equal. lia.
Qed.

Lemma solved_ascending (n : nat) (g : Grid) : solved n g = true ↔ ascending n g.
Proof.
  unfold solved, ascending. rewrite scanCells_spec. split.
  - intros H N HN. unfold nthVisited.
    assert (Z.to_nat (N - 1) < n * n)%nat as Hk by lia.
    rewrite (H _ _ (cells_lookup n _ Hk)). f_equal. lia.
  - intros H k p Hk.
    pose proof (lookup_lt_Some _ _ _ Hk) as Hlt. rewrite cells_length in Hlt.
    rewrite cells_lookup in Hk by done. injection Hk as <-.
    specialize (H (1 + Z.of_nat k)). unfold nthVisited in H.
    replace (Z.to_nat (1 + Z.of_nat k - 1)) with k in H by lia.
    apply H. lia.
Qed.

Lemma gridOfSize_getCell (n : nat) (g : Grid) (i j : nat) :
  gridOfSize n g → (i < n)%nat → (j < n)%nat → is_Some (getCell g i j).
Proof.
  intros [Hlen Hrows] Hi Hj. unfold getCell.
  destruct (lookup_lt_is_Some_2 g i) as [row Hrow]; [lia|].
  rewrite Hrow. simpl.
  rewrite Forall_forall in Hrows.
  destruct (Hrows row) as [Hl Hsome]; [by eapply list_elem_of_lookup_2|].
  destruct (lookup_lt_is_Some_2 row j) as [c Hc]; [lia|].
  unfold js_get. rewrite Hc. simpl.
  rewrite Forall_forall in Hsome. apply Hsome. by eapply list_elem_of_lookup_2.
Qed.

Lemma checkWin_solved (cur : State) (g : Grid) (w : Game) :
  gridOfSize (gridSize cur) g →
  checkWin cur g w = Normal (solved (gridSize cur) g) w.
Proof.
  intros Hg. unfold checkWin, solved. apply checkCells_total.
  intros p [Hi Hj]%cells_inGrid. by eapply gridOfSize_getCell.
Qed.

(** ** Reading and writing cells *)

Lemma js_get_set {A} (row : list (option A)) (j j' : nat) (v : option A) :
  js_get (js_set row j v) j' = if decide (j = j') then v else js_get row j'.
Proof.
  unfold js_get, js_set. destruct (decide (j < length row)%nat) as [Hin|Hout].
  - destruct (decide (j = j')) as [<-|Hne].
    + by rewrite list_lookup_insert_eq.
    + by rewrite list_lookup_insert_ne.
  - destruct (decide (j' < length row)%nat) as [Hin'|Hout'].
    + rewrite lookup_app_l by done. destruct (decide (j = j')); [lia|done].
    + rewrite lookup_app_r by lia.
      rewrite (lookup_ge_None_2 row j') by lia.
      destruct (decide (j = j')) as [<-|Hne].
      * rewrite lookup_app_r by (rewrite length_replicate; lia).
        rewrite length_replicate, Nat.sub_diag. reflexivity.
      * destruct (decide (j' < j)%nat).
        -- rewrite lookup_app_l by (rewrite length_replicate; lia).
           rewrite lookup_replicate_2 by lia. reflexivity.
        -- rewrite lookup_ge_None_2; [reflexivity|].
           rewrite length_app, length_replicate. simpl. lia.
Qed.

Lemma js_set_in_range {A} (row : list (option A)) (j : nat) (v : option A) :
  (j < length row)%nat → js_set row j v = <[j := v]> row.
Proof. intros H. unfold js_set. by rewrite decide_True. Qed.

Lemma getCell_putCell (g : Grid) (i j i' j' : nat) (v : option Tile) :
  (i < length g)%nat →
  getCell (putCell g i j v) i' j'
  = if decide (i = i' ∧ j = j') then v else getCell g i' j'.
Proof.
  intros Hi. unfold getCell, putCell.
  destruct (lookup_lt_is_Some_2 g i Hi) as [row Hrow]. rewrite Hrow.
  destruct (decide (i = i')) as [<-|Hne].
  - rewrite list_lookup_insert_eq, Hrow by done. simpl. rewrite js_get_set.
    destruct (decide (j = j')), (decide (i = i ∧ j = j')); tauto || done.
  - rewrite list_lookup_insert_ne by done.
    destruct (decide (i = i' ∧ j = j')); [tauto|done].
Qed.

Lemma putCell_length (g : Grid) (i j : nat) (v : option Tile) :
  length (putCell g i j v) = length g.
Proof.
  unfold putCell. destruct (g !! i); [apply length_insert|reflexivity].
Qed.

Lemma gridOfSize_putCell (n : nat) (g : Grid) (i j : nat) (v : option Tile) :
  gridOfSize n g → (j < n)%nat → is_Some v → gridOfSize n (putCell g i j v).
Proof.
  intros [Hlen Hrows] Hj Hv. split; [by rewrite putCell_length|].
  unfold putCell. destruct (g !! i) as [row|] eqn:Hrow; [|done].
  rewrite Forall_forall in Hrows.
  destruct (Hrows row) as [Hl Hsome]; [by eapply list_elem_of_lookup_2|].
  apply Forall_insert; [by apply Forall_forall|].
  rewrite js_set_in_range by lia. split; [by rewrite length_insert|].
  by apply Forall_insert.
Qed.

Lemma getCell_swapCells (g : Grid) (a b p : nat * nat) :
  (a.1 < length g)%nat → (b.1 < length g)%nat →
  getCell (swapCells g a b) p.1 p.2
  = if decide (p = b) then getCell g a.1 a.2
    else if decide (p = a) then getCell g b.1 b.2
    else getCell g p.1 p.2.
Proof.
  intros Ha Hb. destruct a as [ai aj], b as [bi bj], p as [pi pj]. simpl in *.
  unfold swapCells. simpl.
  rewrite getCell_putCell by (by rewrite putCell_length).
  rewrite getCell_putCell by done.
  repeat case_decide; destruct_and?; simplify_eq; try done; naive_solver.
Qed.

Lemma gridOfSize_swapCells (n : nat) (g : Grid) (a b : nat * nat) :
  gridOfSize n g → inGrid n a → inGrid n b → gridOfSize n (swapCells g a b).
Proof.
  intros Hg [Ha1 Ha2] [Hb1 Hb2]. unfold swapCells.
  apply gridOfSize_putCell; [|done|by eapply gridOfSize_getCell].
  apply gridOfSize_putCell; [done|done|by eapply gridOfSize_getCell].
Qed.

Lemma getCell_fillGrid (n : nat) (cell : nat → nat → Tile) (i j : nat) :
  (i < n)%nat → (j < n)%nat → getCell (fillGrid n cell) i j = Some (cell i j).
Proof.
  intros Hi Hj. unfold getCell, fillGrid, js_get.
  rewrite list_lookup_fmap, lookup_seq_lt by done. simpl.
  rewrite list_lookup_fmap, lookup_seq_lt by done. reflexivity.
Qed.

Lemma gridOfSize_fillGrid (n : nat) (cell : nat → nat → Tile) :
  gridOfSize n (fillGrid n cell).
Proof.
  unfold fillGrid. split; [by rewrite length_map, length_seq|].
  apply Forall_fmap, Forall_forall. intros i _. simpl.
  split; [by rewrite length_map, length_seq|].
  apply Forall_fmap, Forall_forall. intros j _. simpl. by eexists.
Qed.

Lemma nthVisited_flat (n i j : nat) :
  (j < n)%nat → nthVisited n (Z.of_nat (i * n + j) + 1) = (i, j).
Proof.
  intros Hj. unfold nthVisited.
  replace (Z.to_nat (Z.of_nat (i * n + j) + 1 - 1)) with (i * n + j)%nat by lia.
  destruct (flat_div n i j Hj) as [-> ->]. reflexivity.
Qed.

Lemma ascending_at (n : nat) (g : Grid) (i j : nat) :
  ascending n g → (i < n)%nat → (j < n)%nat →
  numberAt g i j = Some (Z.of_nat (i * n + j) + 1).
Proof.
  intros Hasc Hi Hj.
  specialize (Hasc (Z.of_nat (i * n + j) + 1)).
  rewrite nthVisited_flat in Hasc by done. apply Hasc. nia.
Qed.

Lemma ascending_target (n : nat) (colors : list Color) :
  ascending n (fillGrid n (targetCell n colors)).
Proof.
  intros N HN. unfold nthVisited, numberAt. simpl.
  assert (n ≠ 0)%nat by lia.
  rewrite getCell_fillGrid.
  - simpl. f_equal.
    rewrite (Nat.mul_comm _ n), <- Nat.div_mod_eq. lia.
  - apply Nat.Div0.div_lt_upper_bound. lia.
  - by apply Nat.mod_upper_bound.
Qed.

(** [C2] For a grid of the current size the win check returns, and it
    returns [true] exactly when, scanning row-major, the [N]th tile visited
    has number [N] for every [N] from 1 to [size²].  In particular it is
    [true] on the target grid, and [false] on an ascending grid in which two
    different cells (adjacent or not) have exchanged their tiles. *)
Theorem checkWin_iff_ascending (cur : State) (g : Grid) (w : Game) :
  gridOfSize (gridSize cur) g →
  (∃ b : bool, checkWin cur g w = Normal b w)
  ∧ (checkWin cur g w = Normal true w ↔ ascending (gridSize cur) g)
  ∧ (∀ colors : list Color,
       checkWin cur (fillGrid (gridSize cur) (targetCell (gridSize cur) colors)) w
       = Normal true w)
  ∧ (∀ a b : nat * nat,
       ascending (gridSize cur) g →
       inGrid (gridSize cur) a → inGrid (gridSize cur) b → a ≠ b →
       checkWin cur (swapCells g a b) w = Normal false w).
Proof.
  intros Hg. set (n := gridSize cur) in *. repeat split.
  - eexists. by apply checkWin_solved.
  - rewrite checkWin_solved by done. intros [= H]. by apply solved_ascending.
  - intros H. rewrite checkWin_solved by done. f_equal. by apply solved_ascending.
  - intros colors. rewrite checkWin_solved by apply gridOfSize_fillGrid.
    f_equal. apply solved_ascending, ascending_target.
  - intros a b Hasc Ha Hb Hne.
    rewrite checkWin_solved by (by apply gridOfSize_swapCells).
    f_equal. apply not_true_is_false. intros Hs%solved_ascending.
    destruct Ha as [Ha1 Ha2], Hb as [Hb1 Hb2], Hg as [Hlen Hrows].
    pose proof (ascending_at _ _ _ _ Hs Ha1 Ha2) as Hnew.
    unfold numberAt in Hnew.
    rewrite (getCell_swapCells g a b a) in Hnew by lia.
    rewrite decide_False, decide_True in Hnew by done.
    pose proof (ascending_at _ _ _ _ Hasc Hb1 Hb2) as Hold.
    unfold numberAt in Hold. rewrite Hold in Hnew.
    destruct a as [ai aj], b as [bi bj]. simpl in *.
    destruct (flat_div n ai aj Ha2) as [Ea1 Ea2].
    destruct (flat_div n bi bj Hb2) as [Eb1 Eb2].
    assert (bi * n + bj = ai * n + aj)%nat as E.
    { injection Hnew. subst n. lia. }
    rewrite E in Eb1, Eb2. congruence.
Qed.

(** ** The handlers, step by step *)

Lemma playSound_run (cur : State) (s : Sound) (g : Game) :
  playSound cur s g = Normal tt (withSound cur s g).
Proof.
  unfold playSound, withSound. destruct (soundEnabled cur); [|done].
  rewrite bind_run. unfold getSoundRef. simpl. by destruct (soundRef s g).
Qed.

Lemma handleWin_run (cur : State) (g : Game) :
  handleWin cur g = Normal tt (wonGame cur g).
Proof.
  unfold handleWin. do 3 mstep.
  change compareMoves with (compareKeys Score.moves).
  rewrite bind_run, array_sort_by_key. do 2 mstep.
  rewrite bind_run, playSound_run. reflexivity.
Qed.

Lemma readCell_run (g : Grid) (i j : nat) (w : Game) :
  (i < length g)%nat → readCell g i j w = Normal (getCell g i j) w.
Proof.
  intros Hi. unfold readCell, getCell.
  destruct (lookup_lt_is_Some_2 g i Hi) as [row ->]. reflexivity.
Qed.

Lemma writeCell_run (g : Grid) (i j : nat) (v : option Tile) (w : Game) :
  (i < length g)%nat → writeCell g i j v w = Normal (putCell g i j v) w.
Proof.
  intros Hi. unfold writeCell, putCell.
  destruct (lookup_lt_is_Some_2 g i Hi) as [row ->]. reflexivity.
Qed.

Lemma isAdjacent_orthogonal (row col selRow selCol : nat) :
  isAdjacent row col selRow selCol = true ↔ orthogonal (row, col) (selRow, selCol).
Proof.
  unfold isAdjacent, orthogonal. simpl.
  rewrite orb_true_iff, !andb_true_iff, !bool_decide_eq_true. reflexivity.
Qed.

Lemma orthogonal_ne (a b : nat * nat) : orthogonal a b → a ≠ b.
Proof. intros [[H _]|[H _]] ->; lia. Qed.

Lemma orthogonal_sym (a b : nat * nat) : orthogonal a b → orthogonal b a.
Proof. unfold orthogonal. intros [[H ->]|[H ->]]; [left|right]; split; lia. Qed.

(** A press outside the [Playing] phase is ignored. *)
Lemma handleTilePress_ignored (cur : State) (row col : nat) (g : Game) :
  gameState cur ≠ Playing → handleTilePress cur row col g = Normal tt g.
Proof. intros H. unfold handleTilePress. by rewrite decide_True. Qed.

(** First selection. *)
Lemma handleTilePress_select (cur : State) (row col : nat) (g : Game) :
  gameState cur = Playing → selectedTile cur = None →
  handleTilePress cur row col g
  = Normal tt (overUi (withSelectedTile (Some (row, col))) g).
Proof.
  intros Hp Hs. unfold handleTilePress.
  rewrite decide_False, Hs by tauto. reflexivity.
Qed.

(** The selected tile is pressed again. *)
Lemma handleTilePress_deselect (cur : State) (row col : nat) (g : Game) :
  gameState cur = Playing → selectedTile cur = Some (row, col) →
  handleTilePress cur row col g = Normal tt (overUi (withSelectedTile None) g).
Proof.
  intros Hp Hs. unfold handleTilePress.
  rewrite decide_False, Hs, decide_True by tauto. reflexivity.
Qed.

(** Another tile, not a neighbour of the selection, is pressed. *)
Lemma handleTilePress_reselect (cur : State) (row col : nat) (sel : nat * nat)
  (g : Game) :
  gameState cur = Playing → selectedTile cur = Some sel →
  (row, col) ≠ sel → ¬ orthogonal (row, col) sel →
  handleTilePress cur row col g
  = Normal tt (overUi (withSelectedTile (Some (row, col))) g).
Proof.
  intros Hp Hs Hne Hno. destruct sel as [selRow selCol]. unfold handleTilePress.
  rewrite decide_False, Hs, decide_False by (tauto || (intros [-> ->]; by apply Hne)).
  destruct (isAdjacent row col selRow selCol) eqn:E; [|reflexivity].
  by apply isAdjacent_orthogonal in E.
Qed.

(** A neighbour of the selection is pressed. *)
Lemma handleTilePress_swap (cur : State) (row col : nat) (sel : nat * nat)
  (g : Game) :
  gameState cur = Playing → selectedTile cur = Some sel →
  orthogonal (row, col) sel →
  gridOfSize (gridSize cur) (grid cur) →
  inGrid (gridSize cur) (row, col) → inGrid (gridSize cur) sel →
  handleTilePress cur row col g
  = Normal tt
      (if solved (gridSize cur) (swapCells (grid cur) (row, col) sel)
       then wonGame cur (swappedGame cur (row, col) sel g)
       else swappedGame cur (row, col) sel g).
Proof.
  intros Hp Hs Hadj Hg [Hr Hc] [Hsr Hsc].
  pose proof (orthogonal_ne _ _ Hadj) as Hne.
  assert (gridOfSize (gridSize cur) (swapCells (grid cur) (row, col) sel)) as Hg'.
  { by apply gridOfSize_swapCells. }
  destruct sel as [selRow selCol]. simpl in *. unfold handleTilePress.
  rewrite decide_False, Hs, decide_False by (tauto || (intros [-> ->]; by apply Hne)).
  apply isAdjacent_orthogonal in Hadj. rewrite Hadj.
  destruct Hg as [Hlen Hrows].
  rewrite bind_run, readCell_run by lia.
  rewrite bind_run, readCell_run by lia.
  rewrite bind_run, writeCell_run by lia.
  rewrite bind_run, writeCell_run by (rewrite putCell_length; lia).
  do 4 mstep.
  rewrite checkWin_solved by exact Hg'.
  fold (swapCells (grid cur) (row, col) (selRow, selCol)).
  destruct (solved _ _); [apply handleWin_run|reflexivity].
Qed.

(** ** The grid as one row-major list *)

Lemma concat_lookup_flat {A} (n : nat) (g : list (list A)) (i j : nat) :
  Forall (λ row, length row = n) g → (j < n)%nat →
  concat g !! (i * n + j)%nat = g !! i ≫= (.!! j).
Proof.
  intros Hrows Hj. revert i. induction Hrows as [|row g Hrow _ IH]; intros i.
  - by rewrite !lookup_nil.
  - destruct i as [|i]; simpl.
    + by rewrite lookup_app_l by lia.
    + rewrite lookup_app_r by lia. rewrite <- IH. f_equal. lia.
Qed.

Lemma concat_insert_flat {A} (n : nat) (g : list (list A)) (i j : nat)
  (row : list A) (v : A) :
  Forall (λ row, length row = n) g → g !! i = Some row → (j < n)%nat →
  concat (<[i := <[j := v]> row]> g) = <[(i * n + j)%nat := v]> (concat g).
Proof.
  intros Hrows. revert i. induction Hrows as [|r g Hr _ IH]; intros i Hi Hj.
  - by rewrite lookup_nil in Hi.
  - destruct i as [|i]; simpl in *.
    + injection Hi as ->. by rewrite insert_app_l by lia.
    + rewrite insert_app_r_alt by lia. rewrite IH by done.
      do 2 f_equal. lia.
Qed.

Lemma gridOfSize_rows (n : nat) (g : Grid) :
  gridOfSize n g → Forall (λ row : Row, length row = n) g.
Proof. intros [_ H]. eapply Forall_impl; [exact H|]. by intros row [? _]. Qed.

Lemma gridNumbers_lookup (n : nat) (g : Grid) (i j : nat) :
  gridOfSize n g → (i < n)%nat → (j < n)%nat →
  gridNumbers g !! (i * n + j)%nat = Some (numberAt g i j).
Proof.
  intros Hg Hi Hj. unfold gridNumbers, numberAt, getCell, js_get.
  rewrite list_lookup_fmap, (concat_lookup_flat n) by (done || by apply gridOfSize_rows).
  destruct Hg as [Hlen Hrows].
  destruct (lookup_lt_is_Some_2 g i) as [row Hrow]; [lia|]. rewrite Hrow. simpl.
  rewrite Forall_forall in Hrows.
  destruct (Hrows row) as [Hl _]; [by eapply list_elem_of_lookup_2|].
  destruct (lookup_lt_is_Some_2 row j) as [c ->]; [lia|]. reflexivity.
Qed.

Lemma gridNumbers_putCell (n : nat) (g : Grid) (i j : nat) (v : option Tile) :
  gridOfSize n g → (i < n)%nat → (j < n)%nat →
  gridNumbers (putCell g i j v) = <[(i * n + j)%nat := v ≫= number]> (gridNumbers g).
Proof.
  intros Hg Hi Hj. pose proof (gridOfSize_rows _ _ Hg) as Hrows.
  destruct Hg as [Hlen Hall]. unfold gridNumbers, putCell.
  destruct (lookup_lt_is_Some_2 g i) as [row Hrow]; [lia|]. rewrite Hrow.
  rewrite Forall_forall in Hall.
  destruct (Hall row) as [Hl _]; [by eapply list_elem_of_lookup_2|].
  rewrite js_set_in_range by lia.
  rewrite (concat_insert_flat n) by done.
  by rewrite list_fmap_insert.
Qed.

Lemma insert_swap_perm {A} (l : list A) (a b : nat) (x y : A) :
  l !! a = Some x → l !! b = Some y → <[b := x]> (<[a := y]> l) ≡ₚ l.
Proof.
  intros Ha Hb. apply Permutation_inj. split; [by rewrite !length_insert|].
  pose proof (lookup_lt_Some _ _ _ Ha). pose proof (lookup_lt_Some _ _ _ Hb).
  exists (λ i, if decide (i = b) then a else if decide (i = a) then b else i).
  split.
  - intros i i' E. repeat case_decide; congruence.
  - intros i. rewrite !list_lookup_insert, !length_insert.
    repeat case_decide; destruct_and?; simplify_eq; try done; lia.
Qed.

Lemma gridNumbers_swapCells (n : nat) (g : Grid) (a b : nat * nat) :
  gridOfSize n g → inGrid n a → inGrid n b →
  gridNumbers (swapCells g a b) ≡ₚ gridNumbers g.
Proof.
  intros Hg [Ha1 Ha2] [Hb1 Hb2]. unfold swapCells.
  rewrite (gridNumbers_putCell n), (gridNumbers_putCell n); try done.
  - apply insert_swap_perm; by apply gridNumbers_lookup.
  - apply gridOfSize_putCell; [done|done|by eapply gridOfSize_getCell].
Qed.

Global Instance succ_of_nat_inj : Inj (=) (=) (λ i : nat, Z.of_nat i + 1).
Proof. intros i j H. lia. Qed.

Lemma oneTo_NoDup (size : nat) : NoDup (oneTo size).
Proof. unfold oneTo. apply (NoDup_fmap_2 _), NoDup_seq. Qed.

Lemma oneTo_elem (size : nat) (z : Z) : z ∈ oneTo size ↔ 1 ≤ z ≤ Z.of_nat size.
Proof.
  unfold oneTo. rewrite list_elem_of_fmap. split.
  - intros (i & -> & Hi%elem_of_seq). lia.
  - intros Hz. exists (Z.to_nat (z - 1)). split; [lia|]. apply elem_of_seq. lia.
Qed.

Lemma eachNumberOnce_distinct (n : nat) (g : Grid) (a b : nat * nat) :
  gridOfSize n g → eachNumberOnce n g → inGrid n a → inGrid n b → a ≠ b →
  numberAt g a.1 a.2 ≠ numberAt g b.1 b.2.
Proof.
  intros Hg Hperm [Ha1 Ha2] [Hb1 Hb2] Hne E.
  assert (NoDup (gridNumbers g)) as Hnd.
  { rewrite Hperm. apply (NoDup_fmap_2 _), oneTo_NoDup. }
  pose proof (gridNumbers_lookup n g _ _ Hg Ha1 Ha2) as La.
  pose proof (gridNumbers_lookup n g _ _ Hg Hb1 Hb2) as Lb.
  rewrite <- E in Lb.
  pose proof (NoDup_lookup _ _ _ _ Hnd La Lb) as Eflat.
  destruct (flat_div n a.1 a.2 Ha2) as [E1 E2].
  destruct (flat_div n b.1 b.2 Hb2) as [E3 E4].
  rewrite Eflat in E1, E2. apply Hne.
  destruct a, b; simpl in *; congruence.
Qed.

Lemma swapCells_changes (n : nat) (g : Grid) (a b : nat * nat) :
  gridOfSize n g → eachNumberOnce n g → inGrid n a → inGrid n b → a ≠ b →
  swapCells g a b ≠ g.
Proof.
  intros Hg Hperm Ha Hb Hne E.
  apply (eachNumberOnce_distinct n g a b); try done.
  unfold numberAt. rewrite <- E at 1.
  destruct Hg as [Hlen _], Ha as [Ha1 _], Hb as [Hb1 _].
  rewrite (getCell_swapCells g a b a) by lia.
  by rewrite decide_False, decide_True.
Qed.

(** ** Rendering after an event *)

Lemma handleGameOver_run (cur : State) (g : Game) :
  handleGameOver cur g = Normal tt (gameOverGame cur g).
Proof.
  unfold handleGameOver. do 2 mstep. rewrite bind_run, playSound_run. reflexivity.
Qed.

Lemma withPendingTimeout_id (g : Game) :
  pendingTimeout g = None → withPendingTimeout None g = g.
Proof. destruct g. simpl. by intros ->. Qed.

Lemma depsChanged_refl (s : State) : ¬ depsChanged s s.
Proof. intros [H|H]; by apply H. Qed.

Lemma rerender_unchanged (k : nat) (prev : State) (g : Game) :
  ¬ depsChanged prev (ui g) → rerender k prev g = Normal tt g.
Proof.
  intros H. destruct k; simpl; [reflexivity|]. mstep. by rewrite decide_False.
Qed.

Lemma timerEffect_idle (cur : State) (g : Game) :
  gameState cur ≠ Playing → timerEffect cur g = Normal tt g.
Proof.
  intros H. unfold timerEffect. destruct (timeLeft cur); [|reflexivity].
  by rewrite !decide_False by tauto.
Qed.

Lemma rerender_idle (k : nat) (prev : State) (g : Game) :
  gameState (ui g) ≠ Playing → pendingTimeout g = None →
  rerender k prev g = Normal tt g.
Proof.
  intros Hp Ht. destruct k; simpl; [reflexivity|]. mstep.
  destruct (decide (depsChanged prev (ui g))); [|reflexivity].
  mstep. rewrite bind_run, timerEffect_idle by done.
  rewrite rerender_unchanged by apply depsChanged_refl.
  by rewrite withPendingTimeout_id.
Qed.

Lemma dispatch_quiet (ev : Event) (g g' : Game) :
  handler ev (ui g) g = Normal tt g' → ¬ depsChanged (ui g) (ui g') →
  dispatch ev g = Normal tt g'.
Proof.
  intros Hh Hd. unfold dispatch. rewrite bind_run, Hh.
  by apply rerender_unchanged.
Qed.

Lemma dispatch_idle (ev : Event) (g g' : Game) :
  handler ev (ui g) g = Normal tt g' →
  gameState (ui g') ≠ Playing → pendingTimeout g' = None →
  dispatch ev g = Normal tt g'.
Proof.
  intros Hh Hp Ht. unfold dispatch. rewrite bind_run, Hh.
  by apply rerender_idle.
Qed.

(** The handler left [timeLeft] and [gameState] as they were. *)
Ltac same_deps := unfold depsChanged, swappedGame; simpl; tauto.

(** What a press does, as a whole event. *)
Lemma dispatch_press_ignored (g : Game) (row col : nat) :
  gameState (ui g) ≠ Playing → dispatch (PressTile row col) g = Normal tt g.
Proof.
  intros H. apply dispatch_quiet; [by apply handleTilePress_ignored|].
  same_deps.
Qed.

Lemma dispatch_press_select (g : Game) (row col : nat) :
  gameState (ui g) = Playing → selectedTile (ui g) = None →
  dispatch (PressTile row col) g
  = Normal tt (overUi (withSelectedTile (Some (row, col))) g).
Proof.
  intros Hp Hs. apply dispatch_quiet; [by apply handleTilePress_select|].
  same_deps.
Qed.

Lemma dispatch_press_deselect (g : Game) (row col : nat) :
  gameState (ui g) = Playing → selectedTile (ui g) = Some (row, col) →
  dispatch (PressTile row col) g = Normal tt (overUi (withSelectedTile None) g).
Proof.
  intros Hp Hs. apply dispatch_quiet; [by apply handleTilePress_deselect|].
  same_deps.
Qed.

Lemma dispatch_press_reselect (g : Game) (row col : nat) (sel : nat * nat) :
  gameState (ui g) = Playing → selectedTile (ui g) = Some sel →
  (row, col) ≠ sel → ¬ orthogonal (row, col) sel →
  dispatch (PressTile row col) g
  = Normal tt (overUi (withSelectedTile (Some (row, col))) g).
Proof.
  intros Hp Hs Hne Hno. apply dispatch_quiet; [by eapply handleTilePress_reselect|].
  same_deps.
Qed.

Lemma dispatch_press_swap (g : Game) (row col : nat) (sel : nat * nat) :
  swapsWith (ui g) row col sel →
  gridOfSize (gridSize (ui g)) (grid (ui g)) →
  inGrid (gridSize (ui g)) (row, col) → inGrid (gridSize (ui g)) sel →
  dispatch (PressTile row col) g
  = Normal tt
      (if solved (gridSize (ui g)) (swapCells (grid (ui g)) (row, col) sel)
       then wonGame (ui g) (swappedGame (ui g) (row, col) sel g)
       else swappedGame (ui g) (row, col) sel g).
Proof.
  intros (Hp & Hs & Hadj) Hg Hin Hsel.
  pose proof (handleTilePress_swap _ _ _ _ g Hp Hs Hadj Hg Hin Hsel) as Hh.
  destruct (solved _ _).
  - apply dispatch_idle; [exact Hh| |].
    + unfold wonGame, withSound. by destruct (soundEnabled (ui g) && _).
    + unfold wonGame, withSound. by destruct (soundEnabled (ui g) && _).
  - apply dispatch_quiet; [exact Hh|]. same_deps.
Qed.

Lemma wonGame_ui (cur : State) (g : Game) :
  ui (wonGame cur g)
  = withHighScores (recordWin cur (today g)) (withGameState Won (ui g)).
Proof. unfold wonGame, withSound. by destruct (soundEnabled cur && _). Qed.

Lemma grid_ext (n : nat) (g g' : Grid) :
  gridOfSize n g → gridOfSize n g' →
  (∀ i j, (i < n)%nat → (j < n)%nat → getCell g i j = getCell g' i j) →
  g = g'.
Proof.
  intros [Hlen Hrows] [Hlen' Hrows'] Hcells.
  rewrite Forall_forall in Hrows, Hrows'.
  apply list_eq. intros i. destruct (decide (i < n)%nat) as [Hi|Hi].
  - destruct (lookup_lt_is_Some_2 g i) as [row Hrow]; [lia|].
    destruct (lookup_lt_is_Some_2 g' i) as [row' Hrow']; [lia|].
    rewrite Hrow, Hrow'. f_equal.
    destruct (Hrows row) as [Hl _]; [by eapply list_elem_of_lookup_2|].
    destruct (Hrows' row') as [Hl' _]; [by eapply list_elem_of_lookup_2|].
    apply list_eq. intros j. destruct (decide (j < n)%nat) as [Hj|Hj].
    + specialize (Hcells i j Hi Hj). unfold getCell, js_get in Hcells.
      rewrite Hrow, Hrow' in Hcells. simpl in Hcells.
      destruct (lookup_lt_is_Some_2 row j) as [c Hc]; [lia|].
      destruct (lookup_lt_is_Some_2 row' j) as [c' Hc']; [lia|].
      rewrite Hc, Hc' in *. simpl in Hcells. by rewrite Hcells.
    + by rewrite !lookup_ge_None_2 by lia.
  - by rewrite !lookup_ge_None_2 by lia.
Qed.

Lemma swapCells_involutive (n : nat) (g : Grid) (a b : nat * nat) :
  gridOfSize n g → inGrid n a → inGrid n b →
  swapCells (swapCells g a b) a b = g.
Proof.
  intros Hg Ha Hb.
  assert (gridOfSize n (swapCells g a b)) as Hg1 by (by apply gridOfSize_swapCells).
  apply (grid_ext n); [by apply gridOfSize_swapCells|done|].
  intros i j Hi Hj.
  destruct Hg as [Hlen _], Hg1 as [Hlen1 _], Ha as [Ha1 _], Hb as [Hb1 _].
  rewrite (getCell_swapCells _ a b (i, j)) by lia.
  rewrite !(getCell_swapCells g a b) by lia.
  repeat case_decide; simplify_eq; done.
Qed.

Lemma validBoard_swapped (s : State) (a b : nat * nat) :
  validBoard s → inGrid (gridSize s) a → inGrid (gridSize s) b →
  validBoard (withSelectedTile None
               (withMoves (moves s + 1) (withGrid (swapCells (grid s) a b) s))).
Proof.
  intros (Hg & Hperm & _) Ha Hb. split; [|split]; simpl.
  - by apply gridOfSize_swapCells.
  - unfold eachNumberOnce. by rewrite (gridNumbers_swapCells (gridSize s)).
  - done.
Qed.

(** ** Claims about the move engine *)

(** [C3] A press changes the grid and adds exactly 1 to the move counter if
    and only if the phase is [Playing], a selection exists and the pressed
    cell is an orthogonal neighbour of it (hence another cell); the grid then
    is the old one with the two tiles exchanged.  In every other case (first
    selection, deselection, a cell that is no neighbour, a press outside
    [Playing]) grid and move counter are unchanged. *)
Theorem press_swaps_iff_adjacent (g : Game) (row col : nat) :
  validBoard (ui g) → inGrid (gridSize (ui g)) (row, col) →
  ∃ g', dispatch (PressTile row col) g = Normal tt g'
    ∧ ((grid (ui g') ≠ grid (ui g) ∧ moves (ui g') = moves (ui g) + 1)
       ↔ ∃ sel, swapsWith (ui g) row col sel)
    ∧ (∀ sel, swapsWith (ui g) row col sel →
         grid (ui g') = swapCells (grid (ui g)) (row, col) sel)
    ∧ ((¬ ∃ sel, swapsWith (ui g) row col sel) →
         grid (ui g') = grid (ui g) ∧ moves (ui g') = moves (ui g)).
Proof.
  intros (Hg & Hperm & Hsel) Hin.
  assert (∀ g', grid (ui g') = grid (ui g) → moves (ui g') = moves (ui g) →
    (¬ ∃ sel, swapsWith (ui g) row col sel) →
    ((grid (ui g') ≠ grid (ui g) ∧ moves (ui g') = moves (ui g) + 1)
       ↔ ∃ sel, swapsWith (ui g) row col sel)
    ∧ (∀ sel, swapsWith (ui g) row col sel →
         grid (ui g') = swapCells (grid (ui g)) (row, col) sel)
    ∧ ((¬ ∃ sel, swapsWith (ui g) row col sel) →
         grid (ui g') = grid (ui g) ∧ moves (ui g') = moves (ui g))) as Hsame.
  { intros g' Eg Em Hno. split; [|split].
    - split; [intros [H _]; by destruct H|intros H; by destruct Hno].
    - intros sel H. destruct Hno. by exists sel.
    - done. }
  destruct (decide (gameState (ui g) = Playing)) as [Hp|Hp]; cycle 1.
  { eexists. split; [by apply dispatch_press_ignored|].
    apply Hsame; [done|done|]. intros (sel & H & _). done. }
  destruct (selectedTile (ui g)) as [sel|] eqn:Es; cycle 1.
  { eexists. split; [by apply dispatch_press_select|].
    apply Hsame; [done|done|]. intros (sel & _ & H & _). congruence. }
  destruct (decide (orthogonal (row, col) sel)) as [Hadj|Hadj]; cycle 1.
  { destruct (decide ((row, col) = sel)) as [<-|Hne].
    - eexists. split; [by apply dispatch_press_deselect|].
      apply Hsame; [done|done|]. intros (sel & _ & H & Ho).
      rewrite Es in H. injection H as <-. done.
    - eexists. split; [by eapply dispatch_press_reselect|].
      apply Hsame; [done|done|]. intros (sel' & _ & H & Ho).
      rewrite Es in H. injection H as <-. done. }
  assert (swapsWith (ui g) row col sel) as Hsw by done.
  pose proof (Hsel sel eq_refl) as Hinsel.
  pose proof (orthogonal_ne _ _ Hadj) as Hne.
  eexists. split; [by apply dispatch_press_swap|].
  assert (∀ g0 (b : bool),
    grid (ui (if b then wonGame (ui g) (swappedGame (ui g) (row, col) sel g0)
              else swappedGame (ui g) (row, col) sel g0))
    = swapCells (grid (ui g)) (row, col) sel
    ∧ moves (ui (if b then wonGame (ui g) (swappedGame (ui g) (row, col) sel g0)
                 else swappedGame (ui g) (row, col) sel g0))
    = moves (ui g) + 1) as Hres.
  { intros g0 [|]; [rewrite wonGame_ui|]; done. }
  destruct (Hres g (solved (gridSize (ui g))
              (swapCells (grid (ui g)) (row, col) sel))) as [-> ->].
  split; [|split].
  - split; [by exists sel|]. intros _. split; [|done].
    by apply (swapCells_changes (gridSize (ui g))).
  - intros sel' (_ & H & _). rewrite Es in H. by injection H as <-.
  - intros Hno. destruct Hno. by exists sel.
Qed.

(** The states a press can lead to. *)
Lemma press_cases (g : Game) (row col : nat) :
  validBoard (ui g) → inGrid (gridSize (ui g)) (row, col) →
  ∃ g', dispatch (PressTile row col) g = Normal tt g'
    ∧ (ui g' = ui g
       ∨ ui g' = withSelectedTile None (ui g)
       ∨ ui g' = withSelectedTile (Some (row, col)) (ui g)
       ∨ ∃ sel, swapsWith (ui g) row col sel ∧ inGrid (gridSize (ui g)) sel
           ∧ ∃ f : State → State,
               (∀ s, grid (f s) = grid s ∧ gridSize (f s) = gridSize s
                     ∧ selectedTile (f s) = selectedTile s ∧ moves (f s) = moves s)
               ∧ ui g' = f (withSelectedTile None
                           (withMoves (moves (ui g) + 1)
                             (withGrid (swapCells (grid (ui g)) (row, col) sel) (ui g))))).
Proof.
  intros (Hg & Hperm & Hsel) Hin.
  destruct (decide (gameState (ui g) = Playing)) as [Hp|Hp]; cycle 1.
  { eexists. split; [by apply dispatch_press_ignored|]. by left. }
  destruct (selectedTile (ui g)) as [sel|] eqn:Es; cycle 1.
  { eexists. split; [by apply dispatch_press_select|]. right; right; by left. }
  destruct (decide (orthogonal (row, col) sel)) as [Hadj|Hadj]; cycle 1.
  { destruct (decide ((row, col) = sel)) as [<-|Hne].
    - eexists. split; [by apply dispatch_press_deselect|]. right; by left.
    - eexists. split; [by eapply dispatch_press_reselect|]. right; right; by left. }
  assert (swapsWith (ui g) row col sel) as Hsw by done.
  pose proof (Hsel sel eq_refl) as Hinsel.
  eexists. split; [by apply dispatch_press_swap|].
  do 3 right. exists sel. split; [done|]. split; [done|].
  destruct (solved _ _).
  - exists (λ s, withHighScores (recordWin (ui g) (today g)) (withGameState Won s)).
    split; [done|]. by rewrite wonGame_ui.
  - exists (λ s, s). done.
Qed.

(** Presses keep the board valid. *)
Lemma press_keeps_board (g : Game) (row col : nat) :
  validBoard (ui g) → inGrid (gridSize (ui g)) (row, col) →
  ∃ g', dispatch (PressTile row col) g = Normal tt g'
        ∧ validBoard (ui g') ∧ gridSize (ui g') = gridSize (ui g).
Proof.
  intros Hv Hin. destruct (press_cases g row col Hv Hin) as (g' & Hd & Hc).
  exists g'. split; [done|]. destruct Hv as (Hg & Hperm & Hsel).
  destruct Hc as [->|[->|[->|(sel & Hsw & Hinsel & f & Hf & ->)]]].
  - done.
  - split; [split; [|split]|]; simpl; done.
  - split; [split; [|split]|]; simpl; try done. by intros ? [= <-].
  - pose proof (validBoard_swapped (ui g) (row, col) sel
                  (conj Hg (conj Hperm Hsel)) Hin Hinsel) as (Hg' & Hperm' & _).
    set (s := withSelectedTile None _) in *.
    destruct (Hf s) as (Eg & En & Es & _).
    unfold validBoard. rewrite Eg, En, Es. done.
Qed.

(** [C10, as amended] Provided no selection is pending and the first swap
    does not complete the ascending order (it would end the session, and the
    later presses would be ignored), selecting a cell and pressing an
    orthogonal neighbour, twice in succession, gives back the original grid,
    with the move counter increased by exactly 2. *)
Theorem swap_twice_restores_grid (g : Game) (a b : nat * nat) :
  gameState (ui g) = Playing → selectedTile (ui g) = None →
  gridOfSize (gridSize (ui g)) (grid (ui g)) →
  inGrid (gridSize (ui g)) a → inGrid (gridSize (ui g)) b → orthogonal a b →
  ¬ ascending (gridSize (ui g)) (swapCells (grid (ui g)) b a) →
  ∃ g', run [PressTile a.1 a.2; PressTile b.1 b.2;
             PressTile a.1 a.2; PressTile b.1 b.2] g = Normal tt g'
        ∧ grid (ui g') = grid (ui g)
        ∧ moves (ui g') = moves (ui g) + 2.
Proof.
  intros Hp Hs Hg Ha Hb Hadj Hnot.
  destruct a as [ar ac], b as [br bc]. simpl.
  apply orthogonal_sym in Hadj.
  rewrite bind_run, dispatch_press_select by done.
  set (g1 := overUi (withSelectedTile (Some (ar, ac))) g).
  rewrite bind_run, (dispatch_press_swap g1 br bc (ar, ac)) by done.
  destruct (solved (gridSize (ui g1)) (swapCells (grid (ui g1)) (br, bc) (ar, ac)))
    eqn:Esolved.
  { exfalso. apply Hnot. by apply solved_ascending. }
  set (g2 := swappedGame (ui g1) (br, bc) (ar, ac) g1).
  rewrite bind_run, dispatch_press_select by done.
  set (g3 := overUi (withSelectedTile (Some (ar, ac))) g2).
  assert (gridOfSize (gridSize (ui g3)) (grid (ui g3))) as Hg3.
  { simpl. by apply gridOfSize_swapCells. }
  rewrite bind_run, (dispatch_press_swap g3 br bc (ar, ac)) by done.
  assert (swapCells (grid (ui g3)) (br, bc) (ar, ac) = grid (ui g)) as Eback.
  { simpl. by apply (swapCells_involutive (gridSize (ui g))). }
  destruct (solved (gridSize (ui g3)) (swapCells (grid (ui g3)) (br, bc) (ar, ac)));
    eexists; (split; [reflexivity|]).
  - rewrite wonGame_ui. simpl. split; [exact Eback|lia].
  - simpl. split; [exact Eback|lia].
Qed.

(** ** The session clock *)

Lemma gameOvers_app (l1 l2 : list Signal) :
  gameOvers (l1 ++ l2) = (gameOvers l1 + gameOvers l2)%nat.
Proof. unfold gameOvers. by rewrite List.filter_app, length_app. Qed.

Lemma gameOverGame_out (cur : State) (g : Game) :
  gameOvers (out (gameOverGame cur g)) = S (gameOvers (out g)).
Proof.
  unfold gameOverGame, withSound.
  destruct (soundEnabled cur && _); simpl; rewrite !gameOvers_app;
    unfold gameOvers; simpl; lia.
Qed.

Lemma gameOverGame_ui (cur : State) (g : Game) :
  ui (gameOverGame cur g) = withGameState GameOver (ui g).
Proof. unfold gameOverGame, withSound. by destruct (soundEnabled cur && _). Qed.

Lemma gameOverGame_pending (cur : State) (g : Game) :
  pendingTimeout (gameOverGame cur g) = None.
Proof. unfold gameOverGame, withSound. by destruct (soundEnabled cur && _). Qed.

(** No timeout pending: a second passes and nothing happens. *)
Lemma tick_idle (g : Game) :
  pendingTimeout g = None → dispatch Tick g = Normal tt g.
Proof.
  intros H. apply dispatch_quiet; [|apply depsChanged_refl].
  simpl. unfold timeoutFires. mstep. by rewrite H.
Qed.

(** The clock shows more than 1: it loses one second and is set again. *)
Lemma tick_decrements (g : Game) (t : Z) :
  gameState (ui g) = Playing → timeLeft (ui g) = Some t →
  pendingTimeout g = Some t → 1 < t →
  ∃ g', dispatch Tick g = Normal tt g'
        ∧ ui g' = withTimeLeft (Some (t - 1)) (ui g)
        ∧ pendingTimeout g' = Some (t - 1) ∧ out g' = out g.
Proof.
  intros Hp Ht Hpend Hlt. unfold dispatch. simpl. unfold timeoutFires.
  do 2 mstep. rewrite Hpend. do 2 mstep.
  destruct (decide _) as [_|Hn]; cycle 1.
  { exfalso. apply Hn. left. simpl. rewrite Ht. intros [=]. lia. }
  mstep. unfold timerEffect. simpl. rewrite decide_True by (split; [done|lia]).
  do 2 mstep. rewrite decide_False by apply depsChanged_refl.
  eexists. split; [reflexivity|]. done.
Qed.

(** The clock shows 1: it reaches 0 and the game is over. *)
Lemma tick_last (g : Game) :
  gameState (ui g) = Playing → timeLeft (ui g) = Some 1 →
  pendingTimeout g = Some 1 →
  ∃ g', dispatch Tick g = Normal tt g'
        ∧ ui g' = withGameState GameOver (withTimeLeft (Some 0) (ui g))
        ∧ pendingTimeout g' = None
        ∧ gameOvers (out g') = S (gameOvers (out g)).
Proof.
  intros Hp Ht Hpend. unfold dispatch. simpl. unfold timeoutFires.
  do 2 mstep. rewrite Hpend. do 2 mstep.
  destruct (decide _) as [_|Hn]; cycle 1.
  { exfalso. apply Hn. left. simpl. rewrite Ht. intros [=]. }
  mstep. unfold timerEffect. simpl.
  rewrite decide_False by (intros [_ ?]; lia). rewrite decide_True by done.
  rewrite bind_run, handleGameOver_run. rewrite bind_run. cbn.
  rewrite gameOverGame_ui. cbn.
  destruct (decide _) as [_|Hn]; cycle 1.
  { exfalso. apply Hn. right. cbn. by rewrite Hp. }
  rewrite bind_run. cbn. rewrite !decide_False by (by intros [? ?]).
  eexists. split; [reflexivity|]. cbn.
  split; [apply gameOverGame_ui|]. split; [done|].
  apply (gameOverGame_out _ (withPendingTimeout None
           (overUi (withTimeLeft (Some (1 - 1))) (withPendingTimeout None g)))).
Qed.

Lemma rerender_step (k : nat) (prev : State) (g : Game) :
  rerender (S k) prev g
  = if decide (depsChanged prev (ui g))
    then (timerEffect (ui g);; rerender k (ui g)) (withPendingTimeout None g)
    else Normal tt g.
Proof. simpl. mstep. by destruct (decide _). Qed.

Lemma timerEffect_cases (cur : State) (g : Game) :
  (∃ t, gameState cur = Playing ∧ timeLeft cur = Some t ∧ t > 0
        ∧ timerEffect cur g = Normal tt (withPendingTimeout (Some t) g))
  ∨ (gameState cur = Playing ∧ timeLeft cur = Some 0
     ∧ timerEffect cur g = Normal tt (gameOverGame cur g))
  ∨ timerEffect cur g = Normal tt g.
Proof.
  unfold timerEffect. destruct (timeLeft cur) as [t|]; [|by right; right].
  destruct (decide (gameState cur = Playing ∧ t > 0)) as [[? ?]|?].
  { left. by exists t. }
  destruct (decide (t = 0 ∧ gameState cur = Playing)) as [[-> ?]|?].
  { right; left. by rewrite handleGameOver_run. }
  by right; right.
Qed.

(** Two rounds of effects are enough: a third render finds nothing changed. *)
Lemma rerender_settled (k : nat) (prev : State) (g : Game) :
  rerender (2 + k) prev g = rerender 2 prev g.
Proof.
  change (2 + k)%nat with (S (S k)). rewrite !rerender_step.
  destruct (decide (depsChanged prev (ui g))); [|reflexivity].
  rewrite !bind_run.
  destruct (timerEffect_cases (ui g) (withPendingTimeout None g))
    as [(t & Hp1 & Et & Hpos & E)|[(Hp1 & Et & E)|E]]; rewrite E.
  - by rewrite !rerender_unchanged by apply depsChanged_refl.
  - rewrite !rerender_idle; try done.
    all: try apply gameOverGame_pending.
    all: by rewrite gameOverGame_ui.
  - by rewrite !rerender_unchanged by apply depsChanged_refl.
Qed.

(** Whatever the event, once it has taken the phase out of [Playing] no
    timeout is pending. *)
Lemma leaving_Playing_clears_timeout (ev : Event) (g g' : Game) :
  gameState (ui g) = Playing → dispatch ev g = Normal tt g' →
  gameState (ui g') ≠ Playing → pendingTimeout g' = None.
Proof.
  intros Hp Hd Hleft. unfold dispatch in Hd. rewrite bind_run in Hd.
  destruct (handler ev (ui g) g) as [[] g1|g1]; [|discriminate].
  rewrite rerender_step in Hd.
  destruct (decide (depsChanged (ui g) (ui g1))) as [Hc|Hc]; cycle 1.
  { injection Hd as <-. destruct Hleft. rewrite <- Hp.
    destruct (decide (gameState (ui g1) = gameState (ui g))) as [E|E]; [done|].
    destruct Hc. by right. }
  rewrite bind_run in Hd.
  destruct (timerEffect_cases (ui g1) (withPendingTimeout None g1))
    as [(t & Hp1 & Et & Hpos & E)|[(Hp1 & Et & E)|E]]; rewrite E in Hd.
  - rewrite rerender_unchanged in Hd by apply depsChanged_refl.
    injection Hd as <-. by destruct Hleft.
  - rewrite rerender_idle in Hd.
    + injection Hd as <-. apply gameOverGame_pending.
    + by rewrite gameOverGame_ui.
    + apply gameOverGame_pending.
  - rewrite rerender_unchanged in Hd by apply depsChanged_refl.
    by injection Hd as <-.
Qed.

Lemma run_cons (ev : Event) (evs : list Event) (g g1 : Game) :
  dispatch ev g = Normal tt g1 → run (ev :: evs) g = run evs g1.
Proof. intros H. simpl. by rewrite bind_run, H. Qed.

Lemma ticks_when_stopped (k : nat) (g : Game) :
  pendingTimeout g = None → run (replicate k Tick) g = Normal tt g.
Proof.
  intros H. induction k as [|k IH]; simpl; [reflexivity|].
  by rewrite bind_run, tick_idle.
Qed.

Lemma ticks_count_down (k : nat) (g : Game) (t : Z) :
  gameState (ui g) = Playing → timeLeft (ui g) = Some t → 0 < t →
  pendingTimeout g = Some t →
  ∃ g', run (replicate k Tick) g = Normal tt g'
        ∧ timeLeft (ui g') = Some (Z.max 0 (t - Z.of_nat k))
        ∧ (Z.of_nat k < t →
             gameState (ui g') = Playing ∧ pendingTimeout g' = Some (t - Z.of_nat k)
             ∧ gameOvers (out g') = gameOvers (out g))
        ∧ (t ≤ Z.of_nat k →
             gameState (ui g') = GameOver ∧ pendingTimeout g' = None
             ∧ gameOvers (out g') = S (gameOvers (out g))).
Proof.
  revert g t. induction k as [|k IH]; intros g t Hp Ht Hpos Hpend.
  { exists g. split; [reflexivity|]. rewrite Ht.
    split; [f_equal; lia|]. split; [|lia].
    intros _. rewrite Hpend. repeat split; [done|f_equal; lia]. }
  change (replicate (S k) Tick) with (Tick :: replicate k Tick).
  destruct (decide (t = 1)) as [->|Hne].
  - destruct (tick_last g Hp Ht Hpend) as (g1 & Hd & Eu & Ep & Eo).
    rewrite (run_cons _ _ _ _ Hd), ticks_when_stopped by done.
    exists g1. split; [reflexivity|]. rewrite Eu. simpl.
    split; [f_equal; lia|]. split; [lia|]. done.
  - destruct (tick_decrements g t Hp Ht Hpend) as (g1 & Hd & Eu & Ep & Eo); [lia|].
    rewrite (run_cons _ _ _ _ Hd).
    destruct (IH g1 (t - 1)) as (g' & Hr & Et' & Hrun & Hover);
      [by rewrite Eu|by rewrite Eu|lia|done|].
    exists g'. split; [done|]. rewrite Et', <- Eo.
    split; [f_equal; lia|]. split.
    + intros Hk. destruct Hrun as (? & ? & ?); [lia|].
      repeat split; [done| |done]. rewrite H0. f_equal. lia.
    + intros Hk. apply Hover. lia.
Qed.

(** ** The colour generator *)

Lemma sameButRng_afterDraw (g : Game) : sameButRng g (afterDraw g).
Proof. repeat split. Qed.

Lemma randomInUnit_afterDraw (g : Game) : randomInUnit g → randomInUnit (afterDraw g).
Proof. intros H k. apply (H (S k)). Qed.

Lemma pow2_pos (k : Z) : (0 < 2 ^ k)%Q.
Proof. by apply Qpower_0_lt. Qed.

Lemma pow2_add (a b : Z) : (2 ^ (a + b) == 2 ^ a * 2 ^ b)%Q.
Proof. by apply Qpower_plus. Qed.

Lemma pow2_inject (k : Z) : 0 ≤ k → (inject_Z (2 ^ k) == 2 ^ k)%Q.
Proof. intros Hk. by rewrite Zpower_Qpower. Qed.

Lemma Q_as_fraction (x : Q) :
  (x * inject_Z (Zpos (Qden x)) == inject_Z (Qnum x))%Q.
Proof.
  destruct x as [n d]. unfold Qeq, Qmult, inject_Z. simpl. lia.
Qed.

Lemma log2_bracket (x : Q) :
  (0 < x)%Q →
  let k := Z.log2 (Qnum x) - Z.log2 (Zpos (Qden x)) in
  (2 ^ (k - 1) < x)%Q ∧ (x < 2 ^ (k + 1))%Q.
Proof.
  intros Hx k.
  assert (0 < Qnum x) as Hn by (destruct x as [n d]; unfold Qlt in Hx; simpl in *; lia).
  pose proof (Z.log2_spec _ Hn) as [Hn1 Hn2].
  pose proof (Z.log2_spec (Zpos (Qden x)) ltac:(lia)) as [Hd1 Hd2].
  pose proof (Z.log2_nonneg (Qnum x)) as Hln.
  pose proof (Z.log2_nonneg (Zpos (Qden x))) as Hld.
  set (ln := Z.log2 (Qnum x)) in *. set (ld := Z.log2 (Zpos (Qden x))) in *.
  pose proof (Q_as_fraction x) as Hfrac.
  set (N := inject_Z (Qnum x)) in *. set (D := inject_Z (Zpos (Qden x))) in *.
  assert (2 ^ ln <= N)%Q as HN1.
  { rewrite <- pow2_inject by done. unfold N. by rewrite <- Zle_Qle. }
  assert (N < 2 ^ (ln + 1))%Q as HN2.
  { rewrite <- pow2_inject by lia. unfold N. by rewrite <- Zlt_Qlt. }
  assert (2 ^ ld <= D)%Q as HD1.
  { rewrite <- pow2_inject by done. unfold D. by rewrite <- Zle_Qle. }
  assert (D < 2 ^ (ld + 1))%Q as HD2.
  { rewrite <- pow2_inject by lia. unfold D. by rewrite <- Zlt_Qlt. }
  assert (2 ^ (k - 1) * 2 ^ (ld + 1) == 2 ^ ln)%Q as E1.
  { rewrite <- pow2_add. by replace (k - 1 + (ld + 1)) with ln by lia. }
  assert (2 ^ (k + 1) * 2 ^ ld == 2 ^ (ln + 1))%Q as E2.
  { rewrite <- pow2_add. by replace (k + 1 + ld) with (ln + 1) by lia. }
  pose proof (pow2_pos (k - 1)). pose proof (pow2_pos (k + 1)).
  pose proof (pow2_pos ld).
  set (A := (2 ^ (k - 1))%Q) in *. set (B := (2 ^ (k + 1))%Q) in *.
  set (L := (2 ^ ln)%Q) in *. set (L1 := (2 ^ (ln + 1))%Q) in *.
  set (U := (2 ^ ld)%Q) in *. set (U1 := (2 ^ (ld + 1))%Q) in *.
  assert (0 < D)%Q by lra.
  split.
  - assert (A * D < x * D)%Q by nra. nra.
  - assert (x * D < B * D)%Q by nra. nra.
Qed.

Lemma floorLog2_spec (x : Q) :
  (0 < x)%Q → (2 ^ floorLog2 x <= x)%Q ∧ (x < 2 ^ (floorLog2 x + 1))%Q.
Proof.
  intros Hx. destruct (log2_bracket x Hx) as [Hlo Hhi].
  unfold floorLog2.
  set (k := Z.log2 (Qnum x) - Z.log2 (Zpos (Qden x))) in *.
  destruct (Qle_bool (2 ^ k) x) eqn:E.
  - apply Qle_bool_iff in E. done.
  - split; [lra|]. replace (k - 1 + 1) with k by lia.
    apply Qnot_le_lt. intros Hle. apply Qle_bool_iff in Hle. congruence.
Qed.

Lemma floorLog2_unique (x : Q) (e : Z) :
  (2 ^ e <= x)%Q → (x < 2 ^ (e + 1))%Q → floorLog2 x = e.
Proof.
  intros Hlo Hhi.
  assert (0 < x)%Q as Hx by (pose proof (pow2_pos e); lra).
  destruct (floorLog2_spec x Hx) as [Hlo' Hhi'].
  assert (2 ^ e < 2 ^ (floorLog2 x + 1))%Q as H1 by lra.
  assert (2 ^ floorLog2 x < 2 ^ (e + 1))%Q as H2 by lra.
  apply Qpower_lt_compat_l_inv in H1; [|done].
  apply Qpower_lt_compat_l_inv in H2; [|done]. lia.
Qed.

Lemma floorLog2_mono (x y : Q) :
  (0 < x)%Q → (x <= y)%Q → floorLog2 x ≤ floorLog2 y.
Proof.
  intros Hx Hxy.
  destruct (floorLog2_spec x Hx) as [Hlo _].
  destruct (floorLog2_spec y ltac:(lra)) as [_ Hhi].
  assert (2 ^ floorLog2 x < 2 ^ (floorLog2 y + 1))%Q as H by lra.
  apply Qpower_lt_compat_l_inv in H; [lia|done].
Qed.

(** Rounding to an integer. *)

Lemma roundHalfEven_near (y : Q) :
  (y - (1 # 2) <= inject_Z (roundHalfEven y))%Q
  ∧ (inject_Z (roundHalfEven y) <= y + (1 # 2))%Q.
Proof.
  unfold roundHalfEven.
  pose proof (Qfloor_le y) as Hlo. pose proof (Qlt_floor y) as Hhi.
  rewrite inject_Z_plus in Hhi. change (inject_Z 1) with 1%Q in Hhi.
  set (f := Qfloor y) in *.
  destruct ((y - inject_Z f) ?= (1 # 2))%Q eqn:E.
  - rewrite <- Qeq_alt in E.
    destruct (Z.even f); rewrite ?inject_Z_plus; change (inject_Z 1) with 1%Q; lra.
  - rewrite <- Qlt_alt in E. lra.
  - rewrite <- Qgt_alt in E. rewrite inject_Z_plus. change (inject_Z 1) with 1%Q. lra.
Qed.

Lemma roundHalfEven_Z (z : Z) : roundHalfEven (inject_Z z) = z.
Proof.
  unfold roundHalfEven. rewrite Qfloor_Z.
  assert (((inject_Z z - inject_Z z) ?= (1 # 2))%Q = Lt) as ->; [|done].
  rewrite <- Qlt_alt. generalize (inject_Z z). intros q. lra.
Qed.

Lemma roundHalfEven_mono (y y' : Q) :
  (y <= y')%Q → roundHalfEven y ≤ roundHalfEven y'.
Proof.
  intros Hle.
  pose proof (Qfloor_resp_le _ _ Hle) as Hf.
  assert (Qfloor y ≤ roundHalfEven y ≤ Qfloor y + 1) as Hr.
  { unfold roundHalfEven. repeat case_match; lia. }
  assert (Qfloor y' ≤ roundHalfEven y' ≤ Qfloor y' + 1) as Hr'.
  { unfold roundHalfEven. repeat case_match; lia. }
  destruct (decide (Qfloor y = Qfloor y')) as [Heq|Hne]; [|lia].
  unfold roundHalfEven. rewrite <- Heq.
  set (f := Qfloor y) in *.
  destruct ((y - inject_Z f) ?= (1 # 2))%Q eqn:E,
           ((y' - inject_Z f) ?= (1 # 2))%Q eqn:E';
    try rewrite <- Qeq_alt in E; try rewrite <- Qlt_alt in E; try rewrite <- Qgt_alt in E;
    try rewrite <- Qeq_alt in E'; try rewrite <- Qlt_alt in E'; try rewrite <- Qgt_alt in E';
    try (destruct (Z.even f)); try lia; try lra.
Qed.

(** Rounding to a double. *)

Lemma roundPositive_scaled (x : Q) :
  (x / 2 ^ ulpExponent x * 2 ^ ulpExponent x == x)%Q.
Proof. field. apply Qpower_not_0. done. Qed.

Lemma roundPositive_near (x : Q) :
  (x - 2 ^ (ulpExponent x - 1) <= roundPositive x)%Q
  ∧ (roundPositive x <= x + 2 ^ (ulpExponent x - 1))%Q.
Proof.
  unfold roundPositive.
  pose proof (roundPositive_scaled x) as Hy.
  pose proof (pow2_pos (ulpExponent x)) as HP.
  assert (2 ^ (ulpExponent x - 1) * 2 == 2 ^ ulpExponent x)%Q as Hhalf.
  { change 2%Q with (2 ^ 1)%Q at 2. rewrite <- pow2_add.
    by replace (ulpExponent x - 1 + 1) with (ulpExponent x) by lia. }
  destruct (roundHalfEven_near (x / 2 ^ ulpExponent x)) as [Hlo Hhi].
  set (y := (x / 2 ^ ulpExponent x)%Q) in *.
  set (m := inject_Z (roundHalfEven y)) in *.
  set (P := (2 ^ ulpExponent x)%Q) in *.
  set (H := (2 ^ (ulpExponent x - 1))%Q) in *.
  split; nra.
Qed.

Lemma roundPositive_nonneg (x : Q) : (0 <= x)%Q → (0 <= roundPositive x)%Q.
Proof.
  intros Hx. unfold roundPositive.
  pose proof (pow2_pos (ulpExponent x)) as HP.
  apply Qmult_le_0_compat; [|lra].
  change 0%Q with (inject_Z 0). rewrite <- Zle_Qle.
  rewrite <- (roundHalfEven_Z 0). apply roundHalfEven_mono.
  change (inject_Z 0) with 0%Q.
  apply Qle_shift_div_l; [done|]. lra.
Qed.

(** The rounded value stays in the binade of [x]. *)
Lemma roundPositive_below (x : Q) :
  (0 < x)%Q → (roundPositive x <= 2 ^ (ulpExponent x + 53))%Q.
Proof.
  intros Hx. unfold roundPositive.
  destruct (floorLog2_spec x Hx) as [_ Hhi].
  pose proof (pow2_pos (ulpExponent x)) as HP.
  assert (2 ^ (floorLog2 x + 1) <= 2 ^ (ulpExponent x + 53))%Q as Hexp.
  { apply Qpower_le_compat_l; [unfold ulpExponent; lia|done]. }
  rewrite (pow2_add (ulpExponent x) 53) in *.
  rewrite (Qmult_comm (2 ^ ulpExponent x)).
  apply Qmult_le_compat_r; [|lra].
  rewrite <- (pow2_inject 53) by lia. rewrite <- Zle_Qle.
  rewrite <- (roundHalfEven_Z (2 ^ 53)) at 1. apply roundHalfEven_mono.
  rewrite (pow2_inject 53) by lia.
  apply Qle_shift_div_r; [done|]. lra.
Qed.

Lemma roundPositive_above (x : Q) :
  (0 < x)%Q → -1022 ≤ floorLog2 x → (2 ^ floorLog2 x <= roundPositive x)%Q.
Proof.
  intros Hx He. unfold roundPositive.
  destruct (floorLog2_spec x Hx) as [Hlo _].
  pose proof (pow2_pos (ulpExponent x)) as HP.
  assert (floorLog2 x = ulpExponent x + 52) as Ee by (unfold ulpExponent; lia).
  rewrite Ee in Hlo |- * at 1. rewrite (pow2_add (ulpExponent x) 52) in *.
  rewrite (Qmult_comm (2 ^ ulpExponent x)).
  apply Qmult_le_compat_r; [|lra].
  rewrite <- (pow2_inject 52) by lia. rewrite <- Zle_Qle.
  rewrite <- (roundHalfEven_Z (2 ^ 52)) at 1. apply roundHalfEven_mono.
  rewrite (pow2_inject 52) by lia.
  apply Qle_shift_div_l; [done|]. lra.
Qed.

Lemma roundPositive_mono (x y : Q) :
  (0 < x)%Q → (x <= y)%Q → (roundPositive x <= roundPositive y)%Q.
Proof.
  intros Hx Hxy. assert (0 < y)%Q as Hy by lra.
  pose proof (floorLog2_mono x y Hx Hxy) as He.
  destruct (decide (ulpExponent x = ulpExponent y)) as [Eq|Hne].
  - unfold roundPositive. rewrite Eq.
    pose proof (pow2_pos (ulpExponent y)) as HP.
    apply Qmult_le_compat_r; [|lra].
    rewrite <- Zle_Qle. apply roundHalfEven_mono.
    apply Qmult_le_compat_r; [done|].
    apply Qlt_le_weak, Qinv_lt_0_compat. done.
  - assert (-1022 ≤ floorLog2 y ∧ ulpExponent x + 53 ≤ floorLog2 y) as [H1 H2]
      by (unfold ulpExponent in *; lia).
    eapply Qle_trans; [by apply roundPositive_below|].
    eapply Qle_trans; [|by apply roundPositive_above].
    by apply Qpower_le_compat_l.
Qed.

Lemma roundDouble_zero (x : Q) : (x == 0)%Q → roundDouble x = 0%Q.
Proof. intros H. unfold roundDouble. rewrite Qeq_alt in H. by rewrite H. Qed.

Lemma roundDouble_pos (x : Q) : (0 < x)%Q → roundDouble x = roundPositive x.
Proof.
  intros H. unfold roundDouble.
  assert ((x ?= 0)%Q = Gt) as ->; [|done]. by rewrite <- Qgt_alt.
Qed.

Lemma roundDouble_nonneg (x : Q) : (0 <= x)%Q → (0 <= roundDouble x)%Q.
Proof.
  intros Hx. destruct (Qlt_le_dec 0 x) as [Hpos|Hle].
  - rewrite roundDouble_pos by done. by apply roundPositive_nonneg.
  - rewrite roundDouble_zero by lra. done.
Qed.

Lemma roundDouble_mono (x y : Q) :
  (0 <= x)%Q → (x <= y)%Q → (roundDouble x <= roundDouble y)%Q.
Proof.
  intros Hx Hxy. destruct (Qlt_le_dec 0 x) as [Hpos|Hle].
  - rewrite !roundDouble_pos by lra. by apply roundPositive_mono.
  - rewrite (roundDouble_zero x) by lra. apply roundDouble_nonneg. lra.
Qed.

(** Below [2^9] a rounding moves a number by at most [2^-45]. *)
Lemma roundDouble_abs (x : Q) :
  (0 <= x)%Q → (x < 2 ^ 9)%Q →
  (x - 2 ^ (-45) <= roundDouble x)%Q ∧ (roundDouble x <= x + 2 ^ (-45))%Q.
Proof.
  intros Hx Hlt. pose proof (pow2_pos (-45)).
  destruct (Qlt_le_dec 0 x) as [Hpos|Hle].
  - rewrite roundDouble_pos by done.
    destruct (floorLog2_spec x Hpos) as [Hlo _].
    assert (2 ^ floorLog2 x < 2 ^ 9)%Q as He by lra.
    apply Qpower_lt_compat_l_inv in He; [|done].
    assert (2 ^ (ulpExponent x - 1) <= 2 ^ (-45))%Q as Hexp.
    { apply Qpower_le_compat_l; [unfold ulpExponent; lia|done]. }
    destruct (roundPositive_near x). split; lra.
  - rewrite roundDouble_zero by lra. split; lra.
Qed.

(** In the normal range a rounding moves a number by at most [2^-53] of
    itself. *)
Lemma roundDouble_rel (x : Q) :
  (2 ^ (-1022) <= x)%Q →
  (x - x * 2 ^ (-53) <= roundDouble x)%Q ∧ (roundDouble x <= x + x * 2 ^ (-53))%Q.
Proof.
  intros Hx. pose proof (pow2_pos (-1022)).
  assert (0 < x)%Q as Hpos by lra.
  rewrite roundDouble_pos by done.
  destruct (floorLog2_spec x Hpos) as [Hlo Hhi].
  assert (2 ^ (-1022) < 2 ^ (floorLog2 x + 1))%Q as He by lra.
  apply Qpower_lt_compat_l_inv in He; [|done].
  assert (ulpExponent x - 1 = floorLog2 x + -53) as Eq by (unfold ulpExponent; lia).
  destruct (roundPositive_near x) as [H1 H2].
  rewrite Eq, pow2_add in H1, H2.
  pose proof (pow2_pos (-53)).
  set (E := (2 ^ floorLog2 x)%Q) in *. set (u := (2 ^ (-53))%Q) in *.
  split; nra.
Qed.

(** The numbers the generator adds to are doubles. *)
Lemma roundDouble_constants :
  (roundDouble 30 == 30)%Q ∧ (roundDouble 20 == 20)%Q
  ∧ (roundDouble 70 == 70)%Q ∧ (roundDouble 100 == 100)%Q
  ∧ (roundDouble 45 == 45)%Q ∧ (roundDouble 65 == 65)%Q.
Proof. by vm_compute. Qed.

Lemma rounding_bounds :
  (2 ^ 9 == 512)%Q
  ∧ (0 < 2 ^ (-45))%Q ∧ (2 ^ (-45) <= 3 # 100000000000000)%Q
  ∧ (0 < 2 ^ (-53))%Q ∧ (2 ^ (-53) <= 2 # 10000000000000000)%Q.
Proof. by vm_compute. Qed.

(** A draw scaled by [width] and added to [base], both roundings counted,
    stays between [base] and [base + width] when these are doubles. *)
Lemma jitter_range (base width r : Q) :
  (0 <= base)%Q → (0 <= width)%Q →
  (roundDouble width == width)%Q → (roundDouble base == base)%Q →
  (roundDouble (base + width) == base + width)%Q →
  (0 <= r)%Q → (r < 1)%Q →
  (base <= roundDouble (base + roundDouble (r * width)))%Q
  ∧ (roundDouble (base + roundDouble (r * width)) <= base + width)%Q.
Proof.
  intros Hbase Hwidth Ew Eb Ebw Hr0 Hr1.
  assert (0 <= r * width)%Q as Hrw by nra.
  pose proof (roundDouble_nonneg _ Hrw) as Hlo.
  pose proof (roundDouble_mono (r * width) width Hrw ltac:(nra)) as Hhi.
  rewrite Ew in Hhi.
  pose proof (roundDouble_mono base (base + roundDouble (r * width))
                Hbase ltac:(lra)) as H1.
  pose proof (roundDouble_mono (base + roundDouble (r * width)) (base + width)
                ltac:(lra) ltac:(lra)) as H2.
  rewrite Eb in H1. rewrite Ebw in H2. done.
Qed.

Lemma saturation_range (r : Q) :
  (0 <= r)%Q → (r < 1)%Q →
  (70 <= roundDouble (70 + roundDouble (r * 30)))%Q
  ∧ (roundDouble (70 + roundDouble (r * 30)) <= 100)%Q.
Proof.
  destruct roundDouble_constants as (E30 & _ & E70 & E100 & _).
  intros H0 H1. by apply (jitter_range 70 30 r).
Qed.

Lemma lightness_range (r : Q) :
  (0 <= r)%Q → (r < 1)%Q →
  (45 <= roundDouble (45 + roundDouble (r * 20)))%Q
  ∧ (roundDouble (45 + roundDouble (r * 20)) <= 65)%Q.
Proof.
  destruct roundDouble_constants as (_ & E20 & _ & _ & E45 & E65).
  intros H0 H1. by apply (jitter_range 45 20 r).
Qed.

(** The hue before [% 360]: three roundings after the one of the step, each
    far below the tolerance. *)
Lemma hue_sum_near (s step r : Q) (i : nat) :
  (0 <= s)%Q →
  (s - s * 2 ^ (-53) <= step)%Q → (step <= s + s * 2 ^ (-53))%Q →
  (inject_Z (Z.of_nat i) * s <= 360)%Q →
  (0 <= r)%Q → (r < 1)%Q →
  (inject_Z (Z.of_nat i) * s - hueTolerance
   <= roundDouble (roundDouble (inject_Z (Z.of_nat i) * step) + roundDouble (r * 30)))%Q
  ∧ (roundDouble (roundDouble (inject_Z (Z.of_nat i) * step) + roundDouble (r * 30))
     <= inject_Z (Z.of_nat i) * s + 30 + hueTolerance)%Q.
Proof.
  intros Hs Hlo Hhi Hnom Hr0 Hr1.
  destruct rounding_bounds as (E9 & HE0 & HE & HU0 & HU).
  assert (0 <= inject_Z (Z.of_nat i))%Q as HI.
  { change 0%Q with (inject_Z 0). rewrite <- Zle_Qle. lia. }
  revert Hlo Hhi Hnom.
  generalize (inject_Z (Z.of_nat i)) HI. intros I HI' Hlo Hhi Hnom.
  revert E9 HE0 HE HU0 HU Hlo Hhi.
  generalize (2 ^ (-45))%Q (2 ^ (-53))%Q. intros E U E9 HE0 HE HU0 HU Hlo Hhi.
  pose proof (Qmult_le_0_compat (360 - I * s) U ltac:(lra) ltac:(lra)) as HsU.
  pose proof (Qmult_le_0_compat s (1 - U) Hs ltac:(lra)) as Hstep.
  pose proof (Qmult_le_0_compat I (step - (s - s * U)) HI' ltac:(lra)) as Hp1.
  pose proof (Qmult_le_0_compat I (s + s * U - step) HI' ltac:(lra)) as Hp2.
  pose proof (Qmult_le_0_compat I step HI' ltac:(lra)) as Hp0.
  destruct (roundDouble_abs (I * step) Hp0 ltac:(lra)) as [Ha1 Ha2].
  pose proof (roundDouble_nonneg _ Hp0) as Ha0.
  assert (0 <= r * 30)%Q as Hb by lra.
  destruct (roundDouble_abs (r * 30) Hb ltac:(lra)) as [Hb1 Hb2].
  pose proof (roundDouble_nonneg _ Hb) as Hb0.
  revert Ha1 Ha2 Ha0 Hb1 Hb2 Hb0.
  generalize (roundDouble (I * step)) (roundDouble (r * 30)).
  intros a b Ha1 Ha2 Ha0 Hb1 Hb2 Hb0.
  destruct (roundDouble_abs (a + b) ltac:(lra) ltac:(lra)) as [Hc1 Hc2].
  unfold hueTolerance. split; lra.
Qed.

Lemma js_rem_hue (x : Q) (lo hi nominal : Q) :
  (nominal + lo <= x)%Q → (x <= nominal + hi)%Q →
  hueWithin lo hi nominal (js_rem x 360).
Proof.
  intros Hlo Hhi. unfold js_rem.
  exists (Z.quot (Qnum (x / 360)) (Zpos (Qden (x / 360)))).
  set (k := inject_Z _). split; lra.
Qed.

Lemma colorLoop_run (s hueStep : Q) (indices : list nat) (acc : list Color) (g : Game) :
  ∃ colors g', colorLoop hueStep indices acc g = Normal (acc ++ colors) g'
    ∧ sameButRng g g'
    ∧ length colors = length indices
    ∧ (randomInUnit g → (0 <= s)%Q →
       (s - s * 2 ^ (-53) <= hueStep)%Q → (hueStep <= s + s * 2 ^ (-53))%Q →
       (∀ i, i ∈ indices → (inject_Z (Z.of_nat i) * s <= 360)%Q) →
         ∀ p i c, indices !! p = Some i → colors !! p = Some c →
                  colorOk (- hueTolerance) (30 + hueTolerance) s i c).
Proof.
  revert acc g. induction indices as [|i rest IH]; intros acc g; simpl.
  { exists [], g. rewrite app_nil_r. split; [reflexivity|].
    split; [apply sameButRng_refl|]. split; [reflexivity|].
    intros _ _ _ _ _ p i c H. by rewrite lookup_nil in H. }
  do 3 mstep.
  set (c0 := HSL _ _ _). set (g3 := afterDraw (afterDraw (afterDraw g))).
  destruct (IH (acc ++ [c0]) g3) as (colors & g' & Hrun & Hsame & Hlen & Hok).
  exists (c0 :: colors), g'. split; [by rewrite Hrun, <- app_assoc|].
  split; [|split; [simpl; by rewrite Hlen|]].
  { eapply sameButRng_trans; [|exact Hsame]. repeat split. }
  intros Hunit Hs Hlo Hhi Hnom [|p] j c Hj Hc; simpl in *.
  - injection Hj as <-. injection Hc as <-.
    destruct (Hunit 0%nat) as [H0 H1], (Hunit 1%nat) as [H2 H3],
      (Hunit 2%nat) as [H4 H5].
    unfold colorOk, c0. simpl.
    split; [|split; [by apply saturation_range|by apply lightness_range]].
    destruct (hue_sum_near s hueStep (rng g 0%nat) i Hs Hlo Hhi
                (Hnom i ltac:(left)) H0 H1) as [Hh1 Hh2].
    apply js_rem_hue; lra.
  - apply (Hok (randomInUnit_afterDraw _ (randomInUnit_afterDraw _
             (randomInUnit_afterDraw _ Hunit))) Hs Hlo Hhi
             (λ i' Hi', Hnom i' ltac:(by right)) p j c Hj Hc).
Qed.

(** The step [360 / count] as the division returns it. *)
Lemma hueStep_near (count : nat) :
  (0 < count)%nat → Z.of_nat count ≤ 2 ^ 53 →
  let s := (360 / inject_Z (Z.of_nat count))%Q in
  (0 <= s)%Q ∧ (s - s * 2 ^ (-53) <= roundDouble s)%Q
  ∧ (roundDouble s <= s + s * 2 ^ (-53))%Q
  ∧ ∀ i, (i < count)%nat → (inject_Z (Z.of_nat i) * s <= 360)%Q.
Proof.
  intros Hpos Hmax s.
  assert (0 < inject_Z (Z.of_nat count))%Q as HC.
  { change 0%Q with (inject_Z 0). rewrite <- Zlt_Qlt. lia. }
  assert (inject_Z (Z.of_nat count) <= 2 ^ 53)%Q as HC53.
  { rewrite <- (pow2_inject 53) by lia. by rewrite <- Zle_Qle. }
  assert (2 ^ (-1022) <= s)%Q as Hnormal.
  { apply Qle_shift_div_l; [done|].
    assert (2 ^ (-1022) * 2 ^ 53 <= 360)%Q as H by (by vm_compute).
    pose proof (pow2_pos (-1022)). nra. }
  pose proof (pow2_pos (-1022)).
  split; [lra|]. destruct (roundDouble_rel s Hnormal) as [H1 H2].
  split; [done|]. split; [done|].
  intros i Hi.
  assert (0 <= inject_Z (Z.of_nat i))%Q as HI0.
  { change 0%Q with (inject_Z 0). rewrite <- Zle_Qle. lia. }
  assert (inject_Z (Z.of_nat i) <= inject_Z (Z.of_nat count))%Q as HI
    by (rewrite <- Zle_Qle; lia).
  unfold s. unfold Qdiv. rewrite Qmult_assoc.
  apply Qle_shift_div_r; [done|]. nra.
Qed.

Lemma pushedColors_run (count : nat) (g : Game) :
  ∃ colors g', pushedColors count g = Normal colors g'
    ∧ sameButRng g g'
    ∧ length colors = count
    ∧ (randomInUnit g → (0 < count)%nat → Z.of_nat count ≤ 2 ^ 53 →
         ∀ i c, colors !! i = Some c →
                colorOk (- hueTolerance) (30 + hueTolerance)
                  (360 / inject_Z (Z.of_nat count))%Q i c).
Proof.
  unfold pushedColors.
  destruct (colorLoop_run (360 / inject_Z (Z.of_nat count))%Q
              (roundDouble (360 / inject_Z (Z.of_nat count))%Q) (seq 0 count) [] g)
    as (colors & g' & Hrun & Hsame & Hlen & Hok).
  exists colors, g'. rewrite length_seq in Hlen.
  split; [done|]. split; [done|]. split; [done|].
  intros Hunit Hpos Hmax i c Hc.
  destruct (hueStep_near count Hpos Hmax) as (Hs & Hlo & Hhi & Hnom).
  eapply (Hok Hunit Hs Hlo Hhi); [| |done].
  - intros j Hj%elem_of_seq. apply Hnom. lia.
  - apply lookup_seq. split; [done|].
    rewrite <- Hlen. by eapply lookup_lt_Some.
Qed.

Lemma generateDistinctColors_run (count : nat) (g : Game) :
  ∃ colors g', generateDistinctColors count g = Normal colors g'
    ∧ sameButRng g g' ∧ length colors = count.
Proof.
  unfold generateDistinctColors.
  destruct (pushedColors_run count g) as (pushed & g1 & Hrun & Hsame & Hlen & _).
  rewrite (bind_Normal _ _ _ _ _ Hrun).
  destruct (array_sort_perm randomCompare randomCompare_quiet pushed g1)
    as (sorted & g2 & Hsort & Hperm & Hsame2).
  exists sorted, g2. split; [done|]. split.
  - by eapply sameButRng_trans.
  - by rewrite <- Hperm.
Qed.


(** ** The grid factory *)

Lemma length_concat_rows {A} (n : nat) (g : list (list A)) :
  Forall (λ row, length row = n) g → length (concat g) = (length g * n)%nat.
Proof.
  induction 1 as [|row g Hrow _ IH]; simpl; [reflexivity|].
  rewrite length_app, IH, Hrow. reflexivity.
Qed.

Lemma gridNumbers_fillGrid (n : nat) (cell : nat → nat → Tile) (k : nat) :
  (k < n * n)%nat →
  gridNumbers (fillGrid n cell) !! k
  = Some (number (cell (k / n)%nat (k mod n)%nat)).
Proof.
  intros Hk. assert (n ≠ 0)%nat by lia.
  pose proof (gridOfSize_fillGrid n cell) as Hg.
  rewrite (Nat.div_mod_eq k n) at 1. rewrite (Nat.mul_comm n).
  rewrite (gridNumbers_lookup n); [|done| |].
  - unfold numberAt. rewrite getCell_fillGrid; [done| |].
    + apply Nat.Div0.div_lt_upper_bound. lia.
    + by apply Nat.mod_upper_bound.
  - apply Nat.Div0.div_lt_upper_bound. lia.
  - by apply Nat.mod_upper_bound.
Qed.

Lemma gridNumbers_length (n : nat) (g : Grid) :
  gridOfSize n g → length (gridNumbers g) = (n * n)%nat.
Proof.
  intros Hg. unfold gridNumbers.
  rewrite length_map, (length_concat_rows n) by (by apply gridOfSize_rows).
  destruct Hg as [-> _]. reflexivity.
Qed.

Lemma gridNumbers_shuffled (n : nat) (colors : list Color) (shuffled : list Z) :
  length shuffled = (n * n)%nat →
  gridNumbers (fillGrid n (shuffledCell n colors shuffled)) = Some <$> shuffled.
Proof.
  intros Hlen. apply list_eq. intros k.
  destruct (decide (k < n * n)%nat) as [Hk|Hk].
  - rewrite gridNumbers_fillGrid by done. simpl.
    rewrite (Nat.mul_comm _ n), <- Nat.div_mod_eq.
    rewrite list_lookup_fmap.
    destruct (lookup_lt_is_Some_2 shuffled k) as [x ->]; [lia|]. reflexivity.
  - rewrite !lookup_ge_None_2; [done| |].
    + rewrite length_fmap. lia.
    + rewrite (gridNumbers_length n) by apply gridOfSize_fillGrid. lia.
Qed.

Lemma initializeGrid_run (cur : State) (g : Game) :
  ∃ colors shuffled g',
    initializeGrid cur g = Normal tt g'
    ∧ length colors = (gridSize cur * gridSize cur)%nat
    ∧ shuffled ≡ₚ oneTo (gridSize cur * gridSize cur)
    ∧ ui g' = withGrid (fillGrid (gridSize cur)
                          (shuffledCell (gridSize cur) colors shuffled))
                (withTargetGrid (fillGrid (gridSize cur)
                                   (targetCell (gridSize cur) colors)) (ui g))
    ∧ pendingTimeout g' = pendingTimeout g ∧ out g' = out g.
Proof.
  unfold initializeGrid.
  destruct (generateDistinctColors_run (gridSize cur * gridSize cur) g)
    as (colors & g1 & Hcol & (Eu1 & Ep1 & Eo1 & _) & Hlen).
  rewrite (bind_Normal _ _ _ _ _ Hcol). mstep.
  set (g2 := overUi _ g1).
  destruct (array_sort_perm randomCompare randomCompare_quiet
              (oneTo (gridSize cur * gridSize cur)) g2)
    as (shuffled & g3 & Hsort & Hperm & (Eu3 & Ep3 & Eo3 & _)).
  rewrite (bind_Normal _ _ _ _ _ Hsort).
  exists colors, shuffled. eexists. split; [reflexivity|].
  split; [done|]. split; [done|]. simpl.
  rewrite Eu3, Ep3, Eo3. unfold g2. simpl. by rewrite Eu1, Ep1, Eo1.
Qed.

Lemma oneTo_length (size : nat) : length (oneTo size) = size.
Proof. unfold oneTo. by rewrite length_map, length_seq. Qed.

Lemma shuffled_grid_valid (n : nat) (colors : list Color) (shuffled : list Z) :
  shuffled ≡ₚ oneTo (n * n) →
  gridOfSize n (fillGrid n (shuffledCell n colors shuffled))
  ∧ eachNumberOnce n (fillGrid n (shuffledCell n colors shuffled)).
Proof.
  intros Hperm. split; [apply gridOfSize_fillGrid|].
  unfold eachNumberOnce. rewrite gridNumbers_shuffled.
  - by apply fmap_Permutation.
  - by rewrite Hperm, oneTo_length.
Qed.

(** [C4] For every grid size and every outcome of the random draws, the
    grid the grid factory builds holds each number of [1..size²] exactly
    once; and a press on a cell of a grid that does (whatever the press
    does: select, deselect or swap) leaves a grid that still does. *)
Theorem grid_holds_each_number_once (fresh g : Game) (row col : nat) :
  validBoard (ui g) → inGrid (gridSize (ui g)) (row, col) →
  (∃ fresh', initializeGrid (ui fresh) fresh = Normal tt fresh'
     ∧ gridOfSize (gridSize (ui fresh)) (grid (ui fresh'))
     ∧ gridNumbers (grid (ui fresh'))
       ≡ₚ map Some (oneTo (gridSize (ui fresh) * gridSize (ui fresh))))
  ∧ (∃ g', dispatch (PressTile row col) g = Normal tt g'
     ∧ gridOfSize (gridSize (ui g)) (grid (ui g'))
     ∧ gridNumbers (grid (ui g'))
       ≡ₚ map Some (oneTo (gridSize (ui g) * gridSize (ui g)))).
Proof.
  intros Hv Hin. split.
  - destruct (initializeGrid_run (ui fresh) fresh)
      as (colors & shuffled & fresh' & Hrun & _ & Hperm & Eu & _).
    exists fresh'. split; [done|]. rewrite Eu. simpl.
    by apply shuffled_grid_valid.
  - destruct (press_keeps_board g row col Hv Hin) as (g' & Hd & (Hg & Hp & _) & En).
    exists g'. split; [done|]. rewrite <- En. done.
Qed.

Lemma getCell_fillGrid_inv (n : nat) (cell : nat → nat → Tile) (i j : nat) (t : Tile) :
  getCell (fillGrid n cell) i j = Some t →
  (i < n)%nat ∧ (j < n)%nat ∧ t = cell i j.
Proof.
  intros H. destruct (decide (i < n)%nat) as [Hi|Hi]; cycle 1.
  { unfold getCell, fillGrid in H.
    rewrite lookup_ge_None_2 in H by (rewrite length_map, length_seq; lia).
    discriminate. }
  destruct (decide (j < n)%nat) as [Hj|Hj]; cycle 1.
  { unfold getCell, fillGrid, js_get in H.
    rewrite list_lookup_fmap, lookup_seq_lt in H by done. simpl in H.
    rewrite lookup_ge_None_2 in H by (rewrite length_map, length_seq; lia).
    discriminate. }
  rewrite getCell_fillGrid in H by done. by injection H as <-.
Qed.

(** [C8] In the grid the grid factory builds, every number [N] of
    [1..size²] is borne by a tile, in one cell only, and the tile bearing
    number [N] has the colour [colors[N - 1]], which is the colour of the
    tile bearing [N] in the target grid (there cell [(i, j)] has number
    [i * size + j + 1] and colour [colors[i * size + j]]): the colour
    follows the number, not the position the shuffle gave it. *)
Theorem color_follows_number (g : Game) :
  ∃ colors g',
    initializeGrid (ui g) g = Normal tt g'
    ∧ length colors = (gridSize (ui g) * gridSize (ui g))%nat
    ∧ (∀ i j, (i < gridSize (ui g))%nat → (j < gridSize (ui g))%nat →
         getCell (targetGrid (ui g')) i j
         = Some {| number := Some (Z.of_nat (i * gridSize (ui g) + j + 1));
                   color := colors !! (i * gridSize (ui g) + j)%nat |})
    ∧ (∀ N, 1 ≤ N ≤ Z.of_nat (gridSize (ui g) * gridSize (ui g)) →
         ∃ i j t,
           (i < gridSize (ui g))%nat ∧ (j < gridSize (ui g))%nat
           ∧ getCell (grid (ui g')) i j = Some t ∧ number t = Some N
           ∧ ∀ i' j' t', getCell (grid (ui g')) i' j' = Some t' →
                         number t' = Some N → i' = i ∧ j' = j)
    ∧ (∀ i j t N,
         getCell (grid (ui g')) i j = Some t → number t = Some N →
         1 ≤ N ≤ Z.of_nat (gridSize (ui g) * gridSize (ui g))
         ∧ color t = colors !! Z.to_nat (N - 1)
         ∧ is_Some (color t)
         ∧ ∃ t', getCell (targetGrid (ui g'))
                   (nthVisited (gridSize (ui g)) N).1
                   (nthVisited (gridSize (ui g)) N).2 = Some t'
                 ∧ number t' = Some N ∧ color t' = color t).
Proof.
  destruct (initializeGrid_run (ui g) g)
    as (colors & shuffled & g' & Hrun & Hlen & Hperm & Eu & _).
  set (n := gridSize (ui g)) in *.
  exists colors, g'. split; [done|]. split; [done|]. rewrite Eu. simpl.
  split; [|split].
  - intros i j Hi Hj. by rewrite getCell_fillGrid.
  - intros N HN.
    assert (N ∈ shuffled) as HNin by (rewrite Hperm; by apply oneTo_elem).
    apply list_elem_of_lookup_1 in HNin as [k Hk].
    assert (k < n * n)%nat as Hlt.
    { apply lookup_lt_Some in Hk. by rewrite Hperm, oneTo_length in Hk. }
    assert (n ≠ 0)%nat by lia.
    assert (k / n < n)%nat as Hi by (apply Nat.Div0.div_lt_upper_bound; lia).
    assert (k mod n < n)%nat as Hj by (by apply Nat.mod_upper_bound).
    assert (k / n * n + k mod n = k)%nat as Ek
      by (rewrite (Nat.mul_comm _ n); symmetry; apply Nat.div_mod_eq).
    exists (k / n)%nat, (k mod n)%nat. eexists.
    split; [done|]. split; [done|].
    split; [by apply getCell_fillGrid|]. simpl. rewrite Ek.
    split; [done|].
    intros i' j' t' (Hi' & Hj' & ->)%getCell_fillGrid_inv Hnum. simpl in Hnum.
    assert (NoDup shuffled) as Hnodup by (rewrite Hperm; apply oneTo_NoDup).
    pose proof (NoDup_lookup _ _ _ _ Hnodup Hnum Hk) as <-.
    destruct (flat_div n i' j' Hj') as [-> ->]. done.
  - intros i j t N Ht HN.
    apply getCell_fillGrid_inv in Ht as (Hi & Hj & ->). simpl in *.
    assert (N ∈ oneTo (n * n)) as HNin.
    { rewrite <- Hperm. by eapply list_elem_of_lookup_2. }
    apply oneTo_elem in HNin.
    assert (n ≠ 0)%nat by lia.
    assert (Z.to_nat (N - 1) < n * n)%nat as Hk by lia.
    split; [done|]. rewrite HN. simpl. unfold js_index.
    rewrite decide_False by lia.
    split; [done|]. split; [apply lookup_lt_is_Some_2; lia|].
    unfold nthVisited. simpl. eexists.
    rewrite getCell_fillGrid;
      [|apply Nat.Div0.div_lt_upper_bound; lia|by apply Nat.mod_upper_bound].
    split; [reflexivity|]. simpl.
    rewrite (Nat.mul_comm _ n), <- Nat.div_mod_eq. split; [f_equal; lia|done].
Qed.

(** ** Session start *)

Lemma getTimeLimit_table :
  getTimeLimit 3 = Some 30 ∧ getTimeLimit 4 = Some 60
  ∧ getTimeLimit 5 = Some 90 ∧ getTimeLimit 6 = Some 120.
Proof. by vm_compute. Qed.

Lemma getTimeLimit_cases (n : nat) :
  getTimeLimit n =
  match n with
  | 3%nat => Some 30 | 4%nat => Some 60 | 5%nat => Some 90 | 6%nat => Some 120
  | _ => None
  end.
Proof.
  do 7 (destruct n as [|n]; [by vm_compute|]).
  unfold getTimeLimit, timeLimits.
  rewrite !lookup_insert_ne by lia. apply lookup_singleton_ne. lia.
Qed.

Lemma getTimeLimit_positive (n : nat) (t : Z) : getTimeLimit n = Some t → t > 0.
Proof.
  rewrite getTimeLimit_cases.
  do 7 (destruct n as [|n]; [intros [=]; lia|]). done.
Qed.

(** Rendering again leaves the state alone unless the clock has run out. *)
Lemma rerender_keeps_ui (k : nat) (prev : State) (g : Game) :
  (gameState (ui g) = Playing → timeLeft (ui g) ≠ Some 0) →
  ∃ g', rerender (S k) prev g = Normal tt g' ∧ ui g' = ui g ∧ out g' = out g.
Proof.
  intros Hclock. rewrite rerender_step.
  destruct (decide (depsChanged prev (ui g))); [|by exists g].
  rewrite bind_run.
  destruct (timerEffect_cases (ui g) (withPendingTimeout None g))
    as [(t & Hp1 & Et & Hpos & E)|[(Hp1 & Et & E)|E]]; rewrite E.
  - rewrite rerender_unchanged by apply depsChanged_refl. by eexists.
  - by destruct (Hclock Hp1).
  - rewrite rerender_unchanged by apply depsChanged_refl. by eexists.
Qed.

Lemma startGame_rejected (cur : State) (g : Game) :
  trim (playerName cur) = [] →
  startGame cur g = Normal tt (withSignal AlertNameRequired g).
Proof. intros H. unfold startGame. by rewrite decide_True. Qed.

Lemma startGame_accepted (g : Game) :
  trim (playerName (ui g)) ≠ [] →
  ∃ colors shuffled g',
    startGame (ui g) g = Normal tt g'
    ∧ length colors = (gridSize (ui g) * gridSize (ui g))%nat
    ∧ shuffled ≡ₚ oneTo (gridSize (ui g) * gridSize (ui g))
    ∧ ui g' = startedState (ui g) colors shuffled
    ∧ out g' = out g ++ [SavePlayerName (playerName (ui g))].
Proof.
  intros H. unfold startGame. rewrite decide_False by done.
  unfold savePlayerName. do 5 mstep.
  set (g5 := overUi _ _).
  destruct (initializeGrid_run (ui g) g5)
    as (colors & shuffled & g' & Hrun & Hlen & Hperm & Eu & _ & Eo).
  exists colors, shuffled, g'. rewrite Hrun, Eu, Eo. done.
Qed.

(** An accepted start sets the clock going. *)
Lemma start_sets_clock (g : Game) (t : Z) :
  gameState (ui g) ≠ Playing → trim (playerName (ui g)) ≠ [] →
  getTimeLimit (gridSize (ui g)) = Some t →
  ∃ g', dispatch StartGame g = Normal tt g'
        ∧ gameState (ui g') = Playing ∧ timeLeft (ui g') = Some t
        ∧ pendingTimeout g' = Some t.
Proof.
  intros Hp Hname Hlimit.
  destruct (startGame_accepted g Hname)
    as (colors & shuffled & g1 & Hrun & _ & _ & Eu & _).
  unfold dispatch. rewrite bind_run. simpl handler. rewrite Hrun.
  rewrite rerender_step, decide_True; cycle 1.
  { right. rewrite Eu. simpl. congruence. }
  assert (timerEffect (ui g1) (withPendingTimeout None g1)
          = Normal tt (withPendingTimeout (Some t) (withPendingTimeout None g1)))
    as E.
  { unfold timerEffect. rewrite Eu. simpl. rewrite Hlimit.
    by rewrite decide_True by (split; [done|by eapply getTimeLimit_positive]). }
  rewrite bind_run, E, rerender_unchanged by apply depsChanged_refl.
  eexists. split; [reflexivity|]. simpl. rewrite Eu. simpl. done.
Qed.

(** [C7] [startGame] with a name that is empty once trimmed raises the
    "name required" alert and changes nothing else: phase, move counter,
    clock, selection and grid are as before.  With any other name the phase
    becomes [Playing], the move counter is 0, the selection is cleared, the
    clock shows the limit of the chosen size (3→30, 4→60, 5→90, 6→120) and
    grid and target grid are freshly built by the grid factory. *)
Theorem startGame_requires_name (g : Game) :
  ∃ g', dispatch StartGame g = Normal tt g'
    ∧ ((trim (playerName (ui g)) = []
        ∧ ui g' = ui g ∧ pendingTimeout g' = pendingTimeout g
        ∧ out g' = out g ++ [AlertNameRequired])
       ∨ (trim (playerName (ui g)) ≠ []
          ∧ ∃ colors shuffled,
              length colors = (gridSize (ui g) * gridSize (ui g))%nat
              ∧ shuffled ≡ₚ oneTo (gridSize (ui g) * gridSize (ui g))
              ∧ ui g' = startedState (ui g) colors shuffled
              ∧ gameState (ui g') = Playing ∧ moves (ui g') = 0
              ∧ selectedTile (ui g') = None
              ∧ timeLeft (ui g') = getTimeLimit (gridSize (ui g))))
    ∧ (getTimeLimit 3 = Some 30 ∧ getTimeLimit 4 = Some 60
       ∧ getTimeLimit 5 = Some 90 ∧ getTimeLimit 6 = Some 120).
Proof.
  destruct (decide (trim (playerName (ui g)) = [])) as [Hempty|Hname].
  - exists (withSignal AlertNameRequired g).
    split; [|split; [by left|apply getTimeLimit_table]].
    apply dispatch_quiet; [by apply startGame_rejected|apply depsChanged_refl].
  - destruct (startGame_accepted g Hname)
      as (colors & shuffled & g1 & Hrun & Hlen & Hperm & Eu & Eo).
    destruct (rerender_keeps_ui 1 (ui g) g1) as (g' & Hre & Eu' & Eo').
    { rewrite Eu. simpl. intros _ Hzero.
      apply getTimeLimit_positive in Hzero. lia. }
    exists g'. split; [|split; [right|apply getTimeLimit_table]].
    + unfold dispatch. rewrite bind_run. simpl. by rewrite Hrun.
    + split; [done|]. exists colors, shuffled. rewrite Eu', Eu. done.
Qed.

(** ** The ledger *)

Lemma StronglySorted_take {A} (R : A → A → Prop) (n : nat) (l : list A) :
  StronglySorted R l → StronglySorted R (take n l).
Proof.
  intros H. revert n. induction H as [|x l Hs IH Hx]; intros [|n]; simpl;
    try constructor; [apply IH|].
  by apply Forall_take.
Qed.

(** [C5] After [handleWin] the list stored under the key of the current
    size is the first 5 entries of the old list with the new result
    appended, sorted by ascending moves with ties in their original order:
    it is sorted and has at most 5 entries.  Six wins with moves
    10, 3, 7, 1, 9, 5 recorded on an empty ledger leave 1, 3, 5, 7, 9. *)
Theorem recorded_wins_sorted_top5 (cur : State) (g : Game) :
  ∃ g' stored sorted,
    handleWin cur g = Normal tt g'
    ∧ highScores (ui g') !! scoreKeyOf (gridSize cur) = Some stored
    ∧ stored = take 5 sorted
    ∧ sorted ≡ₚ default [] (highScores cur !! scoreKeyOf (gridSize cur))
                 ++ [newScoreOf cur (today g)]
    ∧ StronglySorted (keyLe Score.moves) sorted
    ∧ (∀ m, filter (λ r, Score.moves r = m) sorted
            = filter (λ r, Score.moves r = m)
                (default [] (highScores cur !! scoreKeyOf (gridSize cur))
                 ++ [newScoreOf cur (today g)]))
    ∧ StronglySorted (keyLe Score.moves) stored
    ∧ (length stored ≤ 5)%nat
    ∧ ∃ g6, winsWith [10; 3; 7; 1; 9; 5] (initialGame (λ _, 0%Q) []) = Normal tt g6
            ∧ storedMoves g6 "3x3" = Some [1; 3; 5; 7; 9].
Proof.
  set (old := default [] (highScores cur !! scoreKeyOf (gridSize cur))).
  exists (wonGame cur g), (take 5 (sortByKey Score.moves (old ++ [newScoreOf cur (today g)]))),
    (sortByKey Score.moves (old ++ [newScoreOf cur (today g)])).
  split; [apply handleWin_run|].
  split; [rewrite wonGame_ui; apply lookup_insert_eq|].
  split; [done|]. split; [apply sortByKey_perm|].
  split; [apply sortByKey_sorted|]. split; [intros m; apply sortByKey_stable|].
  split; [apply StronglySorted_take, sortByKey_sorted|].
  split; [rewrite length_take; lia|].
  eexists. split; [by vm_compute|]. by vm_compute.
Qed.

(** [X7] On a winning swap the entry appended to the ledger carries the move
    counter of the render in which the tile was pressed, that is the number
    of swaps before this one, while the counter itself goes up by one; its
    time remaining is the clock of that render. *)
Lemma winning_swap_records_moves_before_it (g : Game) (row col : nat)
  (sel : nat * nat) :
  swapsWith (ui g) row col sel →
  gridOfSize (gridSize (ui g)) (grid (ui g)) →
  inGrid (gridSize (ui g)) (row, col) → inGrid (gridSize (ui g)) sel →
  ascending (gridSize (ui g)) (swapCells (grid (ui g)) (row, col) sel) →
  ∃ g', dispatch (PressTile row col) g = Normal tt g'
    ∧ gameState (ui g') = Won
    ∧ moves (ui g') = moves (ui g) + 1
    ∧ highScores (ui g') = recordWin (ui g) (today g)
    ∧ Score.moves (newScoreOf (ui g) (today g)) = moves (ui g)
    ∧ Score.timeRemaining (newScoreOf (ui g) (today g)) = timeLeft (ui g).
Proof.
  intros Hsw Hg Hin Hsel Hasc.
  rewrite (dispatch_press_swap g row col sel) by done.
  apply solved_ascending in Hasc. rewrite Hasc.
  eexists. split; [reflexivity|]. rewrite wonGame_ui. done.
Qed.

(** [C6] While the phase is [Playing], with the clock at [t > 0] and its
    timeout pending: after [k] ticks the clock shows [max 0 (t - k)], so each
    tick takes exactly one second off and the clock never goes below 0; the
    phase is [Playing] before the [t]-th tick and [GameOver] from it on, and
    the end has been announced exactly once however many ticks follow, a
    further tick changing nothing.  And whatever event takes the phase out of
    [Playing], a tick after it changes nothing. *)
Theorem clock_counts_down_once (g : Game) (t : Z) :
  gameState (ui g) = Playing → timeLeft (ui g) = Some t → 0 < t →
  pendingTimeout g = Some t →
  (∀ k : nat, ∃ g',
      run (replicate k Tick) g = Normal tt g'
      ∧ timeLeft (ui g') = Some (Z.max 0 (t - Z.of_nat k))
      ∧ (Z.of_nat k < t →
           gameState (ui g') = Playing
           ∧ gameOvers (out g') = gameOvers (out g))
      ∧ (t ≤ Z.of_nat k →
           gameState (ui g') = GameOver
           ∧ gameOvers (out g') = S (gameOvers (out g))
           ∧ dispatch Tick g' = Normal tt g'))
  ∧ (∀ ev g', dispatch ev g = Normal tt g' → gameState (ui g') ≠ Playing →
       dispatch Tick g' = Normal tt g').
Proof.
  intros Hp Ht Hpos Hpend. split.
  - intros k.
    destruct (ticks_count_down k g t Hp Ht Hpos Hpend)
      as (g' & Hrun & Htime & Hbefore & Hafter).
    exists g'. split; [done|]. split; [done|]. split.
    + intros Hk. by destruct (Hbefore Hk) as (? & _ & ?).
    + intros Hk. destruct (Hafter Hk) as (? & ? & ?).
      split; [done|]. split; [done|]. by apply tick_idle.
  - intros ev g' Hd Hleft. apply tick_idle.
    by eapply leaving_Playing_clears_timeout.
Qed.

(** * The claims on concrete games *)

Lemma nearSolved3_valid :
  gridOfSize 3 nearSolved3 ∧ eachNumberOnce 3 nearSolved3.
Proof.
  apply shuffled_grid_valid. vm_compute. do 7 constructor. apply perm_swap.
Qed.

Lemma nearSolvedGame_valid : validBoard (ui nearSolvedGame).
Proof.
  destruct nearSolved3_valid as [Hg Hp]. split; [exact Hg|]. split; [exact Hp|].
  intros sel [=].
Qed.

Lemma nearSolvedSelected_valid : validBoard (ui nearSolvedSelected).
Proof.
  destruct nearSolved3_valid as [Hg Hp]. split; [exact Hg|]. split; [exact Hp|].
  intros sel [= <-]. split; simpl; lia.
Qed.

Lemma nearSolvedGame_randomInUnit : randomInUnit nearSolvedGame.
Proof. intros k. split; by vm_compute. Qed.

(** [C1] (what the code does in the end-to-end scenario) Ava starts a
    3 × 3 game; the shuffle leaves only the last two tiles exchanged; after
    one second she selects one of them and presses the other.  The session
    is [Won], the move counter shows 1 and the clock 29, but the result
    appended under ["3x3"] has [moves = 0]: [handleWin] reads the counter of
    the render in which the press happened, before [setMoves(moves + 1)]
    takes effect. *)
Theorem endToEnd_win_recorded_with_zero_moves :
  ∃ started won,
    run [SplashDone; TypeName (codeUnits "Ava"); StartGame] e2eGame
      = Normal tt started
    ∧ gameState (ui started) = Playing
    ∧ timeLeft (ui started) = Some 30
    ∧ pendingTimeout started = Some 30
    ∧ gridNumbers (grid (ui started)) = Some <$> [1; 2; 3; 4; 5; 6; 7; 9; 8]
    ∧ run [Tick; PressTile 2 1; PressTile 2 2] started = Normal tt won
    ∧ gameState (ui won) = Won
    ∧ moves (ui won) = 1
    ∧ timeLeft (ui won) = Some 29
    ∧ highScores (ui won) !! "3x3"
      = Some [{| Score.name := codeUnits "Ava"; Score.moves := 0;
                 Score.timeRemaining := Some 29;
                 Score.date := codeUnits "11/2/2026" |}]
    ∧ last (out won) = Some (AlertCongratulations 0 (Some 29)).
Proof.
  do 2 eexists. split; [by vm_compute|].
  do 4 (split; [by vm_compute|]).
  split; [by vm_compute|].
  repeat split; by vm_compute.
Qed.

(** The win check on the near-solved grid. *)
Lemma checkWin_iff_ascending_witness :
  gridOfSize (gridSize nearSolvedState) nearSolved3
  ∧ (∃ b : bool, checkWin nearSolvedState nearSolved3 nearSolvedGame
                 = Normal b nearSolvedGame)
  ∧ (checkWin nearSolvedState nearSolved3 nearSolvedGame
       = Normal true nearSolvedGame
     ↔ ascending (gridSize nearSolvedState) nearSolved3).
Proof.
  assert (gridOfSize (gridSize nearSolvedState) nearSolved3) as Hg
    by apply gridOfSize_fillGrid.
  split; [exact Hg|].
  destruct (checkWin_iff_ascending nearSolvedState nearSolved3 nearSolvedGame Hg)
    as (Hret & Hiff & _).
  exact (conj Hret Hiff).
Defined.

(** A press on the neighbour of the selected tile of the near-solved grid. *)
Lemma press_swaps_iff_adjacent_witness :
  validBoard (ui nearSolvedSelected)
  ∧ inGrid (gridSize (ui nearSolvedSelected)) (2%nat, 2%nat)
  ∧ ∃ g', dispatch (PressTile 2 2) nearSolvedSelected = Normal tt g'
      ∧ ((grid (ui g') ≠ grid (ui nearSolvedSelected)
          ∧ moves (ui g') = moves (ui nearSolvedSelected) + 1)
         ↔ ∃ sel, swapsWith (ui nearSolvedSelected) 2 2 sel).
Proof.
  assert (inGrid (gridSize (ui nearSolvedSelected)) (2%nat, 2%nat)) as Hin
    by (split; simpl; lia).
  split; [exact nearSolvedSelected_valid|]. split; [exact Hin|].
  destruct (press_swaps_iff_adjacent nearSolvedSelected 2 2
              nearSolvedSelected_valid Hin) as (g' & Hd & Hiff & _).
  exists g'. exact (conj Hd Hiff).
Defined.

(** The grid factory on the end-to-end game and a press on the near-solved
    grid. *)
Lemma grid_holds_each_number_once_witness :
  validBoard (ui nearSolvedSelected)
  ∧ inGrid (gridSize (ui nearSolvedSelected)) (2%nat, 2%nat)
  ∧ (∃ fresh', initializeGrid (ui e2eGame) e2eGame = Normal tt fresh'
       ∧ gridOfSize (gridSize (ui e2eGame)) (grid (ui fresh'))
       ∧ gridNumbers (grid (ui fresh'))
         ≡ₚ map Some (oneTo (gridSize (ui e2eGame) * gridSize (ui e2eGame))))
  ∧ (∃ g', dispatch (PressTile 2 2) nearSolvedSelected = Normal tt g'
       ∧ gridOfSize (gridSize (ui nearSolvedSelected)) (grid (ui g'))
       ∧ gridNumbers (grid (ui g'))
         ≡ₚ map Some (oneTo (gridSize (ui nearSolvedSelected)
                              * gridSize (ui nearSolvedSelected)))).
Proof.
  assert (inGrid (gridSize (ui nearSolvedSelected)) (2%nat, 2%nat)) as Hin
    by (split; simpl; lia).
  split; [exact nearSolvedSelected_valid|]. split; [exact Hin|].
  exact (grid_holds_each_number_once e2eGame nearSolvedSelected 2 2
           nearSolvedSelected_valid Hin).
Defined.

(** The clock of the near-solved session, 29 seconds from the end. *)
Lemma clock_counts_down_once_witness :
  gameState (ui nearSolvedGame) = Playing
  ∧ timeLeft (ui nearSolvedGame) = Some 29
  ∧ 0 < 29
  ∧ pendingTimeout nearSolvedGame = Some 29
  ∧ ∀ k : nat, ∃ g',
      run (replicate k Tick) nearSolvedGame = Normal tt g'
      ∧ timeLeft (ui g') = Some (Z.max 0 (29 - Z.of_nat k))
      ∧ (Z.of_nat k < 29 →
           gameState (ui g') = Playing
           ∧ gameOvers (out g') = gameOvers (out nearSolvedGame))
      ∧ (29 ≤ Z.of_nat k →
           gameState (ui g') = GameOver
           ∧ gameOvers (out g') = S (gameOvers (out nearSolvedGame))
           ∧ dispatch Tick g' = Normal tt g').
Proof.
  split; [reflexivity|]. split; [reflexivity|]. split; [lia|].
  split; [reflexivity|].
  exact (proj1 (clock_counts_down_once nearSolvedGame 29
                  eq_refl eq_refl ltac:(lia) eq_refl)).
Defined.



(** The first two tiles of the near-solved grid, swapped and swapped back. *)
Lemma swap_twice_restores_grid_witness :
  gameState (ui nearSolvedGame) = Playing
  ∧ selectedTile (ui nearSolvedGame) = None
  ∧ gridOfSize (gridSize (ui nearSolvedGame)) (grid (ui nearSolvedGame))
  ∧ inGrid (gridSize (ui nearSolvedGame)) (0%nat, 0%nat)
  ∧ inGrid (gridSize (ui nearSolvedGame)) (0%nat, 1%nat)
  ∧ orthogonal (0%nat, 0%nat) (0%nat, 1%nat)
  ∧ ¬ ascending (gridSize (ui nearSolvedGame))
        (swapCells (grid (ui nearSolvedGame)) (0%nat, 1%nat) (0%nat, 0%nat))
  ∧ ∃ g', run [PressTile 0 0; PressTile 0 1; PressTile 0 0; PressTile 0 1]
            nearSolvedGame = Normal tt g'
          ∧ grid (ui g') = grid (ui nearSolvedGame)
          ∧ moves (ui g') = moves (ui nearSolvedGame) + 2.
Proof.
  assert (gridOfSize (gridSize (ui nearSolvedGame)) (grid (ui nearSolvedGame)))
    as Hg by apply gridOfSize_fillGrid.
  assert (inGrid (gridSize (ui nearSolvedGame)) (0%nat, 0%nat)) as Ha
    by (split; simpl; lia).
  assert (inGrid (gridSize (ui nearSolvedGame)) (0%nat, 1%nat)) as Hb
    by (split; simpl; lia).
  assert (orthogonal (0%nat, 0%nat) (0%nat, 1%nat)) as Hadj
    by (right; simpl; lia).
  assert (¬ ascending (gridSize (ui nearSolvedGame))
            (swapCells (grid (ui nearSolvedGame)) (0%nat, 1%nat) (0%nat, 0%nat)))
    as Hnot.
  { intros H%solved_ascending. vm_compute in H. discriminate. }
  split; [reflexivity|]. split; [reflexivity|]. split; [exact Hg|].
  split; [exact Ha|]. split; [exact Hb|]. split; [exact Hadj|].
  split; [exact Hnot|].
  exact (swap_twice_restores_grid nearSolvedGame (0%nat, 0%nat) (0%nat, 1%nat)
           eq_refl eq_refl Hg Ha Hb Hadj Hnot).
Defined.

(** [C10, as stated] On the near-solved grid the first swap of the last two
    tiles completes the order: the session is won, the two further presses
    are ignored, the grid stays solved and the counter has gone up by 1. *)
Lemma swap_twice_counterexample :
  gameState (ui nearSolvedGame) = Playing
  ∧ inGrid (gridSize (ui nearSolvedGame)) (2%nat, 1%nat)
  ∧ inGrid (gridSize (ui nearSolvedGame)) (2%nat, 2%nat)
  ∧ orthogonal (2%nat, 1%nat) (2%nat, 2%nat)
  ∧ ∃ g', run [PressTile 2 1; PressTile 2 2; PressTile 2 1; PressTile 2 2]
            nearSolvedGame = Normal tt g'
          ∧ gameState (ui g') = Won
          ∧ grid (ui g') ≠ grid (ui nearSolvedGame)
          ∧ moves (ui g') = moves (ui nearSolvedGame) + 1
          ∧ moves (ui g') ≠ moves (ui nearSolvedGame) + 2.
Proof.
  split; [reflexivity|]. split; [split; simpl; lia|].
  split; [split; simpl; lia|]. split; [right; simpl; lia|].
  eexists. split; [by vm_compute|].
  split; [by vm_compute|]. split; [|split; by vm_compute].
  intros H. apply (f_equal gridNumbers) in H. vm_compute in H. discriminate.
Qed.

(** * The component over a whole session *)

(** ** One event on a sound game *)

Lemma getCell_inGrid (n : nat) (g : Grid) (i j : nat) :
  gridOfSize n g → is_Some (getCell g i j) → inGrid n (i, j).
Proof.
  intros [Hlen Hrows] [t Ht]. unfold getCell in Ht.
  destruct (g !! i) as [row|] eqn:Hrow; [|discriminate]. simpl in Ht.
  unfold js_get in Ht.
  destruct (row !! j) as [c|] eqn:Hc; [|discriminate].
  rewrite Forall_forall in Hrows.
  destruct (Hrows row) as [Hl _]; [by eapply list_elem_of_lookup_2|].
  split; simpl.
  - rewrite <- Hlen. by eapply lookup_lt_Some.
  - rewrite <- Hl. by eapply lookup_lt_Some.
Qed.

Lemma withSound_ui (cur : State) (s : Sound) (g : Game) :
  ui (withSound cur s g) = ui g.
Proof. unfold withSound. by destruct (soundEnabled cur && _). Qed.

Lemma withSound_pending (cur : State) (s : Sound) (g : Game) :
  pendingTimeout (withSound cur s g) = pendingTimeout g.
Proof. unfold withSound. by destruct (soundEnabled cur && _). Qed.

Lemma withSound_today (cur : State) (s : Sound) (g : Game) :
  today (withSound cur s g) = today g.
Proof. unfold withSound. by destruct (soundEnabled cur && _). Qed.

Lemma wonGame_pending (cur : State) (g : Game) :
  pendingTimeout (wonGame cur g) = None.
Proof. unfold wonGame. simpl. by rewrite withSound_pending. Qed.

Lemma giveUp_run (cur : State) (g : Game) :
  giveUp cur g
  = Normal tt (overUi (withGameState Menu)
                 (withSound cur GameOverSound (withPendingTimeout None g))).
Proof. unfold giveUp. mstep. by rewrite bind_run, playSound_run. Qed.

Lemma supported_limit (n : nat) :
  n ∈ [3; 4; 5; 6]%nat → ∃ t, getTimeLimit n = Some t ∧ 0 < t ≤ 120.
Proof.
  rewrite !elem_of_cons, elem_of_nil.
  intros [->|[->|[->|[->|[]]]]]; eexists; (split; [by vm_compute|lia]).
Qed.

Lemma dispatch_start_accepted (g : Game) (t : Z) :
  gameState (ui g) ≠ Playing → trim (playerName (ui g)) ≠ [] →
  getTimeLimit (gridSize (ui g)) = Some t →
  ∃ colors shuffled g',
    dispatch StartGame g = Normal tt g'
    ∧ length colors = (gridSize (ui g) * gridSize (ui g))%nat
    ∧ shuffled ≡ₚ oneTo (gridSize (ui g) * gridSize (ui g))
    ∧ ui g' = startedState (ui g) colors shuffled
    ∧ pendingTimeout g' = Some t
    ∧ out g' = out g ++ [SavePlayerName (playerName (ui g))].
Proof.
  intros Hp Hname Hlimit.
  destruct (startGame_accepted g Hname)
    as (colors & shuffled & g1 & Hrun & Hlen & Hperm & Eu & Eo).
  exists colors, shuffled.
  unfold dispatch. rewrite bind_run. simpl handler. rewrite Hrun.
  rewrite rerender_step, decide_True; cycle 1.
  { right. rewrite Eu. simpl. congruence. }
  assert (timerEffect (ui g1) (withPendingTimeout None g1)
          = Normal tt (withPendingTimeout (Some t) (withPendingTimeout None g1)))
    as E.
  { unfold timerEffect. rewrite Eu. simpl. rewrite Hlimit.
    by rewrite decide_True by (split; [done|by eapply getTimeLimit_positive]). }
  rewrite bind_run, E, rerender_unchanged by apply depsChanged_refl.
  eexists. split; [reflexivity|]. simpl. by rewrite Eu.
Qed.

(** An offered event on a sound game completes, in one of the ways listed
    by [Outcome]. *)
Lemma dispatch_outcome (g : Game) (ev : Event) :
  engineOk g → offered g ev →
  ∃ g', dispatch ev g = Normal tt g' ∧ Outcome g ev g'.
Proof.
  intros (Hsize & Hboard & [Hplay Hidle] & Hmoves) Hoff.
  destruct ev as [|name|n| |row col| | | |]; simpl in Hoff.
  - (* SplashDone *)
    eexists. split; [|constructor].
    apply dispatch_idle; [reflexivity| |]; simpl.
    + done.
    + apply Hidle. by rewrite Hoff.
  - (* TypeName *)
    eexists. split; [|constructor].
    apply dispatch_quiet; [reflexivity|same_deps].
  - (* ChooseGridSize *)
    eexists. split; [|constructor].
    apply dispatch_quiet; [reflexivity|same_deps].
  - (* StartGame *)
    destruct (decide (trim (playerName (ui g)) = [])) as [Hempty|Hname].
    + eexists. split; [|by constructor].
      apply dispatch_quiet; [by apply startGame_rejected|apply depsChanged_refl].
    + destruct (supported_limit _ Hsize) as (t & Hlimit & _).
      destruct (dispatch_start_accepted g t) as
        (colors & shuffled & g' & Hd & Hlen & Hperm & Eu & Ep & Eo);
        [by rewrite Hoff|done|done|].
      exists g'. split; [done|]. by eapply start_accepted.
  - (* PressTile *)
    destruct Hoff as [Hscreen Hcell].
    destruct (decide (gameState (ui g) = Playing)) as [Hp|Hp]; cycle 1.
    { exists g. split; [by apply dispatch_press_ignored|by constructor]. }
    destruct (Hboard Hscreen) as (Hg & Hperm & Hsel).
    pose proof (getCell_inGrid _ _ _ _ Hg Hcell) as Hin.
    destruct (selectedTile (ui g)) as [sel|] eqn:Es; cycle 1.
    { eexists. split; [by apply dispatch_press_select|].
      constructor; [done|by right]. }
    destruct (decide (orthogonal (row, col) sel)) as [Hadj|Hadj]; cycle 1.
    { destruct (decide ((row, col) = sel)) as [<-|Hne].
      - eexists. split; [by apply dispatch_press_deselect|].
        constructor; [done|by left].
      - eexists. split; [by eapply dispatch_press_reselect|].
        constructor; [done|by right]. }
    assert (swapsWith (ui g) row col sel) as Hsw by done.
    pose proof (Hsel sel eq_refl) as Hinsel.
    eexists. split; [by apply dispatch_press_swap|].
    destruct (solved _ _) eqn:Esolved; by constructor.
  - (* Tick *)
    destruct (pendingTimeout g) as [t|] eqn:Ep; cycle 1.
    { exists g. split; [by apply tick_idle|by constructor]. }
    destruct (decide (gameState (ui g) = Playing)) as [Hp|Hp]; cycle 1.
    { destruct (Hidle Hp) as [? _]. congruence. }
    destruct (Hplay Hp) as (t' & limit & Et & _ & Hrange & Ep').
    assert (t' = t) as -> by congruence.
    destruct (decide (t = 1)) as [->|Hne].
    + destruct (tick_last g Hp Et Ep) as (g' & Hd & Eu & Ep1 & Eo).
      exists g'. split; [done|]. by eapply tick_times_out.
    + destruct (tick_decrements g t Hp Et Ep) as (g' & Hd & Eu & Ep1 & Eo); [lia|].
      exists g'. split; [done|]. eapply tick_counts; try done. lia.
  - (* GiveUp *)
    eexists. split; [|constructor].
    apply dispatch_idle; [apply giveUp_run| |]; cbn.
    + done.
    + by rewrite withSound_pending.
  - (* Acknowledge *)
    eexists. split; [|constructor].
    apply dispatch_idle; [reflexivity| |]; simpl.
    + done.
    + apply Hidle. destruct Hoff as [-> | ->]; done.
  - (* SoundsLoaded *)
    eexists. split; [|constructor].
    apply dispatch_quiet; [reflexivity|same_deps].
Qed.

Lemma validBoard_same_board (s s' : State) :
  gridSize s' = gridSize s → grid s' = grid s →
  selectedTile s' = selectedTile s → validBoard s → validBoard s'.
Proof. unfold validBoard. by intros -> -> ->. Qed.

(** The outcomes keep the game sound. *)
Lemma engineOk_menu (g h : Game) :
  engineOk g → gridSize (ui h) ∈ [3; 4; 5; 6]%nat → gameState (ui h) = Menu →
  timeLeft (ui h) = timeLeft (ui g) → pendingTimeout h = None →
  moves (ui h) = moves (ui g) → engineOk h.
Proof.
  intros (Hsize & Hboard & [Hplay Hidle] & Hmoves) Hn Ep Et Epend Em.
  unfold engineOk, clockOk, onGameScreen. rewrite Ep, Et, Epend, Em.
  split; [done|]. split; [by intros [_ ?]|]. split; [|done].
  split; [done|]. intros _. split; [done|].
  destruct (decide (gameState (ui g) = Playing)) as [Hp|Hp].
  - destruct (Hplay Hp) as (t & limit & -> & Hl & Hr & _).
    destruct (supported_limit _ Hsize) as (l' & Hl' & Hr').
    exists t. split; [done|]. assert (limit = l') by congruence. lia.
  - by destruct (Hidle Hp) as [_ ?].
Qed.

Lemma engineOk_same (g h : Game) :
  engineOk g →
  gridSize (ui h) = gridSize (ui g) → gameState (ui h) = gameState (ui g) →
  timeLeft (ui h) = timeLeft (ui g) → pendingTimeout h = pendingTimeout g →
  0 ≤ moves (ui h) →
  (onGameScreen (ui g) → validBoard (ui g) → validBoard (ui h)) →
  engineOk h.
Proof.
  intros (Hsize & Hboard & Hclock & Hmoves) En Ep Et Epend Em Hv.
  unfold engineOk, clockOk, onGameScreen in *. rewrite En, Ep, Et, Epend.
  split; [done|]. split; [|done]. intros Hs. apply Hv; [done|by apply Hboard].
Qed.

Lemma Outcome_keeps_engineOk (g : Game) (ev : Event) (g' : Game) :
  engineOk g → offered g ev → Outcome g ev g' → engineOk g'.
Proof.
  intros Hok Hoff Hout.
  pose proof Hok as (Hsize & Hboard & [Hplay Hidle] & Hmoves).
  destruct Hout as [|name|n|Hempty|colors shuffled t g' Hname Hlen Hperm Hlimit Eu Ep Eo
    |row col Hp|row col x Hp Hx|row col sel Hsw Hin Hinsel Hs
    |row col sel Hsw Hin Hinsel Hs|Hpend|t g' Hp Et Hlt Eu Ep Eo
    |g' Hp Et Eu Ep Eo| | |]; simpl in Hoff.
  - apply (engineOk_menu g); simpl; try done. apply Hidle. by rewrite Hoff.
  - apply (engineOk_same g); simpl; done.
  - destruct Hoff as [Hmenu Hn].
    apply (engineOk_menu g); simpl; try done. apply Hidle. by rewrite Hmenu.
  - apply (engineOk_same g); simpl; done.
  - unfold engineOk, clockOk, onGameScreen. rewrite Eu, Ep. simpl.
    split; [done|]. split; [|split; [|done]].
    + intros _. destruct (shuffled_grid_valid (gridSize (ui g)) colors shuffled Hperm).
      split; [done|]. split; [done|]. intros sel [=].
    + split; [|done]. intros _. exists t, t.
      pose proof (getTimeLimit_positive _ _ Hlimit). repeat split; try done; lia.
  - done.
  - destruct Hoff as [Hscreen Hcell].
    apply (engineOk_same g); simpl; try done.
    intros _ (Hg & Hperm & Hsel). split; [done|]. split; [done|]. simpl.
    intros sel Hsel'. destruct Hx as [->| ->]; [done|].
    injection Hsel' as <-. by eapply getCell_inGrid.
  - destruct Hoff as [Hscreen Hcell].
    apply (engineOk_same g); unfold swappedGame; simpl; try done; [lia|].
    intros _ Hv. by apply validBoard_swapped.
  - destruct Hoff as [Hscreen Hcell]. destruct Hsw as (Hp & _).
    unfold engineOk, clockOk, onGameScreen.
    rewrite wonGame_ui, wonGame_pending. unfold swappedGame. simpl.
    split; [done|]. split; [|split; [|lia]].
    + intros _.
      eapply validBoard_same_board;
        [| | |apply (validBoard_swapped (ui g) (row, col) sel (Hboard Hscreen) Hin Hinsel)];
        done.
    + split; [done|]. intros _. split; [done|].
      destruct (Hplay Hp) as (t & limit & -> & Hl & Hr & _).
      destruct (supported_limit _ Hsize) as (l' & Hl' & Hr').
      exists t. split; [done|]. assert (limit = l') by congruence. lia.
  - done.
  - destruct (Hplay Hp) as (t0 & limit & Et0 & Hl & Hr & _).
    assert (t0 = t) as -> by congruence.
    unfold engineOk, clockOk, onGameScreen. rewrite Eu, Ep. simpl.
    split; [done|]. split; [|split; [|done]].
    + intros Hs. by apply (validBoard_same_board (ui g)), Hboard.
    + split; [|done]. intros _. exists (t - 1), limit. repeat split; try done; lia.
  - unfold engineOk, clockOk, onGameScreen. rewrite Eu, Ep. simpl.
    split; [done|]. split; [|split; [|done]].
    + intros _. apply (validBoard_same_board (ui g)); try done.
      apply Hboard. split; by rewrite Hp.
    + split; [done|]. intros _. split; [done|]. exists 0. split; [done|lia].
  - apply (engineOk_menu g); cbn;
      rewrite ?withSound_ui, ?withSound_pending; done.
  - apply (engineOk_menu g); simpl; try done.
    apply Hidle. destruct Hoff as [-> | ->]; done.
  - apply (engineOk_same g); simpl; done.
Qed.

(** ** Whole sessions *)

Lemma bootGame_engineOk scores name sound random date :
  engineOk (bootGame scores name sound random date).
Proof.
  unfold engineOk, clockOk, onGameScreen. simpl.
  split; [set_solver|]. split; [by intros [? _]|]. split; [|done].
  split; [done|]. intros _. split; [done|]. exists 30. split; [done|lia].
Qed.

Lemma steps_engineOk (g0 g : Game) : engineOk g0 → steps g0 g → engineOk g.
Proof.
  intros H0. induction 1 as [|g ev g' _ IH Hoff Hd]; [done|].
  destruct (dispatch_outcome g ev IH Hoff) as (g1 & Hd1 & Hout).
  assert (g1 = g') as -> by congruence.
  by eapply Outcome_keeps_engineOk.
Qed.

Lemma steps_trans (g0 g1 g2 : Game) : steps g0 g1 → steps g1 g2 → steps g0 g2.
Proof.
  intros H01. induction 1 as [|g ev g' _ IH Hoff Hd]; [done|].
  by eapply steps_next.
Qed.

Lemma steps_run (evs : list Event) (g0 g : Game) :
  run evs g0 = Normal tt g → offeredAlong evs g0 → steps g0 g.
Proof.
  revert g0. induction evs as [|ev evs IH]; intros g0 Hrun Hoff; simpl in *.
  - injection Hrun as <-. constructor.
  - destruct Hoff as [Hoff Hrest]. unfold gameAfter in Hrest. simpl in Hrest.
    rewrite bind_run in Hrun, Hrest.
    destruct (dispatch ev g0) as [[] g1|g1] eqn:Hd; [|discriminate].
    eapply steps_trans; [|by apply IH].
    eapply steps_next; [constructor|done|done].
Qed.

Lemma e2eStarted_steps : steps e2eGame e2eStarted.
Proof.
  apply (steps_run [SplashDone; TypeName (codeUnits "Ava"); StartGame]).
  - by vm_compute.
  - by vm_compute.
Qed.

Lemma e2eSelected_steps : steps e2eGame e2eSelected.
Proof.
  eapply steps_trans; [apply e2eStarted_steps|].
  apply (steps_run [Tick; PressTile 2 1]).
  - by vm_compute.
  - vm_compute. repeat split; try done. by eexists.
Qed.

Lemma e2eSelected_offers_press : offered e2eSelected (PressTile 2 2).
Proof. vm_compute. repeat split; try done. by eexists. Qed.

(** The ledger an outcome leaves. *)
Lemma Outcome_ledger (g : Game) (ev : Event) (g' : Game) :
  Outcome g ev g' →
  highScores (ui g') = highScores (ui g)
  ∨ (gameState (ui g) = Playing ∧ gameState (ui g') = Won
     ∧ (∃ row col, ev = PressTile row col)
     ∧ highScores (ui g') = recordWin (ui g) (today g)).
Proof.
  intros [|name|n|Hempty|colors shuffled t h Hname Hlen Hperm Hlimit Eu Ep Eo
    |row col Hp|row col x Hp Hx|row col sel Hsw Hin Hinsel Hs
    |row col sel Hsw Hin Hinsel Hs|Hpend|t h Hp Et Hlt Eu Ep Eo
    |h Hp Et Eu Ep Eo| | |]; try (by left); try (left; by rewrite Eu).
  - right. destruct Hsw as (Hp & _). rewrite wonGame_ui. simpl.
    split; [done|]. split; [done|]. split; [by eexists _, _|done].
  - left. cbn. by rewrite withSound_ui.
Qed.

Lemma recordWin_ledgerOk (cur : State) (d : JsString) :
  ledgerOk (highScores cur) → ledgerOk (recordWin cur d).
Proof.
  intros Hok key l. unfold recordWin.
  destruct (decide (scoreKeyOf (gridSize cur) = key)) as [<-|Hne].
  - rewrite lookup_insert_eq. intros [= <-]. split.
    + apply StronglySorted_take, sortByKey_sorted.
    + rewrite length_take. lia.
  - rewrite lookup_insert_ne by done. apply Hok.
Qed.

Lemma Outcome_phase (g : Game) (ev : Event) (g' : Game) :
  offered g ev → Outcome g ev g' →
  phaseChange (gameState (ui g)) (gameState (ui g')).
Proof.
  intros Hoff Hout.
  destruct Hout as [|name|n|Hempty|colors shuffled t h Hname Hlen Hperm Hlimit Eu Ep Eo
    |row col Hp|row col x Hp Hx|row col sel Hsw Hin Hinsel Hs
    |row col sel Hsw Hin Hinsel Hs|Hpend|t h Hp Et Hlt Eu Ep Eo
    |h Hp Et Eu Ep Eo| | |]; simpl in Hoff; unfold phaseChange;
    rewrite ?Eu, ?wonGame_ui; cbn; rewrite ?withSound_ui; cbn;
    try (by left).
  - rewrite Hoff. by right.
  - rewrite Hoff. by right.
  - destruct Hsw as (-> & _). by right.
  - rewrite Hp. by right.
  - destruct Hoff as [H1 H2]. destruct (gameState (ui g)); try done; by right.
  - destruct Hoff as [-> | ->]; by right.
Qed.

(** ** What holds of every session *)

(** [X1] From start-up, whatever was loaded from storage and whatever the
    random draws, no event the screens offer throws: the handler and the
    render after it complete. *)
Theorem offered_events_never_throw scores name sound random date
  (g : Game) (ev : Event) :
  steps (bootGame scores name sound random date) g → offered g ev →
  ∃ g', dispatch ev g = Normal tt g'.
Proof.
  intros Hsteps Hoff.
  pose proof (steps_engineOk _ _ (bootGame_engineOk _ _ _ _ _) Hsteps) as Hok.
  destruct (dispatch_outcome g ev Hok Hoff) as (g' & Hd & _). by exists g'.
Qed.

(** [X2] Whenever the game screen is shown the grid size is one of 3, 4, 5,
    6, the grid has that many rows and columns of tiles, holds each number of
    [1..size²] exactly once, and a selection, if any, points inside it. *)
Theorem game_screen_board_is_valid scores name sound random date (g : Game) :
  steps (bootGame scores name sound random date) g → onGameScreen (ui g) →
  gridSize (ui g) ∈ [3; 4; 5; 6]%nat
  ∧ gridOfSize (gridSize (ui g)) (grid (ui g))
  ∧ gridNumbers (grid (ui g))
    ≡ₚ map Some (oneTo (gridSize (ui g) * gridSize (ui g)))
  ∧ ∀ sel, selectedTile (ui g) = Some sel → inGrid (gridSize (ui g)) sel.
Proof.
  intros Hsteps Hscreen.
  destruct (steps_engineOk _ _ (bootGame_engineOk _ _ _ _ _) Hsteps)
    as (Hsize & Hboard & _).
  split; [done|]. exact (Hboard Hscreen).
Qed.

(** [X3] In every game reached, a timeout is pending exactly while the
    phase is [Playing]; then the clock shows between 1 and the limit of the
    size; in the other phases it shows a number from 0 to 120.  The clock is
    never negative and never undefined. *)
Theorem clock_agrees_with_phase scores name sound random date (g : Game) :
  steps (bootGame scores name sound random date) g →
  ∃ t, timeLeft (ui g) = Some t ∧ 0 ≤ t ≤ 120
       ∧ (gameState (ui g) = Playing →
            0 < t ∧ pendingTimeout g = Some t
            ∧ ∃ limit, getTimeLimit (gridSize (ui g)) = Some limit ∧ t ≤ limit)
       ∧ (gameState (ui g) ≠ Playing → pendingTimeout g = None).
Proof.
  intros Hsteps.
  destruct (steps_engineOk _ _ (bootGame_engineOk _ _ _ _ _) Hsteps)
    as (Hsize & _ & [Hplay Hidle] & _).
  destruct (decide (gameState (ui g) = Playing)) as [Hp|Hp].
  - destruct (Hplay Hp) as (t & limit & Et & Hl & Hr & Ep).
    destruct (supported_limit _ Hsize) as (l' & Hl' & Hr').
    assert (limit = l') as -> by congruence.
    exists t. split; [done|]. split; [lia|]. split; [|done].
    intros _. split; [lia|]. split; [done|]. exists l'. split; [done|lia].
  - destruct (Hidle Hp) as (Ep & t & Et & Hr).
    exists t. split; [done|]. split; [done|]. split; [done|]. done.
Qed.

(** [X4] The phase changes only along Splash → Menu, Menu → Playing,
    Playing → Won, Playing → GameOver, Playing → Menu (give up), Won → Menu
    and GameOver → Menu; every other offered event leaves the phase as it
    is.  In particular the splash screen never comes back, a game is only
    started from the menu and only a game being played is won or lost. *)
Theorem phase_changes_are_legal scores name sound random date
  (g : Game) (ev : Event) (g' : Game) :
  steps (bootGame scores name sound random date) g → offered g ev →
  dispatch ev g = Normal tt g' →
  phaseChange (gameState (ui g)) (gameState (ui g')).
Proof.
  intros Hsteps Hoff Hd.
  pose proof (steps_engineOk _ _ (bootGame_engineOk _ _ _ _ _) Hsteps) as Hok.
  destruct (dispatch_outcome g ev Hok Hoff) as (g1 & Hd1 & Hout).
  assert (g1 = g') as -> by congruence. by eapply Outcome_phase.
Qed.

(** [X5] The ledger changes only when a tile press takes the phase from
    [Playing] to [Won]; it then is the old ledger with the new result
    recorded.  Giving up, running out of time, starting a game and every
    other event leave all scores as they are. *)
Theorem score_recorded_only_on_win scores name sound random date
  (g : Game) (ev : Event) (g' : Game) :
  steps (bootGame scores name sound random date) g → offered g ev →
  dispatch ev g = Normal tt g' →
  highScores (ui g') = highScores (ui g)
  ∨ (gameState (ui g) = Playing ∧ gameState (ui g') = Won
     ∧ (∃ row col, ev = PressTile row col)
     ∧ highScores (ui g') = recordWin (ui g) (today g)).
Proof.
  intros Hsteps Hoff Hd.
  pose proof (steps_engineOk _ _ (bootGame_engineOk _ _ _ _ _) Hsteps) as Hok.
  destruct (dispatch_outcome g ev Hok Hoff) as (g1 & Hd1 & Hout).
  assert (g1 = g') as -> by congruence. by eapply Outcome_ledger.
Qed.

(** [X6] If every list loaded from storage is sorted by ascending moves and
    has at most 5 entries, so is every list of the ledger at any later time,
    whatever is played. *)
Theorem ledger_stays_sorted_top5 scores name sound random date (g : Game) :
  ledgerOk scores →
  steps (bootGame scores name sound random date) g →
  ledgerOk (highScores (ui g)).
Proof.
  intros Hscores. induction 1 as [|g ev g' Hsteps IH Hoff Hd]; [done|].
  pose proof (steps_engineOk _ _ (bootGame_engineOk _ _ _ _ _) Hsteps) as Hok.
  destruct (dispatch_outcome g ev Hok Hoff) as (g1 & Hd1 & Hout).
  assert (g1 = g') as -> by congruence.
  destruct (Outcome_ledger _ _ _ Hout) as [-> |(_ & _ & _ & ->)]; [done|].
  by apply recordWin_ledgerOk.
Qed.

(** ** The session properties on the end-to-end session *)

Lemma e2eWon_steps : steps e2eBoot e2eWon.
Proof.
  eapply steps_next; [apply e2eSelected_steps|apply e2eSelected_offers_press|].
  by vm_compute.
Qed.

(** The winning press of the end-to-end session. *)
Lemma offered_events_never_throw_witness :
  steps e2eBoot e2eSelected ∧ offered e2eSelected (PressTile 2 2)
  ∧ ∃ g', dispatch (PressTile 2 2) e2eSelected = Normal tt g'.
Proof.
  split; [exact e2eSelected_steps|]. split; [exact e2eSelected_offers_press|].
  exact (offered_events_never_throw ∅ [] false e2eRandom (codeUnits "11/2/2026")
           e2eSelected (PressTile 2 2) e2eSelected_steps e2eSelected_offers_press).
Defined.

(** The board of the end-to-end session with a tile selected. *)
Lemma game_screen_board_is_valid_witness :
  steps e2eBoot e2eSelected ∧ onGameScreen (ui e2eSelected)
  ∧ gridSize (ui e2eSelected) ∈ [3; 4; 5; 6]%nat
  ∧ gridOfSize (gridSize (ui e2eSelected)) (grid (ui e2eSelected))
  ∧ gridNumbers (grid (ui e2eSelected))
    ≡ₚ map Some (oneTo (gridSize (ui e2eSelected) * gridSize (ui e2eSelected)))
  ∧ ∀ sel, selectedTile (ui e2eSelected) = Some sel →
           inGrid (gridSize (ui e2eSelected)) sel.
Proof.
  assert (onGameScreen (ui e2eSelected)) as Hscreen by (by vm_compute).
  split; [exact e2eSelected_steps|]. split; [exact Hscreen|].
  exact (game_screen_board_is_valid ∅ [] false e2eRandom (codeUnits "11/2/2026")
           e2eSelected e2eSelected_steps Hscreen).
Defined.

(** The clock of the end-to-end session, one second after the start. *)
Lemma clock_agrees_with_phase_witness :
  steps e2eBoot e2eSelected
  ∧ ∃ t, timeLeft (ui e2eSelected) = Some t ∧ 0 ≤ t ≤ 120
         ∧ (gameState (ui e2eSelected) = Playing →
              0 < t ∧ pendingTimeout e2eSelected = Some t
              ∧ ∃ limit, getTimeLimit (gridSize (ui e2eSelected)) = Some limit
                         ∧ t ≤ limit)
         ∧ (gameState (ui e2eSelected) ≠ Playing →
              pendingTimeout e2eSelected = None).
Proof.
  split; [exact e2eSelected_steps|].
  exact (clock_agrees_with_phase ∅ [] false e2eRandom (codeUnits "11/2/2026")
           e2eSelected e2eSelected_steps).
Defined.

(** The winning press takes the phase from [Playing] to [Won]. *)
Lemma phase_changes_are_legal_witness :
  steps e2eBoot e2eSelected ∧ offered e2eSelected (PressTile 2 2)
  ∧ dispatch (PressTile 2 2) e2eSelected = Normal tt e2eWon
  ∧ phaseChange (gameState (ui e2eSelected)) (gameState (ui e2eWon)).
Proof.
  assert (dispatch (PressTile 2 2) e2eSelected = Normal tt e2eWon) as Hd
    by (by vm_compute).
  split; [exact e2eSelected_steps|]. split; [exact e2eSelected_offers_press|].
  split; [exact Hd|].
  exact (phase_changes_are_legal ∅ [] false e2eRandom (codeUnits "11/2/2026")
           e2eSelected (PressTile 2 2) e2eWon
           e2eSelected_steps e2eSelected_offers_press Hd).
Defined.

(** The winning press records a score. *)
Lemma score_recorded_only_on_win_witness :
  steps e2eBoot e2eSelected ∧ offered e2eSelected (PressTile 2 2)
  ∧ dispatch (PressTile 2 2) e2eSelected = Normal tt e2eWon
  ∧ (highScores (ui e2eWon) = highScores (ui e2eSelected)
     ∨ (gameState (ui e2eSelected) = Playing ∧ gameState (ui e2eWon) = Won
        ∧ (∃ row col, PressTile 2 2 = PressTile row col)
        ∧ highScores (ui e2eWon)
          = recordWin (ui e2eSelected) (today e2eSelected))).
Proof.
  assert (dispatch (PressTile 2 2) e2eSelected = Normal tt e2eWon) as Hd
    by (by vm_compute).
  split; [exact e2eSelected_steps|]. split; [exact e2eSelected_offers_press|].
  split; [exact Hd|].
  exact (score_recorded_only_on_win ∅ [] false e2eRandom (codeUnits "11/2/2026")
           e2eSelected (PressTile 2 2) e2eWon
           e2eSelected_steps e2eSelected_offers_press Hd).
Defined.

(** The ledger of the end-to-end session after the win. *)
Lemma ledger_stays_sorted_top5_witness :
  ledgerOk ∅ ∧ steps e2eBoot e2eWon ∧ ledgerOk (highScores (ui e2eWon)).
Proof.
  assert (ledgerOk ∅) as Hempty by (intros key l H; by rewrite lookup_empty in H).
  split; [exact Hempty|]. split; [exact e2eWon_steps|].
  exact (ledger_stays_sorted_top5 ∅ [] false e2eRandom (codeUnits "11/2/2026")
           e2eWon Hempty e2eWon_steps).
Defined.

(** * More about the handlers *)

(** ** Presses *)

Lemma overUi_select_deselect (g : Game) (p : nat * nat) :
  selectedTile (ui g) = None →
  overUi (withSelectedTile None) (overUi (withSelectedTile (Some p)) g) = g.
Proof. destruct g as [[] ? ? ? ?]. simpl. by intros ->. Qed.

(** [X8] While playing with nothing selected, pressing the same tile twice
    (select, then deselect) leaves the whole game as it was: grid, counter,
    clock, ledger and signals. *)
Theorem press_same_tile_twice (g : Game) (row col : nat) :
  gameState (ui g) = Playing → selectedTile (ui g) = None →
  run [PressTile row col; PressTile row col] g = Normal tt g.
Proof.
  intros Hp Hs. simpl.
  rewrite bind_run, dispatch_press_select by done.
  rewrite bind_run, dispatch_press_deselect by done. simpl.
  by rewrite overUi_select_deselect.
Qed.

Lemma swapCells_sym (n : nat) (g : Grid) (a b : nat * nat) :
  gridOfSize n g → inGrid n a → inGrid n b →
  swapCells g a b = swapCells g b a.
Proof.
  intros Hg Ha Hb.
  apply (grid_ext n); [by apply gridOfSize_swapCells..|].
  intros i j Hi Hj.
  destruct Hg as [Hlen _], Ha as [Ha1 _], Hb as [Hb1 _].
  change (getCell (swapCells g a b) i j)
    with (getCell (swapCells g a b) (i, j).1 (i, j).2).
  change (getCell (swapCells g b a) i j)
    with (getCell (swapCells g b a) (i, j).1 (i, j).2).
  rewrite !getCell_swapCells by lia.
  repeat case_decide; simplify_eq; done.
Qed.

(** [X9] The order of the two presses of a swap does not matter: selecting
    [a] and pressing its neighbour [b] leaves the same game as selecting [b]
    and pressing [a]. *)
Theorem swap_either_way_round (g : Game) (a b : nat * nat) :
  gameState (ui g) = Playing → selectedTile (ui g) = None →
  gridOfSize (gridSize (ui g)) (grid (ui g)) →
  inGrid (gridSize (ui g)) a → inGrid (gridSize (ui g)) b → orthogonal a b →
  run [PressTile a.1 a.2; PressTile b.1 b.2] g
  = run [PressTile b.1 b.2; PressTile a.1 a.2] g.
Proof.
  intros Hp Hs Hg Ha Hb Hadj. destruct a as [ar ac], b as [br bc]. simpl.
  pose proof (orthogonal_sym _ _ Hadj) as Hadj'.
  rewrite !bind_run, !dispatch_press_select by done.
  rewrite !bind_run.
  rewrite (dispatch_press_swap _ br bc (ar, ac)) by done.
  rewrite (dispatch_press_swap _ ar ac (br, bc)) by done.
  simpl.
  rewrite (swapCells_sym (gridSize (ui g)) (grid (ui g)) (br, bc) (ar, ac)) by done.
  unfold swappedGame. simpl.
  rewrite (swapCells_sym (gridSize (ui g)) (grid (ui g)) (br, bc) (ar, ac)) by done.
  reflexivity.
Qed.

(** [X10] A tile press never touches the clock: the time left is the same
    after it, and the pending timeout is kept unless the press wins (then it
    is cancelled). *)
Theorem press_leaves_clock_alone scores name sound random date
  (g : Game) (row col : nat) (g' : Game) :
  steps (bootGame scores name sound random date) g →
  offered g (PressTile row col) →
  dispatch (PressTile row col) g = Normal tt g' →
  timeLeft (ui g') = timeLeft (ui g)
  ∧ (pendingTimeout g' = pendingTimeout g
     ∨ (gameState (ui g') = Won ∧ pendingTimeout g' = None)).
Proof.
  intros Hsteps Hoff Hd.
  pose proof (steps_engineOk _ _ (bootGame_engineOk _ _ _ _ _) Hsteps) as Hok.
  destruct (dispatch_outcome g _ Hok Hoff) as (g1 & Hd1 & Hout).
  assert (g1 = g') as -> by congruence.
  inversion Hout; subst; try (by split; [|left]).
  rewrite wonGame_ui, wonGame_pending. split; [done|]. by right.
Qed.

Lemma press_leaves_clock_alone_witness :
  steps e2eBoot e2eSelected ∧ offered e2eSelected (PressTile 2 2)
  ∧ dispatch (PressTile 2 2) e2eSelected = Normal tt e2eWon
  ∧ timeLeft (ui e2eWon) = timeLeft (ui e2eSelected)
  ∧ (pendingTimeout e2eWon = pendingTimeout e2eSelected
     ∨ (gameState (ui e2eWon) = Won ∧ pendingTimeout e2eWon = None)).
Proof.
  assert (dispatch (PressTile 2 2) e2eSelected = Normal tt e2eWon) as Hd
    by (by vm_compute).
  split; [exact e2eSelected_steps|]. split; [exact e2eSelected_offers_press|].
  split; [exact Hd|].
  exact (press_leaves_clock_alone ∅ [] false e2eRandom (codeUnits "11/2/2026")
           e2eSelected 2 2 e2eWon
           e2eSelected_steps e2eSelected_offers_press Hd).
Defined.

Lemma press_same_tile_twice_witness :
  gameState (ui nearSolvedGame) = Playing
  ∧ selectedTile (ui nearSolvedGame) = None
  ∧ run [PressTile 1 1; PressTile 1 1] nearSolvedGame = Normal tt nearSolvedGame.
Proof.
  split; [reflexivity|]. split; [reflexivity|].
  exact (press_same_tile_twice nearSolvedGame 1 1 eq_refl eq_refl).
Defined.

Lemma swap_either_way_round_witness :
  gameState (ui nearSolvedGame) = Playing
  ∧ selectedTile (ui nearSolvedGame) = None
  ∧ gridOfSize (gridSize (ui nearSolvedGame)) (grid (ui nearSolvedGame))
  ∧ inGrid (gridSize (ui nearSolvedGame)) (2%nat, 1%nat)
  ∧ inGrid (gridSize (ui nearSolvedGame)) (2%nat, 2%nat)
  ∧ orthogonal (2%nat, 1%nat) (2%nat, 2%nat)
  ∧ run [PressTile 2 1; PressTile 2 2] nearSolvedGame
    = run [PressTile 2 2; PressTile 2 1] nearSolvedGame.
Proof.
  assert (gridOfSize (gridSize (ui nearSolvedGame)) (grid (ui nearSolvedGame)))
    as Hg by apply gridOfSize_fillGrid.
  assert (inGrid (gridSize (ui nearSolvedGame)) (2%nat, 1%nat)) as Ha
    by (split; simpl; lia).
  assert (inGrid (gridSize (ui nearSolvedGame)) (2%nat, 2%nat)) as Hb
    by (split; simpl; lia).
  assert (orthogonal (2%nat, 1%nat) (2%nat, 2%nat)) as Hadj
    by (right; simpl; lia).
  split; [reflexivity|]. split; [reflexivity|]. split; [exact Hg|].
  split; [exact Ha|]. split; [exact Hb|]. split; [exact Hadj|].
  exact (swap_either_way_round nearSolvedGame (2%nat, 1%nat) (2%nat, 2%nat)
           eq_refl eq_refl Hg Ha Hb Hadj).
Defined.

Lemma winning_swap_records_moves_before_it_witness :
  swapsWith (ui nearSolvedSelected) 2 2 (2%nat, 1%nat)
  ∧ gridOfSize (gridSize (ui nearSolvedSelected)) (grid (ui nearSolvedSelected))
  ∧ inGrid (gridSize (ui nearSolvedSelected)) (2%nat, 2%nat)
  ∧ inGrid (gridSize (ui nearSolvedSelected)) (2%nat, 1%nat)
  ∧ ascending (gridSize (ui nearSolvedSelected))
      (swapCells (grid (ui nearSolvedSelected)) (2%nat, 2%nat) (2%nat, 1%nat))
  ∧ ∃ g', dispatch (PressTile 2 2) nearSolvedSelected = Normal tt g'
      ∧ gameState (ui g') = Won
      ∧ moves (ui g') = moves (ui nearSolvedSelected) + 1
      ∧ highScores (ui g')
        = recordWin (ui nearSolvedSelected) (today nearSolvedSelected)
      ∧ Score.moves (newScoreOf (ui nearSolvedSelected) (today nearSolvedSelected))
        = moves (ui nearSolvedSelected)
      ∧ Score.timeRemaining
          (newScoreOf (ui nearSolvedSelected) (today nearSolvedSelected))
        = timeLeft (ui nearSolvedSelected).
Proof.
  assert (swapsWith (ui nearSolvedSelected) 2 2 (2%nat, 1%nat)) as Hsw.
  { split; [reflexivity|]. split; [reflexivity|]. right. simpl. lia. }
  assert (gridOfSize (gridSize (ui nearSolvedSelected))
            (grid (ui nearSolvedSelected))) as Hg by apply gridOfSize_fillGrid.
  assert (inGrid (gridSize (ui nearSolvedSelected)) (2%nat, 2%nat)) as Ha
    by (split; simpl; lia).
  assert (inGrid (gridSize (ui nearSolvedSelected)) (2%nat, 1%nat)) as Hb
    by (split; simpl; lia).
  assert (ascending (gridSize (ui nearSolvedSelected))
            (swapCells (grid (ui nearSolvedSelected)) (2%nat, 2%nat) (2%nat, 1%nat)))
    as Hasc.
  { apply solved_ascending. by vm_compute. }
  split; [exact Hsw|]. split; [exact Hg|]. split; [exact Ha|].
  split; [exact Hb|]. split; [exact Hasc|].
  exact (winning_swap_records_moves_before_it nearSolvedSelected 2 2 (2%nat, 1%nat)
           Hsw Hg Ha Hb Hasc).
Defined.

(** ** Starting a game *)

Lemma trimStart_head (s : JsString) (c : CodeUnit) (rest : JsString) :
  trimStart s = c :: rest → isWhiteSpace c = false.
Proof.
  induction s as [|x s IH]; simpl; [done|].
  destruct (isWhiteSpace x) eqn:Ex; [done|]. by intros [= <- _].
Qed.

Lemma trimStart_nil_iff (s : JsString) :
  trimStart s = [] ↔ Forall (λ c, isWhiteSpace c = true) s.
Proof.
  induction s as [|x s IH]; simpl; [done|].
  destruct (isWhiteSpace x) eqn:Ex.
  - rewrite IH, Forall_cons. tauto.
  - split; [done|]. intros [H _]%Forall_cons. congruence.
Qed.

(** [trim] leaves nothing exactly when the string is white space only. *)
Lemma trim_nil_iff (s : JsString) :
  trim s = [] ↔ Forall (λ c, isWhiteSpace c = true) s.
Proof.
  unfold trim, trimEnd. split.
  - intros H. apply trimStart_nil_iff.
    apply (f_equal (@rev N)) in H. rewrite rev_involutive in H. simpl in H.
    apply trimStart_nil_iff in H. apply Forall_rev in H.
    rewrite rev_involutive in H.
    destruct (trimStart s) as [|c rest] eqn:E; [done|].
    apply trimStart_head in E. apply Forall_cons in H as [H _]. congruence.
  - intros H. apply trimStart_nil_iff in H. by rewrite H.
Qed.

Lemma dispatch_start_ui (g : Game) :
  trim (playerName (ui g)) ≠ [] →
  ∃ colors shuffled g',
    dispatch StartGame g = Normal tt g'
    ∧ ui g' = startedState (ui g) colors shuffled.
Proof.
  intros Hname.
  destruct (startGame_accepted g Hname)
    as (colors & shuffled & g1 & Hrun & _ & _ & Eu & _).
  destruct (rerender_keeps_ui 1 (ui g) g1) as (g' & Hre & Eu' & _).
  { rewrite Eu. simpl. intros _ Hzero.
    apply getTimeLimit_positive in Hzero. lia. }
  exists colors, shuffled, g'. split; [|by rewrite Eu'].
  unfold dispatch. rewrite bind_run. simpl. by rewrite Hrun.
Qed.

(** [X11] From the menu, "Start Game" starts a game exactly when the name
    holds a character that is not white space: a name of blanks, tabs, line
    breaks or other Unicode spaces is refused like the empty name, and any
    other name is accepted whatever surrounds it. *)
Theorem start_needs_a_visible_character (g : Game) :
  gameState (ui g) = Menu →
  ∃ g', dispatch StartGame g = Normal tt g'
    ∧ (gameState (ui g') = Playing
       ↔ ∃ c, c ∈ playerName (ui g) ∧ isWhiteSpace c = false).
Proof.
  intros Hmenu.
  destruct (decide (trim (playerName (ui g)) = [])) as [Hempty|Hname].
  - exists (withSignal AlertNameRequired g). split.
    + apply dispatch_quiet; [by apply startGame_rejected|apply depsChanged_refl].
    + simpl. rewrite Hmenu. split; [done|].
      intros (c & Hc & Hws). apply trim_nil_iff in Hempty.
      rewrite Forall_forall in Hempty. specialize (Hempty c Hc). congruence.
  - destruct (dispatch_start_ui g Hname) as (colors & shuffled & g' & Hd & Eu).
    exists g'. split; [done|]. rewrite Eu. simpl. split; [|done]. intros _.
    rewrite trim_nil_iff in Hname.
    apply not_Forall_Exists in Hname; [|intros c; apply _].
    apply Exists_exists in Hname as (c & Hc & Hws).
    exists c. split; [done|]. by apply not_true_is_false.
Qed.

Lemma start_needs_a_visible_character_witness :
  gameState (ui (gameAfter [SplashDone; TypeName (codeUnits " Ava ")] e2eBoot))
  = Menu
  ∧ ∃ g', dispatch StartGame
            (gameAfter [SplashDone; TypeName (codeUnits " Ava ")] e2eBoot)
          = Normal tt g'
      ∧ (gameState (ui g') = Playing
         ↔ ∃ c, c ∈ playerName
                  (ui (gameAfter [SplashDone; TypeName (codeUnits " Ava ")] e2eBoot))
                ∧ isWhiteSpace c = false).
Proof.
  split; [reflexivity|].
  exact (start_needs_a_visible_character
           (gameAfter [SplashDone; TypeName (codeUnits " Ava ")] e2eBoot) eq_refl).
Defined.

(** [X12] A game started from the menu and left alone ends when its limit
    has elapsed: after [k] ticks the clock shows [max 0 (limit - k)], the
    phase is [Playing] while [k < limit] and [GameOver] from the [limit]-th
    tick on, with one "Time's Up" announcement; the limit is 30, 60, 90 or
    120 for the sizes 3, 4, 5, 6. *)
Theorem unplayed_game_ends_at_its_limit (g : Game) (limit : Z) (k : nat) :
  gameState (ui g) = Menu → trim (playerName (ui g)) ≠ [] →
  getTimeLimit (gridSize (ui g)) = Some limit →
  ∃ g', run (StartGame :: replicate k Tick) g = Normal tt g'
    ∧ timeLeft (ui g') = Some (Z.max 0 (limit - Z.of_nat k))
    ∧ (Z.of_nat k < limit → gameState (ui g') = Playing)
    ∧ (limit ≤ Z.of_nat k →
         gameState (ui g') = GameOver
         ∧ gameOvers (out g') = S (gameOvers (out g)))
    ∧ limit = 30 * (Z.of_nat (gridSize (ui g)) - 2).
Proof.
  intros Hmenu Hname Hlimit.
  destruct (dispatch_start_accepted g limit)
    as (colors & shuffled & g1 & Hd & _ & _ & Eu & Ep & Eo);
    [by rewrite Hmenu|done|done|].
  rewrite (run_cons _ _ _ _ Hd).
  destruct (ticks_count_down k g1 limit) as (g' & Hrun & Et & Hbefore & Hafter).
  - by rewrite Eu.
  - by rewrite Eu.
  - apply getTimeLimit_positive in Hlimit. lia.
  - done.
  - exists g'. split; [done|]. split; [done|]. split; [|split].
    + intros Hk. by destruct (Hbefore Hk) as (? & _).
    + intros Hk. destruct (Hafter Hk) as (? & _ & Hc). split; [done|].
      rewrite Hc, Eo, gameOvers_app. unfold gameOvers at 2. simpl. lia.
    + rewrite getTimeLimit_cases in Hlimit.
      generalize dependent (gridSize (ui g)). intros n Hlimit.
      do 7 (destruct n as [|n]; [by (discriminate || injection Hlimit as <-)|]).
      discriminate.
Qed.

Lemma unplayed_game_ends_at_its_limit_witness :
  gameState (ui (gameAfter [SplashDone; TypeName (codeUnits "Ava")] e2eBoot)) = Menu
  ∧ trim (playerName (ui (gameAfter [SplashDone; TypeName (codeUnits "Ava")] e2eBoot)))
    ≠ []
  ∧ getTimeLimit
      (gridSize (ui (gameAfter [SplashDone; TypeName (codeUnits "Ava")] e2eBoot)))
    = Some 30
  ∧ ∃ g', run (StartGame :: replicate 30 Tick)
            (gameAfter [SplashDone; TypeName (codeUnits "Ava")] e2eBoot)
          = Normal tt g'
      ∧ timeLeft (ui g') = Some (Z.max 0 (30 - Z.of_nat 30))
      ∧ (Z.of_nat 30 < 30 → gameState (ui g') = Playing)
      ∧ (30 ≤ Z.of_nat 30 →
           gameState (ui g') = GameOver
           ∧ gameOvers (out g')
             = S (gameOvers
                    (out (gameAfter [SplashDone; TypeName (codeUnits "Ava")] e2eBoot))))
      ∧ 30 = 30 * (Z.of_nat
                     (gridSize (ui (gameAfter [SplashDone; TypeName (codeUnits "Ava")]
                                      e2eBoot))) - 2).
Proof.
  assert (trim (playerName
            (ui (gameAfter [SplashDone; TypeName (codeUnits "Ava")] e2eBoot))) ≠ [])
    as Hname by (by vm_compute).
  split; [reflexivity|]. split; [exact Hname|]. split; [reflexivity|].
  exact (unplayed_game_ends_at_its_limit
           (gameAfter [SplashDone; TypeName (codeUnits "Ava")] e2eBoot) 30 30
           eq_refl Hname eq_refl).
Defined.

(** ** The colours and the two grids *)

Lemma js_rem_range (x : Q) :
  (0 <= x)%Q → (0 <= js_rem x 360)%Q ∧ (js_rem x 360 < 360)%Q.
Proof.
  intros Hx. unfold js_rem.
  assert (0 <= x / 360)%Q as Hq.
  { unfold Qdiv. apply Qmult_le_0_compat; [done|]. by vm_compute. }
  assert (Z.quot (Qnum (x / 360)) (Zpos (Qden (x / 360))) = Qfloor (x / 360)) as ->.
  { unfold Qfloor. destruct (x / 360)%Q as [n d] eqn:E.
    simpl. apply Z.quot_div_nonneg; [|lia].
    unfold Qle in Hq. simpl in Hq. lia. }
  pose proof (Qfloor_le (x / 360)) as Hlo.
  pose proof (Qlt_floor (x / 360)) as Hhi.
  rewrite inject_Z_plus in Hhi.
  assert (x == 360 * (x / 360))%Q as Ex by (field; done).
  set (q := (x / 360)%Q) in *. set (f := inject_Z (Qfloor q)) in *.
  change (inject_Z 1) with 1%Q in Hhi. split; lra.
Qed.

Lemma colorLoop_valid (hueStep : Q) (indices : list nat) (acc : list Color) (g : Game) :
  (0 <= hueStep)%Q → randomInUnit g → Forall validHsl acc →
  ∃ colors g', colorLoop hueStep indices acc g = Normal colors g'
               ∧ Forall validHsl colors.
Proof.
  intros Hstep. revert acc g.
  induction indices as [|i rest IH]; intros acc g Hunit Hacc; simpl.
  { by exists acc, g. }
  do 3 mstep. apply IH.
  - by do 3 apply randomInUnit_afterDraw.
  - apply Forall_app. split; [done|]. apply Forall_singleton.
    destruct (Hunit 0%nat) as [H0 H1], (Hunit 1%nat) as [H2 H3],
      (Hunit 2%nat) as [H4 H5].
    unfold validHsl. simpl.
    split; [|split; [by apply saturation_range|by apply lightness_range]].
    apply js_rem_range.
    assert (0 <= inject_Z (Z.of_nat i) * hueStep)%Q as Hnominal.
    { apply Qmult_le_0_compat; [|done].
      change 0%Q with (inject_Z 0). rewrite <- Zle_Qle. lia. }
    assert (0 <= rng g 0 * 30)%Q as Hjitter by lra.
    apply roundDouble_nonneg.
    pose proof (roundDouble_nonneg _ Hnominal).
    pose proof (roundDouble_nonneg _ Hjitter). lra.
Qed.

Lemma hueStep_nonneg (count : nat) :
  (0 <= roundDouble (360 / inject_Z (Z.of_nat count)))%Q.
Proof.
  apply roundDouble_nonneg.
  unfold Qdiv. apply Qmult_le_0_compat; [done|].
  apply Qinv_le_0_compat. change 0%Q with (inject_Z 0). rewrite <- Zle_Qle. lia.
Qed.

(** [X13] Whatever the count and the random draws (each in [[0, 1)]), the
    colour generator returns [count] colours and each of them, wherever the
    final shuffle put it, has a hue in [[0, 360)], a saturation in
    [[70, 100]] and a lightness in [[45, 65]]. *)
Theorem generated_colors_are_valid (count : nat) (g : Game) :
  randomInUnit g →
  ∃ colors g', generateDistinctColors count g = Normal colors g'
               ∧ length colors = count ∧ Forall validHsl colors.
Proof.
  intros Hunit. unfold generateDistinctColors.
  destruct (pushedColors_run count g) as (pushed & g1 & Hrun & _ & Hlen & _).
  destruct (colorLoop_valid (roundDouble (360 / inject_Z (Z.of_nat count)))
              (seq 0 count) [] g
              (hueStep_nonneg count) Hunit (Forall_nil_2 _))
    as (pushed' & g1' & Hrun' & Hvalid).
  assert (pushed' = pushed) as -> by (unfold pushedColors in Hrun; congruence).
  rewrite (bind_Normal _ _ _ _ _ Hrun).
  destruct (array_sort_perm randomCompare randomCompare_quiet pushed g1)
    as (sorted & g2 & Hsort & Hperm & _).
  exists sorted, g2. split; [done|]. split; by rewrite <- Hperm.
Qed.

Lemma generated_colors_are_valid_witness :
  randomInUnit nearSolvedGame
  ∧ ∃ colors g', generateDistinctColors 9 nearSolvedGame = Normal colors g'
                 ∧ length colors = 9%nat ∧ Forall validHsl colors.
Proof.
  split; [exact nearSolvedGame_randomInUnit|].
  exact (generated_colors_are_valid 9 nearSolvedGame nearSolvedGame_randomInUnit).
Defined.

Lemma concat_fillGrid (n : nat) (cell : nat → nat → Tile) :
  concat (fillGrid n cell)
  = map (λ k, Some (cell (k / n)%nat (k mod n)%nat)) (seq 0 (n * n)).
Proof.
  pose proof (gridOfSize_fillGrid n cell) as Hg.
  pose proof (gridOfSize_rows _ _ Hg) as Hrows.
  apply list_eq. intros k. rewrite list_lookup_fmap.
  destruct (decide (k < n * n)%nat) as [Hk|Hk].
  - assert (n ≠ 0)%nat by lia.
    assert (k / n < n)%nat by (apply Nat.Div0.div_lt_upper_bound; lia).
    assert (k mod n < n)%nat by (by apply Nat.mod_upper_bound).
    rewrite lookup_seq_lt by done. simpl.
    rewrite (Nat.div_mod_eq k n) at 1. rewrite (Nat.mul_comm n).
    rewrite (concat_lookup_flat n) by done.
    unfold fillGrid. rewrite list_lookup_fmap, lookup_seq_lt by done. simpl.
    by rewrite list_lookup_fmap, lookup_seq_lt.
  - rewrite !lookup_ge_None_2; [done|by rewrite length_seq; lia|].
    rewrite (length_concat_rows n) by done. destruct Hg as [-> _]. lia.
Qed.

Lemma concat_target (n : nat) (colors : list Color) :
  concat (fillGrid n (targetCell n colors))
  = map (λ N, Some (tileFor colors N)) (oneTo (n * n)).
Proof.
  rewrite concat_fillGrid. unfold oneTo. rewrite map_map.
  apply map_ext_in. intros k Hk%in_seq.
  assert (n ≠ 0)%nat by lia.
  unfold targetCell, tileFor, js_index. rewrite decide_False by lia.
  rewrite (Nat.mul_comm _ n), <- !Nat.div_mod_eq. do 2 f_equal; [f_equal; lia|].
  f_equal. lia.
Qed.

Lemma concat_shuffled (n : nat) (colors : list Color) (shuffled : list Z) :
  length shuffled = (n * n)%nat →
  concat (fillGrid n (shuffledCell n colors shuffled))
  = map (λ N, Some (tileFor colors N)) shuffled.
Proof.
  intros Hlen. rewrite concat_fillGrid.
  apply list_eq. intros k. rewrite !list_lookup_fmap.
  destruct (decide (k < n * n)%nat) as [Hk|Hk].
  - rewrite lookup_seq_lt by done. simpl.
    unfold shuffledCell. rewrite (Nat.mul_comm _ n), <- !Nat.div_mod_eq.
    destruct (lookup_lt_is_Some_2 shuffled k) as [N ->]; [lia|]. reflexivity.
  - rewrite !lookup_ge_None_2; [done|lia|by rewrite length_seq; lia].
Qed.

(** [X14] Whatever the size and the random draws, the grid the grid factory
    builds is made of the very tiles of the target grid, number and colour,
    in another order. *)
Theorem initial_grid_rearranges_target (g : Game) :
  ∃ g', initializeGrid (ui g) g = Normal tt g'
        ∧ concat (grid (ui g')) ≡ₚ concat (targetGrid (ui g')).
Proof.
  destruct (initializeGrid_run (ui g) g)
    as (colors & shuffled & g' & Hrun & _ & Hperm & Eu & _).
  exists g'. split; [done|]. rewrite Eu. simpl.
  rewrite concat_target, concat_shuffled by (by rewrite Hperm, oneTo_length).
  by apply fmap_Permutation.
Qed.

(** ** The ledger, entry by entry *)

Lemma string_length_app (s t : string) :
  String.length (s +:+ t) = (String.length s + String.length t)%nat.
Proof. induction s as [|c s IH]; simpl; [done|]. by rewrite IH. Qed.

Lemma string_app_inj_length (s1 s2 t1 t2 : string) :
  String.length s1 = String.length s2 → s1 +:+ t1 = s2 +:+ t2 → s1 = s2.
Proof.
  revert s2. induction s1 as [|c s1 IH]; intros [|c' s2]; simpl; try done.
  intros [= Hlen] [= -> Happ]. f_equal. by apply IH.
Qed.

Lemma scoreKeyOf_inj (n m : nat) : scoreKeyOf n = scoreKeyOf m → n = m.
Proof.
  unfold scoreKeyOf. intros Heq.
  assert (String.length (pretty n) = String.length (pretty m)) as Hlen.
  { apply (f_equal String.length) in Heq.
    rewrite !string_length_app in Heq. simpl in Heq. lia. }
  by apply (inj pretty), (string_app_inj_length _ _ _ _ Hlen Heq).
Qed.

Lemma insertByKey_least {A} (key : A → Z) (x : A) (l : list A) :
  Forall (λ y, key x ≤ key y) l → insertByKey key x l = x :: l.
Proof.
  destruct 1 as [|y l Hy _]; simpl; [done|]. by rewrite decide_True by lia.
Qed.

Lemma filter_all {A} (P : A → Prop) `{∀ x, Decision (P x)} (l : list A) :
  Forall P l → filter P l = l.
Proof.
  induction 1 as [|x l Hx _ IH]; [done|]. by rewrite filter_cons_True, IH.
Qed.

Lemma filter_none {A} (P : A → Prop) `{∀ x, Decision (P x)} (l : list A) :
  Forall (λ x, ¬ P x) l → filter P l = [].
Proof.
  induction 1 as [|x l Hx _ IH]; [done|]. by rewrite filter_cons_False.
Qed.

(** Sorting a sorted list with one more element at its end: the element
    goes behind the entries with a key up to its own. *)
Lemma sortByKey_snoc {A} (key : A → Z) (old : list A) (x : A) :
  StronglySorted (keyLe key) old →
  sortByKey key (old ++ [x])
  = filter (λ r, key r ≤ key x) old ++ x :: filter (λ r, key x < key r) old.
Proof.
  induction 1 as [|y old Hs IH Hy]; [done|].
  simpl. rewrite IH. unfold keyLe in Hy.
  destruct (decide (key y ≤ key x)) as [Hle|Hgt].
  - rewrite filter_cons_True, filter_cons_False by lia. simpl.
    apply insertByKey_least, Forall_app. split.
    + apply Forall_forall. intros r [_ Hr]%list_elem_of_filter.
      by eapply Forall_forall in Hy.
    + constructor; [done|].
      apply Forall_forall. intros r [_ Hr]%list_elem_of_filter.
      by eapply Forall_forall in Hy.
  - rewrite filter_cons_False, filter_cons_True by lia.
    rewrite (filter_none (λ r, key r ≤ key x)), (filter_all (λ r, key x < key r)).
    + simpl. rewrite decide_False by lia. by rewrite insertByKey_least.
    + eapply Forall_impl; [exact Hy|]. simpl. lia.
    + eapply Forall_impl; [exact Hy|]. simpl. lia.
Qed.

(** [X15] In a session, whatever the event, the scores stored for the grid
    sizes other than the current one are left as they are: a win touches
    the list of its own size only. *)
Theorem win_keeps_other_sizes scores name sound random date
  (g : Game) (ev : Event) (g' : Game) (n : nat) :
  steps (bootGame scores name sound random date) g → offered g ev →
  dispatch ev g = Normal tt g' →
  n ≠ gridSize (ui g) →
  highScores (ui g') !! scoreKeyOf n = highScores (ui g) !! scoreKeyOf n.
Proof.
  intros Hsteps Hoff Hd Hn.
  pose proof (steps_engineOk _ _ (bootGame_engineOk _ _ _ _ _) Hsteps) as Hok.
  destruct (dispatch_outcome g ev Hok Hoff) as (g1 & Hd1 & Hout).
  assert (g1 = g') as -> by congruence.
  destruct (Outcome_ledger _ _ _ Hout) as [-> |(_ & _ & _ & ->)]; [done|].
  unfold recordWin. apply lookup_insert_ne.
  intros Hkey%scoreKeyOf_inj. by apply Hn.
Qed.

(** The winning press of the end-to-end session and the 4x4 list. *)
Lemma win_keeps_other_sizes_witness :
  highScores (ui e2eWon) !! scoreKeyOf 4
  = highScores (ui e2eSelected) !! scoreKeyOf 4.
Proof.
  apply (win_keeps_other_sizes ∅ [] false e2eRandom (codeUnits "11/2/2026")
           e2eSelected (PressTile 2 2) e2eWon 4).
  - exact e2eSelected_steps.
  - exact e2eSelected_offers_press.
  - by vm_compute.
  - by vm_compute.
Defined.

(** [X16] When the list of the current size is sorted by ascending moves,
    [handleWin] stores the new result behind the entries with as few or
    fewer moves (ties keep the older result first) and before those with
    more, and keeps the first five.  So the new result is stored at the
    rank given by the number of entries it does not beat, if that is below
    five. *)
Theorem win_enters_ledger_by_rank (cur : State) (g : Game) :
  let old := default [] (highScores cur !! scoreKeyOf (gridSize cur)) in
  let new := newScoreOf cur (today g) in
  let ahead := filter (λ r, Score.moves r ≤ moves cur) old in
  StronglySorted (keyLe Score.moves) old →
  ∃ g' stored,
    handleWin cur g = Normal tt g'
    ∧ highScores (ui g') !! scoreKeyOf (gridSize cur) = Some stored
    ∧ stored = take 5 (ahead ++ new :: filter (λ r, moves cur < Score.moves r) old)
    ∧ ((length ahead < 5)%nat → stored !! length ahead = Some new)
    ∧ ((5 ≤ length ahead)%nat → new ∉ old → new ∉ stored).
Proof.
  intros old new ahead Hsorted.
  exists (wonGame cur g), (take 5 (sortByKey Score.moves (old ++ [new]))).
  split; [apply handleWin_run|].
  split; [rewrite wonGame_ui; apply lookup_insert_eq|].
  rewrite sortByKey_snoc by done. change (Score.moves new) with (moves cur).
  fold ahead. split; [done|]. split.
  - intros Hlt. rewrite lookup_take_lt by done.
    by rewrite lookup_app_r, Nat.sub_diag by lia.
  - intros Hge Hnew. rewrite take_app_le by lia.
    intros Hin%elem_of_take. destruct Hin as (i & Hi & _).
    apply Hnew. apply list_elem_of_lookup_2 in Hi.
    by apply list_elem_of_filter in Hi as [_ Hi].
Qed.

Lemma fullList_sorted : StronglySorted (keyLe Score.moves) fullList.
Proof. repeat constructor; unfold keyLe; simpl; lia. Qed.

Lemma win_enters_ledger_by_rank_witness :
  StronglySorted (keyLe Score.moves)
    (default [] (highScores (withMoves 4 fullLedgerState) !! scoreKeyOf 3))
  ∧ ∃ g' stored,
      handleWin (withMoves 4 fullLedgerState) nearSolvedSelected = Normal tt g'
      ∧ highScores (ui g') !! scoreKeyOf 3 = Some stored
      ∧ stored !! 2%nat
        = Some (newScoreOf (withMoves 4 fullLedgerState) (today nearSolvedSelected)).
Proof.
  split; [exact fullList_sorted|].
  destruct (win_enters_ledger_by_rank (withMoves 4 fullLedgerState)
              nearSolvedSelected fullList_sorted)
    as (g' & stored & Hrun & Hstored & _ & Hrank & _).
  exists g', stored. split; [exact Hrun|]. split; [exact Hstored|].
  apply Hrank. vm_compute. lia.
Defined.

(** [X17] A result that beats none of five stored ones is dropped: when the
    list of the current size is sorted, holds five entries and each of them
    has at most the moves of the new result, [handleWin] leaves the whole
    ledger as it was (the phase still becomes [Won]). *)
Theorem result_no_better_is_dropped (cur : State) (g : Game)
  (old : list SessionResult) :
  highScores cur !! scoreKeyOf (gridSize cur) = Some old →
  StronglySorted (keyLe Score.moves) old →
  length old = 5%nat →
  Forall (λ r, Score.moves r ≤ moves cur) old →
  ∃ g', handleWin cur g = Normal tt g'
        ∧ highScores (ui g') = highScores cur
        ∧ gameState (ui g') = Won.
Proof.
  intros Hold Hsorted Hlen Hall.
  exists (wonGame cur g). split; [apply handleWin_run|].
  rewrite wonGame_ui. simpl. split; [|done].
  unfold recordWin. rewrite Hold. simpl.
  rewrite sortByKey_snoc by done. change (Score.moves (newScoreOf cur (today g)))
    with (moves cur).
  rewrite filter_all by done.
  rewrite take_app_le, firstn_all2 by lia. by apply insert_id.
Qed.

Lemma result_no_better_is_dropped_witness :
  ∃ g', handleWin fullLedgerState nearSolvedSelected = Normal tt g'
        ∧ highScores (ui g') = highScores fullLedgerState
        ∧ gameState (ui g') = Won.
Proof.
  apply (result_no_better_is_dropped fullLedgerState nearSolvedSelected fullList).
  - by vm_compute.
  - exact fullList_sorted.
  - reflexivity.
  - repeat constructor; simpl; lia.
Defined.

(** ** Sounds *)

Lemma soundsIn_app (l k : list Signal) :
  soundsIn (l ++ k) = soundsIn l ++ soundsIn k.
Proof. apply omap_app. Qed.

Lemma withSound_sounds (cur : State) (s : Sound) (g : Game) :
  soundsIn (out (withSound cur s g))
  = soundsIn (out g) ++ (if soundEnabled cur && soundRef s g then [s] else []).
Proof.
  unfold withSound. destruct (soundEnabled cur && soundRef s g); simpl.
  - by rewrite soundsIn_app.
  - by rewrite app_nil_r.
Qed.

Lemma wonGame_sounds (cur : State) (g : Game) :
  soundsIn (out (wonGame cur g))
  = soundsIn (out g)
    ++ (if soundEnabled cur && victorySound g then [VictorySound] else []).
Proof.
  unfold wonGame. simpl. rewrite soundsIn_app, withSound_sounds. simpl.
  by rewrite soundsIn_app, !app_nil_r.
Qed.

Lemma gameOverGame_sounds (cur : State) (g : Game) :
  soundsIn (out (gameOverGame cur g))
  = soundsIn (out g)
    ++ (if soundEnabled cur && gameOverSound g then [GameOverSound] else []).
Proof.
  unfold gameOverGame. simpl. rewrite soundsIn_app, withSound_sounds. simpl.
  by rewrite app_nil_r.
Qed.

(** The sounds of the tick that ends the game. *)
Lemma tick_last_sounds (g : Game) :
  gameState (ui g) = Playing → timeLeft (ui g) = Some 1 →
  pendingTimeout g = Some 1 →
  ∃ g', dispatch Tick g = Normal tt g'
        ∧ soundsIn (out g')
          = soundsIn (out g)
            ++ (if soundEnabled (ui g) && gameOverSound g
                then [GameOverSound] else []).
Proof.
  intros Hp Ht Hpend. unfold dispatch. simpl. unfold timeoutFires.
  do 2 mstep. rewrite Hpend. do 2 mstep.
  destruct (decide _) as [_|Hn]; cycle 1.
  { exfalso. apply Hn. left. simpl. rewrite Ht. intros [=]. }
  mstep. unfold timerEffect. simpl.
  rewrite decide_False by (intros [_ ?]; lia). rewrite decide_True by done.
  rewrite bind_run, handleGameOver_run. rewrite bind_run. cbn.
  rewrite gameOverGame_ui. cbn.
  destruct (decide _) as [_|Hn]; cycle 1.
  { exfalso. apply Hn. right. cbn. by rewrite Hp. }
  rewrite bind_run. cbn. rewrite !decide_False by (by intros [? ?]).
  eexists. split; [reflexivity|]. cbn.
  by rewrite gameOverGame_sounds.
Qed.

(** [X18] In a session every event asks for exactly the sounds that the
    sound switch and the loaded sounds allow: none at all while sound is
    off, and none for a sound whose ref [loadSounds] has not assigned;
    otherwise the game-over sound once when the player gives up or the time
    runs out, the cheer once when a press wins, and nothing for any other
    event. *)
Theorem sounds_follow_the_switch scores name sound random date
  (g : Game) (ev : Event) (g' : Game) :
  steps (bootGame scores name sound random date) g → offered g ev →
  dispatch ev g = Normal tt g' →
  soundsIn (out g')
  = soundsIn (out g)
    ++ (if soundEnabled (ui g)
        then List.filter (λ s, soundRef s g)
               (soundDue ev (gameState (ui g)) (gameState (ui g')))
        else []).
Proof.
  intros Hsteps Hoff Hd.
  pose proof (steps_engineOk _ _ (bootGame_engineOk _ _ _ _ _) Hsteps) as Hok.
  destruct (dispatch_outcome g ev Hok Hoff) as (g1 & Hd1 & Hout).
  assert (g1 = g') as -> by congruence.
  assert (∀ ev' h, soundsIn (out h) = soundsIn (out g) →
            soundDue ev' (gameState (ui g)) (gameState (ui h)) = [] →
            soundsIn (out h)
            = soundsIn (out g)
              ++ (if soundEnabled (ui g)
                  then List.filter (λ s, soundRef s g)
                         (soundDue ev' (gameState (ui g)) (gameState (ui h)))
                  else []))
    as Hquiet.
  { intros ev' h -> ->. destruct (soundEnabled (ui g)); by rewrite app_nil_r. }
  assert (∀ l, soundsIn (l ++ [AlertNameRequired]) = soundsIn l) as Halert.
  { intros l. rewrite soundsIn_app. apply app_nil_r. }
  assert (∀ l x, soundsIn (l ++ [SavePlayerName x]) = soundsIn l) as Hsave.
  { intros l x. rewrite soundsIn_app. apply app_nil_r. }
  destruct Hout as [|name'|n|Hempty|colors shuffled t h Hname Hlen Hperm Hlimit Eu Ep Eo
    |row col Hp|row col x Hp Hx|row col sel Hsw Hin Hinsel Hs
    |row col sel Hsw Hin Hinsel Hs|Hpend|t h Hp Et Hlt Eu Ep Eo
    |h Hp Et Eu Ep Eo| | |]; simpl in Hoff.
  - apply Hquiet; [done|]. by rewrite Hoff.
  - apply Hquiet; [done|]. by rewrite Hoff.
  - apply Hquiet; [done|]. destruct Hoff as [Hm _]. by rewrite Hm.
  - apply Hquiet; [apply Halert|]. by rewrite Hoff.
  - apply Hquiet; [by rewrite Eo, Hsave|]. rewrite Eu. simpl. by rewrite Hoff.
  - apply Hquiet; [done|]. unfold soundDue. by destruct (gameState (ui g)).
  - apply Hquiet; [done|]. simpl. by rewrite Hp.
  - apply Hquiet; [done|]. destruct Hsw as (Hp & _). simpl. by rewrite Hp.
  - destruct Hsw as (Hp & _). rewrite wonGame_sounds, wonGame_ui. simpl.
    rewrite Hp. simpl.
    by destruct (soundEnabled (ui g)), (victorySound g).
  - apply Hquiet; [done|]. unfold soundDue. by destruct (gameState (ui g)).
  - apply Hquiet; [by rewrite Eo|]. rewrite Eu. simpl. by rewrite Hp.
  - destruct Hok as (_ & _ & [Hplay _] & _).
    destruct (Hplay Hp) as (t & limit & Ht & _ & _ & Hpend).
    assert (t = 1) as -> by congruence.
    destruct (tick_last_sounds g Hp Et Hpend) as (g2 & Hd2 & Hs).
    assert (g2 = h) as -> by congruence.
    rewrite Hs, Eu. simpl. rewrite Hp. simpl.
    by destruct (soundEnabled (ui g)), (gameOverSound g).
  - simpl. rewrite withSound_sounds. simpl.
    by destruct (soundEnabled (ui g)), (gameOverSound g).
  - apply Hquiet; [done|]. by destruct Hoff as [-> | ->].
  - apply Hquiet; [done|]. simpl. by destruct (gameState (ui g)).
Qed.

Lemma loudSelected_steps : steps loudBoot loudSelected.
Proof.
  apply (steps_run [SoundsLoaded; SplashDone; TypeName (codeUnits "Ava");
                    StartGame; Tick; PressTile 2 1]).
  - by vm_compute.
  - vm_compute. repeat split; try done. by eexists.
Qed.

Lemma loudSelected_offers_press : offered loudSelected (PressTile 2 2).
Proof. vm_compute. repeat split; try done. by eexists. Qed.

(** The winning press of a session with sound on, the sounds loaded during
    the splash screen: the cheer is asked for, once. *)
Lemma sounds_follow_the_switch_witness :
  soundsIn (out loudWon) = soundsIn (out loudSelected) ++ [VictorySound].
Proof.
  apply (sounds_follow_the_switch ∅ [] true e2eRandom (codeUnits "11/2/2026")
           loudSelected (PressTile 2 2) loudWon).
  - exact loudSelected_steps.
  - exact loudSelected_offers_press.
  - by vm_compute.
Defined.

(** [X19] In a session a result is recorded only while the clock is
    running: when an event takes the phase to [Won], the recorded result
    has at least one second and at most the time limit of the size
    remaining, and a move count that is not negative. *)
Theorem recorded_result_is_in_time scores name sound random date
  (g : Game) (ev : Event) (g' : Game) :
  steps (bootGame scores name sound random date) g → offered g ev →
  dispatch ev g = Normal tt g' →
  gameState (ui g) ≠ Won → gameState (ui g') = Won →
  ∃ t limit,
    highScores (ui g') = recordWin (ui g) (today g)
    ∧ Score.timeRemaining (newScoreOf (ui g) (today g)) = Some t
    ∧ getTimeLimit (gridSize (ui g)) = Some limit
    ∧ 1 ≤ t ≤ limit
    ∧ 0 ≤ Score.moves (newScoreOf (ui g) (today g)).
Proof.
  intros Hsteps Hoff Hd Hbefore Hafter.
  pose proof (steps_engineOk _ _ (bootGame_engineOk _ _ _ _ _) Hsteps) as Hok.
  destruct (dispatch_outcome g ev Hok Hoff) as (g1 & Hd1 & Hout).
  assert (g1 = g') as -> by congruence.
  destruct Hok as (_ & _ & [Hplay _] & Hmoves).
  destruct Hout as [|name'|n|Hempty|colors shuffled t h Hname Hlen Hperm Hlimit Eu Ep Eo
    |row col Hp|row col x Hp Hx|row col sel Hsw Hin Hinsel Hs
    |row col sel Hsw Hin Hinsel Hs|Hpend|t h Hp Et Hlt Eu Ep Eo
    |h Hp Et Eu Ep Eo| | |];
    try (rewrite ?Eu in Hafter; cbn in Hafter; rewrite ?withSound_ui in Hafter;
         cbn in Hafter; congruence).
  destruct Hsw as (Hp & _).
  destruct (Hplay Hp) as (t & limit & Ht & Hlimit & Hrange & _).
  exists t, limit. rewrite wonGame_ui. simpl.
  split; [done|]. split; [done|]. split; [done|]. split; [lia|done].
Qed.

Lemma recorded_result_is_in_time_witness :
  ∃ t limit,
    highScores (ui e2eWon) = recordWin (ui e2eSelected) (today e2eSelected)
    ∧ Score.timeRemaining (newScoreOf (ui e2eSelected) (today e2eSelected)) = Some t
    ∧ getTimeLimit (gridSize (ui e2eSelected)) = Some limit
    ∧ 1 ≤ t ≤ limit
    ∧ 0 ≤ Score.moves (newScoreOf (ui e2eSelected) (today e2eSelected)).
Proof.
  apply (recorded_result_is_in_time ∅ [] false e2eRandom (codeUnits "11/2/2026")
           e2eSelected (PressTile 2 2) e2eWon).
  - exact e2eSelected_steps.
  - exact e2eSelected_offers_press.
  - by vm_compute.
  - by vm_compute.
  - by vm_compute.
Defined.

(** ** The grid and its target *)

Lemma tilesOk_same (s s' : State) :
  gridSize s' = gridSize s → grid s' = grid s → targetGrid s' = targetGrid s →
  tilesOk s → tilesOk s'.
Proof. unfold tilesOk. by intros -> -> ->. Qed.

Lemma tilesOk_started (s : State) (colors : list Color) (shuffled : list Z) :
  length shuffled = (gridSize s * gridSize s)%nat →
  tilesOk (startedState s colors shuffled).
Proof.
  intros Hlen. exists colors. simpl. split; [done|].
  intros i j t (Hi & Hj & ->)%getCell_fillGrid_inv.
  destruct (lookup_lt_is_Some_2 shuffled (i * gridSize s + j)) as [N HN]; [nia|].
  exists N. unfold shuffledCell, tileFor. by rewrite HN.
Qed.

Lemma tilesOk_swapped (s s' : State) (a b : nat * nat) :
  gridOfSize (gridSize s) (grid s) → inGrid (gridSize s) a → inGrid (gridSize s) b →
  gridSize s' = gridSize s → targetGrid s' = targetGrid s →
  grid s' = swapCells (grid s) a b →
  tilesOk s → tilesOk s'.
Proof.
  intros [Hlen _] [Ha _] [Hb _] En Et Eg (colors & Htarget & Htiles).
  exists colors. rewrite En, Et, Eg. split; [done|].
  intros i j t. change (getCell (swapCells (grid s) a b) i j)
    with (getCell (swapCells (grid s) a b) (i, j).1 (i, j).2).
  rewrite getCell_swapCells by lia.
  repeat case_decide; apply Htiles.
Qed.

Lemma Outcome_keeps_screenOk (g : Game) (ev : Event) (g' : Game) :
  engineOk g → offered g ev → Outcome g ev g' →
  screenOk (ui g) → screenOk (ui g').
Proof.
  intros (Hsize & Hboard & _ & _) Hoff Hout Hscreen.
  destruct Hout as [|name|n|Hempty|colors shuffled t g' Hname Hlen Hperm Hlimit Eu Ep Eo
    |row col Hp|row col x Hp Hx|row col sel Hsw Hin Hinsel Hs
    |row col sel Hsw Hin Hinsel Hs|Hpend|t g' Hp Et Hlt Eu Ep Eo
    |g' Hp Et Eu Ep Eo| | |]; simpl in Hoff.
  - by intros [_ ?].
  - intros [_ H]. by simpl in H.
  - intros [_ H]. simpl in H. by destruct Hoff.
  - done.
  - intros _. rewrite Eu. split; [|done].
    apply tilesOk_started. by rewrite Hperm, oneTo_length.
  - done.
  - intros _. destruct Hoff as [Hon _]. destruct (Hscreen Hon) as [Ht _].
    split; [by apply (tilesOk_same (ui g))|]. simpl. by rewrite Hp.
  - intros _. destruct Hoff as [Hon _]. destruct (Hscreen Hon) as [Ht _].
    destruct (Hboard Hon) as (Hg & _). destruct Hsw as (Hp & _).
    split; [by apply (tilesOk_swapped (ui g) _ (row, col) sel)|].
    simpl. by rewrite Hp.
  - intros _. destruct Hoff as [Hon _]. destruct (Hscreen Hon) as [Ht _].
    destruct (Hboard Hon) as (Hg & _). rewrite wonGame_ui.
    split; [by apply (tilesOk_swapped (ui g) _ (row, col) sel)|done].
  - done.
  - intros _. assert (onGameScreen (ui g)) as Hon by (split; by rewrite Hp).
    destruct (Hscreen Hon) as [Ht _]. rewrite Eu.
    split; [by apply (tilesOk_same (ui g))|]. simpl. by rewrite Hp.
  - intros _. assert (onGameScreen (ui g)) as Hon by (split; by rewrite Hp).
    destruct (Hscreen Hon) as [Ht _]. rewrite Eu.
    split; [by apply (tilesOk_same (ui g))|done].
  - intros [_ H]. by cbn in H.
  - by intros [_ ?].
  - exact Hscreen.
Qed.

Lemma steps_screenOk (g0 g : Game) :
  engineOk g0 → screenOk (ui g0) → steps g0 g → screenOk (ui g).
Proof.
  intros Hok0 H0 Hsteps.
  induction Hsteps as [|g ev g' Hsteps IH Hoff Hd]; [done|].
  pose proof (steps_engineOk _ _ Hok0 Hsteps) as Hok.
  destruct (dispatch_outcome g ev Hok Hoff) as (g1 & Hd1 & Hout).
  assert (g1 = g') as -> by congruence.
  by eapply Outcome_keeps_screenOk.
Qed.

(** [X20] In a session, whenever the phase is [Won] the grid on the screen
    is the target grid the grid factory stored at the start of the game,
    tile by tile, numbers and colours. *)
Theorem won_grid_is_the_target scores name sound random date (g : Game) :
  steps (bootGame scores name sound random date) g →
  gameState (ui g) = Won →
  grid (ui g) = targetGrid (ui g).
Proof.
  intros Hsteps Hwon.
  pose proof (bootGame_engineOk scores name sound random date) as Hok0.
  pose proof (steps_engineOk _ _ Hok0 Hsteps) as (_ & Hboard & _ & _).
  assert (screenOk (ui (bootGame scores name sound random date))) as H0
    by (by intros [? _]).
  assert (onGameScreen (ui g)) as Hon by (split; by rewrite Hwon).
  destruct (steps_screenOk _ _ Hok0 H0 Hsteps Hon)
    as [(colors & Htarget & Htiles) Hsolved].
  destruct (Hboard Hon) as (Hg & _).
  specialize (Hsolved Hwon). apply solved_ascending in Hsolved.
  set (n := gridSize (ui g)) in *.
  apply (grid_ext n); [done|rewrite Htarget; apply gridOfSize_fillGrid|].
  intros i j Hi Hj. rewrite Htarget, getCell_fillGrid by done.
  destruct (gridOfSize_getCell n _ i j Hg Hi Hj) as [t Ht]. rewrite Ht.
  destruct (Htiles i j t Ht) as [N ->].
  specialize (Hsolved (Z.of_nat (i * n + j + 1))).
  unfold nthVisited in Hsolved.
  replace (Z.to_nat (Z.of_nat (i * n + j + 1) - 1)) with (i * n + j)%nat in Hsolved
    by lia.
  destruct (flat_div n i j Hj) as [Ediv Emod].
  rewrite Ediv, Emod in Hsolved. simpl in Hsolved.
  unfold numberAt in Hsolved. rewrite Ht in Hsolved. simpl in Hsolved.
  assert (N = Z.of_nat (i * n + j + 1)) as -> by (by injection (Hsolved ltac:(nia))).
  f_equal. unfold tileFor, targetCell, js_index.
  rewrite decide_False by lia. do 2 f_equal. lia.
Qed.

Lemma won_grid_is_the_target_witness :
  grid (ui e2eWon) = targetGrid (ui e2eWon).
Proof.
  apply (won_grid_is_the_target ∅ [] false e2eRandom (codeUnits "11/2/2026")).
  - exact e2eWon_steps.
  - by vm_compute.
Defined.
